(** * Aggregation and funnel logic of the MCP tool servers

    A shallow embedding of the aggregation code of [src/shopify.ts]
    (tools [get_sales_summary], [get_sales_by_product], [get_sales_trends])
    and of the funnel code of [src/ga4.ts] (tools [calculate_cvr],
    [analyze_user_journey]), followed by the properties established about
    them.  Part IV adds further properties of this code and the
    configuration that [src/shopify.ts] reads when it is loaded; Part V
    embeds the request handler of [src/ga4.ts] with its state, the tools
    [setup_ga4_client] and [get_ga4_data], and the calls that carry no
    arguments.

    Conventions of the embedding.
    - A JavaScript number is the rational that the IEEE-754 double holds
      ([Qc]).  The sum, product and quotient of two numbers are the exact
      results rounded to the nearest double, the one with the even
      significand on a tie ([JsNum.add], [JsNum.mul], [JsNum.quot]); the
      range of the exponent is not bounded, so that neither overflow to an
      infinity nor the subnormal numbers are modelled.  A division by zero,
      whose result is not a finite number ([NaN], [Infinity]), is [None].
      A count of events or orders is an integer ([Z], [nat]): the doubles
      hold the integers below [2 ^ 53] exactly.
    - [parseFloat] and [parseInt] are applied by the source to fields that
      the upstream APIs deliver as decimal strings; the embedding takes the
      fields as already parsed numbers.  [JsNum.parseDecimal] gives the
      double that [parseFloat] reads from a decimal.
    - [parseFloat(x.toFixed(2))] is the decimal with two places that the
      result prints as ([JsNum.toFixed2]).
    - A JavaScript object used as a dictionary is a [gmap] where only its
      contents matter and an insertion-ordered association list where the
      order of [Object.values] matters.  Both hold the own properties of
      the object.  A key that the data supply (a currency code, a product
      key) can be the name of a property of [Object.prototype], which a
      read finds in place of a missing own property: the theorems about
      such keys say that they are no such names
      ([JsObject.inherited]).  An assignment under the name ["__proto__"]
      adds no property ([GA4.assign]).
    - The local time zone of the process is one offset from UTC (no
      daylight saving time).
    - An [async] function that talks to the upstream API is a computation in
      a monad that threads the log of the requests issued so far and may
      fail with an [McpError]. *)

From Stdlib Require Import ZArith QArith Qcanon Qround Qpower Lia Lqa.
From Stdlib Require Import Ascii String Permutation Sorted.
From stdpp Require Import base numbers gmap strings pretty list fin_maps.

(* ===================================================================== *)
(** * Part I: the embedding                                               *)
(* ===================================================================== *)

(** ** IEEE-754 doubles: rounding to 53 significant bits *)

Module Double.

Local Open Scope Q_scope.

(** [2 ^ e], for an exponent of either sign. *)
Definition pow2 (e : Z) : Q := 2 ^ e.

(** The exponent of a positive rational [q]: the [e] with
    [2 ^ e <= q < 2 ^ (e + 1)]. *)
Definition exponent (q : Q) : Z :=
  let e := (Z.log2 (Qnum q) - Z.log2 (Zpos (Qden q)))%Z in
  if Qle_bool (pow2 e) q then e else (e - 1)%Z.

(** Nearest integer, the even one on a tie. *)
Definition round_half_even (q : Q) : Z :=
  let n := Qfloor q in
  match Qcompare (q - inject_Z n) (1 # 2) with
  | Lt => n
  | Eq => if Z.even n then n else (n + 1)%Z
  | Gt => (n + 1)%Z
  end.

(** The double nearest to a positive rational: the multiple of
    [2 ^ (e - 52)] nearest to it, which has 53 significant bits, the one
    with the even significand on a tie. *)
Definition nearest (q : Q) : Q :=
  let ulp := pow2 (exponent q - 52) in
  inject_Z (round_half_even (q / ulp)) * ulp.

End Double.

(** ** JavaScript numbers *)

Module JsNum.

Local Open Scope Qc_scope.

(** The double nearest to a rational, the one with the even significand
    on a tie, with the sign of the rational; the exponent is not bounded
    (no overflow, no subnormal numbers). *)
Definition fl (x : Qc) : Qc :=
  if decide (0 < x) then Q2Qc (Double.nearest x)
  else if decide (x < 0) then - Q2Qc (Double.nearest (- x)) else 0.

(** [x + y], [x - y], [x * y] and [x / y] (for [y] other than zero) of
    JavaScript. *)
Definition add (x y : Qc) : Qc := fl (x + y).
Definition sub (x y : Qc) : Qc := fl (x - y).
Definition mul (x y : Qc) : Qc := fl (x * y).
Definition quot (x y : Qc) : Qc := fl (x / y).

(** The largest relative error of one operation: [2 ^ -53]. *)
Definition epsilon : Qc := Q2Qc (Double.pow2 (-53)).

(** [parseFloat] of the decimal numeral of [q]. *)
Definition parseDecimal (q : Q) : Qc := fl (Q2Qc q).

(** [x / y] of JavaScript on finite operands: a finite quotient, or a
    non-finite value ([NaN] for [0/0], an infinity otherwise) when the
    divisor is zero. *)
Definition div (x y : Qc) : option Qc :=
  if decide (y = 0) then None else Some (quot x y).

(** Truthiness of a number: [!x] holds for [0] (and [NaN]). *)
Definition falsy (x : Qc) : bool := bool_decide (x = 0).

(** Nearest integer, ties to the larger one, of a non-negative rational. *)
Definition round_half_up (q : Q) : Z := Qfloor (q + (1 # 2))%Q.

(** The decimal with two places nearest to a non-negative [q], the larger
    one on a tie. *)
Definition nearest_cent (q : Q) : Qc :=
  Q2Qc (inject_Z (round_half_up (q * 100)) / 100)%Q.

(** [parseFloat(x.toFixed(2))]: [toFixed] drops the sign, picks the integer
    [n] with [n / 100] closest to the magnitude (the larger one on a tie)
    and restores the sign; the result is the decimal [n / 100], which is
    what the double that [parseFloat] returns prints as. *)
Definition toFixed2 (x : Qc) : Qc :=
  if decide (x < 0) then - nearest_cent (- x) else nearest_cent x.

(** [parseFloat(x.toFixed(2))] of a possibly non-finite number: [NaN] and
    the infinities print as themselves and parse back to themselves. *)
Definition toFixed2_opt (x : option Qc) : option Qc := toFixed2 <$> x.

Definition of_Z (z : Z) : Qc := Q2Qc (inject_Z z).
Definition of_nat (n : nat) : Qc := of_Z (Z.of_nat n).

End JsNum.

(** ** The tool protocol: errors and upstream requests *)

Module Mcp.

Inductive ErrorCode : Set :=
| InvalidRequest
| InvalidParams
| InternalError.

Record McpError : Set := mkError { code : ErrorCode; message : string }.

(** A computation that may issue requests of type [Req] to the upstream
    API (appended to the log in the order they are issued) and either fails
    with an [McpError] or returns a value. *)
Definition M (Req A : Type) : Type := list Req → (McpError + A) * list Req.

Definition ret {Req A} (a : A) : M Req A := λ log, (inr a, log).

Definition throw {Req A} (e : McpError) : M Req A := λ log, (inl e, log).

Definition bind {Req A B} (m : M Req A) (k : A → M Req B) : M Req B :=
  λ log,
    match m log with
    | (inl e, log') => (inl e, log')
    | (inr a, log') => k a log'
    end.

(** One request to an upstream that answers request [r] with [srv r]. *)
Definition request {Req A} (srv : Req → McpError + A) (r : Req) : M Req A :=
  λ log, (srv r, log ++ [r]).

(** Running a computation from the empty log. *)
Definition run {Req A} (m : M Req A) : (McpError + A) * list Req := m [].

#[global] Instance M_ret {Req} : MRet (M Req) := λ A, ret.
#[global] Instance M_bind {Req} : MBind (M Req) := λ A B k m, bind m k.
#[global] Instance M_fmap {Req} : FMap (M Req) :=
  λ A B f m, bind m (λ a, ret (f a)).

End Mcp.

(** ** Control flow: [while] loops with [break] *)

Module Loop.

Inductive ctl : Set := Break | Continue.

(** [while (cond st) { st := body st }], where the body says whether it
    left through [break].  [fuel] bounds the number of iterations; [None]
    is running out of it. *)
Fixpoint while {Req St} (fuel : nat) (cond : St → bool)
    (body : St → Mcp.M Req (ctl * St)) (st : St) : Mcp.M Req (option St) :=
  match fuel with
  | O => Mcp.ret None
  | S fuel' =>
      if cond st then
        r ← body st;
        match r with
        | (Break, st') => Mcp.ret (Some st')
        | (Continue, st') => while fuel' cond body st'
        end
      else Mcp.ret (Some st)
  end.

End Loop.

(** ** Strings: the few methods of [String.prototype] the code uses *)

Module JsString.

(** [s.padStart(n, c)] for a one-character pad string. *)
Definition padStart (n : nat) (c : ascii) (s : string) : string :=
  String.concat "" (replicate (n - String.length s) (String c "")) +:+ s.

(** [s.split("T")[0]]: the text before the first ["T"], all of [s] when it
    holds none. *)
Fixpoint before_T (s : string) : string :=
  match s with
  | EmptyString => EmptyString
  | String c s' => if Ascii.eqb c "T" then EmptyString else String c (before_T s')
  end.

(** Truthiness of an optional string argument: [undefined] and [""] are
    falsy. *)
Definition falsy (o : option string) : bool :=
  match o with
  | None => true
  | Some s => String.eqb s ""
  end.

End JsString.

(** ** Dates: time values and the abstract operations of ECMA-262

    A time value is the number of milliseconds since the epoch, in UTC.
    The local time zone of the process is a fixed offset [tza] in
    milliseconds east of UTC (daylight saving is not modelled). *)

Module EcmaDate.

Local Open Scope Z_scope.

Definition msPerDay : Z := 86400000.
Definition msPerHour : Z := 3600000.
Definition msPerMinute : Z := 60000.
Definition msPerSecond : Z := 1000.

Definition Day (t : Z) : Z := t / msPerDay.
Definition TimeWithinDay (t : Z) : Z := t mod msPerDay.

Definition DaysInYear (y : Z) : Z :=
  if negb (y mod 4 =? 0) then 365
  else if negb (y mod 100 =? 0) then 366
  else if negb (y mod 400 =? 0) then 365
  else 366.

Definition DayFromYear (y : Z) : Z :=
  365 * (y - 1970) + (y - 1969) / 4 - (y - 1901) / 100 + (y - 1601) / 400.

Definition TimeFromYear (y : Z) : Z := msPerDay * DayFromYear y.

(** The year of day number [d]: the largest [y] with [DayFromYear y <= d].
    A year has 146097/400 days on average, which places the estimate [y0]
    within one year of the answer. *)
Definition YearFromDay (d : Z) : Z :=
  let y0 := 1970 + (400 * d) / 146097 in
  if DayFromYear (y0 + 1) <=? d then y0 + 1
  else if DayFromYear y0 <=? d then y0
  else y0 - 1.

Definition YearFromTime (t : Z) : Z := YearFromDay (Day t).

Definition InLeapYear (t : Z) : Z :=
  if DaysInYear (YearFromTime t) =? 366 then 1 else 0.

Definition DayWithinYear (t : Z) : Z := Day t - DayFromYear (YearFromTime t).

(** Day within the year on which month [m] (0 for January) starts. *)
Definition monthStart (m leap : Z) : Z :=
  match m with
  | 0 => 0
  | 1 => 31
  | 2 => 59 + leap
  | 3 => 90 + leap
  | 4 => 120 + leap
  | 5 => 151 + leap
  | 6 => 181 + leap
  | 7 => 212 + leap
  | 8 => 243 + leap
  | 9 => 273 + leap
  | 10 => 304 + leap
  | _ => 334 + leap
  end.

Definition MonthFromTime (t : Z) : Z :=
  let d := DayWithinYear t in
  let leap := InLeapYear t in
  if d <? 31 then 0
  else if d <? 59 + leap then 1
  else if d <? 90 + leap then 2
  else if d <? 120 + leap then 3
  else if d <? 151 + leap then 4
  else if d <? 181 + leap then 5
  else if d <? 212 + leap then 6
  else if d <? 243 + leap then 7
  else if d <? 273 + leap then 8
  else if d <? 304 + leap then 9
  else if d <? 334 + leap then 10
  else 11.

Definition DateFromTime (t : Z) : Z :=
  DayWithinYear t - monthStart (MonthFromTime t) (InLeapYear t) + 1.

(** 0 is Sunday, 4 is Thursday (the day of the epoch). *)
Definition WeekDay (t : Z) : Z := (Day t + 4) mod 7.

Definition HourFromTime (t : Z) : Z := (t / msPerHour) mod 24.
Definition MinFromTime (t : Z) : Z := (t / msPerMinute) mod 60.
Definition SecFromTime (t : Z) : Z := (t / msPerSecond) mod 60.
Definition msFromTime (t : Z) : Z := t mod msPerSecond.

Definition MakeDay (year month date : Z) : Z :=
  let ym := year + month / 12 in
  let mn := month mod 12 in
  let leap := if DaysInYear ym =? 366 then 1 else 0 in
  DayFromYear ym + monthStart mn leap + date - 1.

Definition MakeDate (day time : Z) : Z := day * msPerDay + time.

Section LocalZone.

(** Offset of the local time zone of the process, in milliseconds; the
    zone is one that keeps one offset from UTC all year, without daylight
    saving time. *)
Variable tza : Z.

Definition LocalTime (t : Z) : Z := t + tza.
Definition UTC (t : Z) : Z := t - tza.

(** [Date.prototype] methods, on the time value of the receiver. *)
Definition getFullYear (t : Z) : Z := YearFromTime (LocalTime t).
Definition getMonth (t : Z) : Z := MonthFromTime (LocalTime t).
Definition getDate (t : Z) : Z := DateFromTime (LocalTime t).
Definition getDay (t : Z) : Z := WeekDay (LocalTime t).

(** [d.setDate(dt)]: the new time value of [d]. *)
Definition setDate (t dt : Z) : Z :=
  let lt := LocalTime t in
  UTC (MakeDate (MakeDay (YearFromTime lt) (MonthFromTime lt) dt)
                (TimeWithinDay lt)).

End LocalZone.

Definition pad (n : nat) (z : Z) : string := JsString.padStart n "0" (pretty z).

(** The year of [toISOString]: four digits from 0 to 9999, a sign and six
    digits otherwise. *)
Definition isoYear (y : Z) : string :=
  if (0 <=? y) && (y <=? 9999) then pad 4 y
  else if y <? 0 then "-" +:+ pad 6 (- y)
  else "+" +:+ pad 6 y.

(** The calendar date of [t] in UTC as [YYYY-MM-DD]. *)
Definition isoDate (t : Z) : string :=
  isoYear (YearFromTime t) +:+ "-" +:+ pad 2 (MonthFromTime t + 1)
    +:+ "-" +:+ pad 2 (DateFromTime t).

Definition isoTime (t : Z) : string :=
  pad 2 (HourFromTime t) +:+ ":" +:+ pad 2 (MinFromTime t) +:+ ":"
    +:+ pad 2 (SecFromTime t) +:+ "." +:+ pad 3 (msFromTime t).

(** [d.toISOString()], always in UTC. *)
Definition toISOString (t : Z) : string :=
  isoDate t +:+ "T" +:+ isoTime t +:+ "Z".

(** The time value of [YYYY-MM-DDTHH:mm:ssZ], as [new Date] parses it. *)
Definition utc (y mo d h mi s : Z) : Z :=
  MakeDate (MakeDay y (mo - 1) d) (h * msPerHour + mi * msPerMinute + s * msPerSecond).

End EcmaDate.

(** ** Arrays: [sort] and [slice] *)

Module JsArray.

Local Open Scope Qc_scope.

Section Sort.

Context {A : Type}.

(** The comparator of [Array.prototype.sort]: a negative number puts its
    first argument first, a positive one its second. *)
Variable cmp : A → A → Qc.

(** [x] enters a list that followed it in the array: it stays in front of
    the first element that it does not have to follow. *)
Fixpoint insert (x : A) (l : list A) : list A :=
  match l with
  | [] => [x]
  | y :: l' => if decide (cmp x y <= 0) then x :: l else y :: insert x l'
  end.

(** [l.sort(cmp)].  The sort of ECMAScript is stable, which fixes its
    result for a consistent comparator; insertion from the right is one
    such sort. *)
Definition sort (l : list A) : list A := foldr insert [] l.

End Sort.

(** [l.slice(0, e)]: a negative [e] counts from the end of [l]. *)
Definition slice0 {A} (e : Z) (l : list A) : list A :=
  if decide (e < 0)%Z
  then take (Z.to_nat (Z.max (Z.of_nat (length l) + e) 0)) l
  else take (Z.to_nat e) l.

End JsArray.

(** ** Objects used as dictionaries, with their enumeration order *)

Module JsObject.

Section Dict.

Context {V : Type}.

(** The own properties of the object, in the order of their creation. *)
Definition t : Type := list (string * V).

Definition empty : t := [].

(** [o[k]] for a name [k] that is not inherited from [Object.prototype]:
    the own property, [None] for [undefined]. *)
Fixpoint get (k : string) (o : t) : option V :=
  match o with
  | [] => None
  | (k', v) :: o' => if String.eqb k k' then Some v else get k o'
  end.

(** [o[k] = v]: an existing property keeps its place, a new one is added
    last. *)
Fixpoint set (k : string) (v : V) (o : t) : t :=
  match o with
  | [] => [(k, v)]
  | (k', v') :: o' =>
      if String.eqb k k' then (k', v) :: o' else (k', v') :: set k v o'
  end.

(** [o[k].field op= ...], for a property known to exist. *)
Definition update (k : string) (f : V → V) (o : t) : t :=
  match get k o with
  | Some v => set k (f v) o
  | None => o
  end.

Definition is_digit (c : ascii) : bool :=
  let n := N_of_ascii c in (48 <=? n)%N && (n <=? 57)%N.

Fixpoint digits_value (acc : N) (s : string) : option N :=
  match s with
  | EmptyString => Some acc
  | String c s' =>
      if is_digit c
      then digits_value (10 * acc + (N_of_ascii c - 48))%N s'
      else None
  end.

(** The array index that a property key denotes, if any: a decimal numeral
    without leading zero, below [2^32 - 1]. *)
Definition array_index (k : string) : option N :=
  match k with
  | EmptyString => None
  | String c s' =>
      if Ascii.eqb c "0" && negb (String.eqb s' "") then None
      else match digits_value 0 k with
           | Some n => if (n <? 4294967295)%N then Some n else None
           | None => None
           end
  end.

Definition index_cmp (p q : string * V) : Qc :=
  match array_index p.1, array_index q.1 with
  | Some m, Some n => JsNum.of_Z (Z.of_N m) - JsNum.of_Z (Z.of_N n)
  | _, _ => 0
  end.

(** [Object.entries(o)]: the keys that are array indices first, in
    ascending order, then the other keys in the order of their creation. *)
Definition entries (o : t) : list (string * V) :=
  JsArray.sort index_cmp (filter (λ p, is_Some (array_index p.1)) o)
  ++ filter (λ p, ¬ is_Some (array_index p.1)) o.

(** [Object.values(o)]. *)
Definition values (o : t) : list V := (entries o).*2.

(** The dictionary that the object denotes. *)
Definition to_map (o : t) : gmap string V := list_to_map o.

End Dict.

Arguments t : clear implicits.

(** The names of the properties of [Object.prototype], which every object
    that was created as [{}] inherits. *)
Definition prototype_names : list string :=
  ["constructor"; "__defineGetter__"; "__defineSetter__"; "hasOwnProperty";
   "__lookupGetter__"; "__lookupSetter__"; "isPrototypeOf";
   "propertyIsEnumerable"; "toString"; "valueOf"; "__proto__";
   "toLocaleString"].

(** A read [o[k]] of an inherited name finds the property of the prototype
    where [o] has none of its own; [get] and [set] are the reads and the
    assignments of the other names. *)
Definition inherited (k : string) : bool := bool_decide (k ∈ prototype_names).

End JsObject.

(** ** [src/shopify.ts]: the sales analytics tools *)

Module Shopify.

Import Mcp.
Local Open Scope Qc_scope.

Record ShopifyConfig : Set :=
  { shopDomain : string; accessToken : string; apiVersion : string }.

(** [shopMoney] of a price set. *)
Record Money : Set := { amount : Qc; currencyCode : string }.

Record Product : Set := { id : string; product_title : string }.

Record LineItem : Set :=
  { title : string;
    quantity : Z;
    originalTotalSet : Money;
    product : option Product }.

(** A node of [orders.edges]; each query selects the fields it reads. *)
Record Order : Set :=
  { createdAt : Z;
    totalPriceSet : Money;
    totalDiscountsSet : Money;
    totalShippingPriceSet : Money;
    totalTaxSet : Money;
    lineItems : list LineItem }.

Inductive Document : Set :=
| GetOrdersForSalesSummary
| GetOrdersForProductSales
| GetOrdersForSalesTrends.

(** One GraphQL request: the query document and its variables. *)
Record Request : Set :=
  { document : Document;
    query : string;
    first : nat;
    after : option string }.

(** [data.orders] of a response. *)
Record Page : Set :=
  { edges : list Order;
    hasNextPage : bool;
    endCursor : option string }.

(** The Admin API as the server sees it: a failure (transport error,
    GraphQL [errors], malformed payload) with its text, or the data. *)
Definition Upstream : Type := Request → string + Page.

Record Args : Set :=
  { startDate : option string;
    endDate : option string;
    arg_currencyCode : option string;
    interval : option string;
    limit : option Z }.

Section Server.

(** [shopifyConfig], set once from the environment when the module loads. *)
Variable shopifyConfig : option ShopifyConfig.

Variable upstream : Upstream.

(** Offset of the local time zone of the process, in milliseconds; the
    zone is one that keeps one offset from UTC all year, without daylight
    saving time. *)
Variable tza : Z.

Definition executeShopifyGraphQL (r : Request) : M Request Page :=
  match shopifyConfig with
  | None =>
      throw (mkError InvalidRequest
        "Shopify configuration not set. Please set SHOPIFY_SHOP_DOMAIN, SHOPIFY_ACCESS_TOKEN, and SHOPIFY_API_VERSION environment variables.")
  | Some _ =>
      request (λ r, match upstream r with
                    | inl msg => inl (mkError InternalError msg)
                    | inr page => inr page
                    end) r
  end.

(** *** [get_sales_summary] *)

Record FetchState : Set :=
  { fs_hasNextPage : bool;
    fs_endCursor : option string;
    allOrders : list Order }.

(** The body of [while (hasNextPage)]; it ends in an unconditional
    [break]. *)
Definition fetch_body (queryFilter : string) (st : FetchState)
    : M Request (Loop.ctl * FetchState) :=
  data ← executeShopifyGraphQL
           {| document := GetOrdersForSalesSummary;
              query := queryFilter;
              first := 100;
              after := fs_endCursor st |};
  mret (Loop.Break,
        {| fs_hasNextPage := hasNextPage data;
           fs_endCursor := endCursor data;
           allOrders := allOrders st ++ edges data |}).

Definition fetch_orders (fuel : nat) (queryFilter : string)
    : M Request (option FetchState) :=
  Loop.while fuel fs_hasNextPage (fetch_body queryFilter)
    {| fs_hasNextPage := true; fs_endCursor := None; allOrders := [] |}.

Record Summary : Type :=
  { totalOrders : nat;
    totalSales : Qc;
    averageOrderValue : Qc;
    totalDiscounts : Qc;
    totalShipping : Qc;
    totalTax : Qc;
    salesByCurrency : JsObject.t Qc;
    salesByStatus : JsObject.t Qc }.

(** [if (!o[k]) { o[k] = 0; }  o[k] += x;] *)
Definition add_to (k : string) (x : Qc) (o : JsObject.t Qc) : JsObject.t Qc :=
  let o1 :=
    match JsObject.get k o with
    | Some v => if JsNum.falsy v then JsObject.set k 0 o else o
    | None => JsObject.set k 0 o
    end in
  JsObject.update k (λ v, JsNum.add v x) o1.

(** One turn of [allOrders.forEach]. *)
Definition summary_step (s : Summary) (order : Order) : Summary :=
  let totalPrice := amount (totalPriceSet order) in
  let currencyCode := currencyCode (totalPriceSet order) in
  let discounts := amount (totalDiscountsSet order) in
  let shipping := amount (totalShippingPriceSet order) in
  let tax := amount (totalTaxSet order) in
  {| totalOrders := totalOrders s;
     totalSales := JsNum.add (totalSales s) totalPrice;
     averageOrderValue := averageOrderValue s;
     totalDiscounts := JsNum.add (totalDiscounts s) discounts;
     totalShipping := JsNum.add (totalShipping s) shipping;
     totalTax := JsNum.add (totalTax s) tax;
     salesByCurrency := add_to currencyCode totalPrice (salesByCurrency s);
     salesByStatus := add_to "other" totalPrice (salesByStatus s) |}.

Definition summary_init (orders : list Order) : Summary :=
  {| totalOrders := length orders;
     totalSales := 0;
     averageOrderValue := 0;
     totalDiscounts := 0;
     totalShipping := 0;
     totalTax := 0;
     salesByCurrency := JsObject.empty;
     salesByStatus := JsObject.empty |}.

(** [summary] after the [forEach], before the average is set. *)
Definition summary_accumulate (orders : list Order) : Summary :=
  fold_left summary_step orders (summary_init orders).

(** [totalOrders > 0 ? totalSales / totalOrders : 0] *)
Definition summary_average (s : Summary) : Qc :=
  if decide (0 < totalOrders s)%nat
  then JsNum.quot (totalSales s) (JsNum.of_nat (totalOrders s))
  else 0.

(** [summary] as the formatting step reads it. *)
Definition summarize (orders : list Order) : Summary :=
  let s := summary_accumulate orders in
  {| totalOrders := totalOrders s;
     totalSales := totalSales s;
     averageOrderValue := summary_average s;
     totalDiscounts := totalDiscounts s;
     totalShipping := totalShipping s;
     totalTax := totalTax s;
     salesByCurrency := salesByCurrency s;
     salesByStatus := salesByStatus s |}.

(** The amounts of a dictionary rounded one by one, by the [reduce] over
    [Object.entries]. *)
Definition round_entries (o : JsObject.t Qc) : JsObject.t Qc :=
  fold_left (λ acc p, JsObject.set p.1 (JsNum.toFixed2 p.2) acc)
    (JsObject.entries o) JsObject.empty.

(** [formattedSummary]; a field printed by [toFixed(2)] is held as the
    decimal that the text denotes. *)
Definition formatSummary (s : Summary) : Summary :=
  {| totalOrders := totalOrders s;
     totalSales := JsNum.toFixed2 (totalSales s);
     averageOrderValue := JsNum.toFixed2 (averageOrderValue s);
     totalDiscounts := JsNum.toFixed2 (totalDiscounts s);
     totalShipping := JsNum.toFixed2 (totalShipping s);
     totalTax := JsNum.toFixed2 (totalTax s);
     salesByCurrency := round_entries (salesByCurrency s);
     salesByStatus := round_entries (salesByStatus s) |}.

Definition summaryFilter (startDate endDate : string)
    (currencyCode : option string) : string :=
  let queryFilter :=
    "created_at:>=" +:+ startDate +:+ " created_at:<=" +:+ endDate
      +:+ " status:any" in
  match currencyCode with
  | Some c => if JsString.falsy (Some c) then queryFilter
              else queryFilter +:+ " currency:" +:+ c
  | None => queryFilter
  end.

(** The tool, past the check of the configuration.  [None] is a fetch loop
    that did not finish within [fuel] iterations. *)
Definition get_sales_summary (fuel : nat) (args : Args)
    : M Request (option Summary) :=
  if JsString.falsy (startDate args) || JsString.falsy (endDate args) then
    throw (mkError InvalidParams
      "startDate and endDate are required for get_sales_summary.")
  else
    let queryFilter :=
      summaryFilter (default "" (startDate args)) (default "" (endDate args))
        (arg_currencyCode args) in
    st ← fetch_orders fuel queryFilter;
    mret ((λ st, formatSummary (summarize (allOrders st))) <$> st).

(** *** [get_sales_by_product] *)

Record ProductSales : Set :=
  { productId : string;
    productTitle : string;
    ps_totalQuantity : Z;
    ps_totalSales : Qc;
    ps_currencyCode : string;
    orders : nat }.

(** [item.product?.id || item.title] *)
Definition item_productId (item : LineItem) : string :=
  match product item with
  | Some p => if String.eqb (id p) "" then title item else id p
  | None => title item
  end.

(** [item.product?.title || item.title] *)
Definition item_productTitle (item : LineItem) : string :=
  match product item with
  | Some p => if String.eqb (product_title p) "" then title item
              else product_title p
  | None => title item
  end.

(** One turn of [lineItems.forEach]. *)
Definition product_step (productSales : JsObject.t ProductSales)
    (item : LineItem) : JsObject.t ProductSales :=
  let pid := item_productId item in
  let ptitle := item_productTitle item in
  let totalPrice := amount (originalTotalSet item) in
  let o1 :=
    match JsObject.get pid productSales with
    | Some _ => productSales
    | None =>
        JsObject.set pid
          {| productId := pid;
             productTitle := ptitle;
             ps_totalQuantity := 0;
             ps_totalSales := 0;
             ps_currencyCode := currencyCode (originalTotalSet item);
             orders := 0 |} productSales
    end in
  JsObject.update pid
    (λ p, {| productId := productId p;
             productTitle := productTitle p;
             ps_totalQuantity := (ps_totalQuantity p + quantity item)%Z;
             ps_totalSales := JsNum.add (ps_totalSales p) totalPrice;
             ps_currencyCode := ps_currencyCode p;
             orders := orders p + 1 |}) o1.

(** [productSales] after [orders.forEach]. *)
Definition product_accumulate (os : list Order) : JsObject.t ProductSales :=
  fold_left (λ acc order, fold_left product_step (lineItems order) acc)
    os JsObject.empty.

(** An entry of the answer: the bucket with [totalSales] rounded and the
    average added. *)
Record ProductRow : Set :=
  { row : ProductSales;
    pr_totalSales : Qc;
    pr_averageOrderValue : option Qc }.

Definition product_row (p : ProductSales) : ProductRow :=
  {| row := p;
     pr_totalSales := JsNum.toFixed2 (ps_totalSales p);
     pr_averageOrderValue :=
       JsNum.toFixed2_opt
         (JsNum.div (ps_totalSales p) (JsNum.of_nat (orders p))) |}.

(** [(a, b) => b.totalSales - a.totalSales] *)
Definition by_sales_desc (a b : ProductSales) : Qc :=
  JsNum.sub (ps_totalSales b) (ps_totalSales a).

Definition sortedProductSales (limit : Z) (productSales : JsObject.t ProductSales)
    : list ProductRow :=
  product_row <$>
    JsArray.slice0 limit
      (JsArray.sort by_sales_desc (JsObject.values productSales)).

(** [const { startDate, endDate, limit = 10 } = args] *)
Definition limit_or_default (args : Args) : Z := default 10%Z (limit args).

Definition ordersFilter (startDate endDate : string) : string :=
  "created_at:>=" +:+ startDate +:+ " created_at:<=" +:+ endDate
    +:+ " status:any".

Definition get_sales_by_product (args : Args) : M Request (list ProductRow) :=
  if JsString.falsy (startDate args) || JsString.falsy (endDate args) then
    throw (mkError InvalidParams
      "startDate and endDate are required for get_sales_by_product.")
  else
    data ← executeShopifyGraphQL
             {| document := GetOrdersForProductSales;
                query := ordersFilter (default "" (startDate args))
                                      (default "" (endDate args));
                first := 50;
                after := None |};
    mret (sortedProductSales (limit_or_default args)
            (product_accumulate (edges data))).

(** *** [get_sales_trends] *)

Record Trend : Set :=
  { period : string;
    tr_totalSales : Qc;
    orderCount : nat }.

(** The [switch (interval)] that names the period of an order. *)
Definition periodKey (interval : string) (createdAt : Z) : string :=
  if String.eqb interval "daily" then
    JsString.before_T (EcmaDate.toISOString createdAt)
  else if String.eqb interval "weekly" then
    let weekStart :=
      EcmaDate.setDate tza createdAt
        (EcmaDate.getDate tza createdAt - EcmaDate.getDay tza createdAt) in
    JsString.before_T (EcmaDate.toISOString weekStart)
  else if String.eqb interval "monthly" then
    pretty (EcmaDate.getFullYear tza createdAt) +:+ "-"
      +:+ JsString.padStart 2 "0" (pretty (EcmaDate.getMonth tza createdAt + 1)%Z)
  else
    JsString.before_T (EcmaDate.toISOString createdAt).

(** One turn of [orders.forEach]. *)
Definition trend_step (interval : string) (salesByInterval : JsObject.t Trend)
    (order : Order) : JsObject.t Trend :=
  let totalPrice := amount (totalPriceSet order) in
  let key := periodKey interval (createdAt order) in
  let o1 :=
    match JsObject.get key salesByInterval with
    | Some _ => salesByInterval
    | None =>
        JsObject.set key
          {| period := key; tr_totalSales := 0; orderCount := 0 |}
          salesByInterval
    end in
  JsObject.update key
    (λ b, {| period := period b;
             tr_totalSales := JsNum.add (tr_totalSales b) totalPrice;
             orderCount := orderCount b + 1 |}) o1.

(** [salesByInterval] after [orders.forEach]. *)
Definition trend_accumulate (interval : string) (os : list Order)
    : JsObject.t Trend :=
  fold_left (trend_step interval) os JsObject.empty.

Record TrendRow : Set :=
  { trend : Trend;
    trr_totalSales : Qc;
    trr_averageOrderValue : option Qc }.

Definition trend_row (b : Trend) : TrendRow :=
  {| trend := b;
     trr_totalSales := JsNum.toFixed2 (tr_totalSales b);
     trr_averageOrderValue :=
       JsNum.toFixed2_opt
         (JsNum.div (tr_totalSales b) (JsNum.of_nat (orderCount b))) |}.

(** A key that holds digits and hyphens only, as the keys of the years up
    to 9999 do; the key of a later year begins with ["+"]. *)
Definition plain_key (s : string) : bool :=
  forallb (λ c, JsObject.is_digit c || Ascii.eqb c "-") (list_ascii_of_string s).

(** [a.period.localeCompare(b.period)] on keys that hold digits and hyphens
    only ([plain_key]): there the collation is the order of the code
    units.  It is not on the other keys: the collation puts ["-"] before
    ["+"], the code units put it after. *)
Definition by_period (a b : Trend) : Qc :=
  match String.compare (period a) (period b) with
  | Lt => -1
  | Eq => 0
  | Gt => 1
  end.

Definition sortedSalesTrends (salesByInterval : JsObject.t Trend)
    : list TrendRow :=
  trend_row <$> JsArray.sort by_period (JsObject.values salesByInterval).

Definition intervals : list string := ["daily"; "weekly"; "monthly"].

Definition get_sales_trends (args : Args) : M Request (list TrendRow) :=
  if JsString.falsy (startDate args) || JsString.falsy (endDate args)
     || JsString.falsy (interval args) then
    throw (mkError InvalidParams
      "startDate, endDate, and interval are required for get_sales_trends.")
  else if negb (bool_decide (default "" (interval args) ∈ intervals)) then
    throw (mkError InvalidParams
      "interval must be one of: daily, weekly, monthly")
  else
    data ← executeShopifyGraphQL
             {| document := GetOrdersForSalesTrends;
                query := ordersFilter (default "" (startDate args))
                                      (default "" (endDate args));
                first := 250;
                after := None |};
    mret (sortedSalesTrends
            (trend_accumulate (default "" (interval args)) (edges data))).

(** *** The handler of [CallToolRequestSchema] *)

Inductive ToolResult : Type :=
| SalesSummary (s : option Summary)
| SalesByProduct (rows : list ProductRow)
| SalesTrends (rows : list TrendRow).

Definition callTool (fuel : nat) (toolName : string) (args : Args)
    : M Request ToolResult :=
  match shopifyConfig with
  | None =>
      throw (mkError InvalidRequest
        "Shopify client not configured. Please set SHOPIFY_SHOP_DOMAIN, SHOPIFY_ACCESS_TOKEN, and SHOPIFY_API_VERSION environment variables.")
  | Some _ =>
      if String.eqb toolName "get_sales_summary" then
        SalesSummary <$> get_sales_summary fuel args
      else if String.eqb toolName "get_sales_by_product" then
        SalesByProduct <$> get_sales_by_product args
      else if String.eqb toolName "get_sales_trends" then
        SalesTrends <$> get_sales_trends args
      else
        throw (mkError InvalidRequest ("Unknown tool: " +:+ toolName))
  end.

(** The handler as the protocol calls it.  [request.params.arguments] is
    optional, and every tool begins by destructuring it: on a call without
    arguments that throws a [TypeError], whose message is [typeError], and
    the [catch] of the handler wraps it, as it wraps every error that is
    not an [McpError], in an [InternalError]. *)
Definition handler (typeError : string) (fuel : nat) (toolName : string)
    (arguments : option Args) : M Request ToolResult :=
  match arguments with
  | Some args => callTool fuel toolName args
  | None =>
      match shopifyConfig with
      | None =>
          throw (mkError InvalidRequest
            "Shopify client not configured. Please set SHOPIFY_SHOP_DOMAIN, SHOPIFY_ACCESS_TOKEN, and SHOPIFY_API_VERSION environment variables.")
      | Some _ =>
          if String.eqb toolName "get_sales_summary"
             || String.eqb toolName "get_sales_by_product"
             || String.eqb toolName "get_sales_trends"
          then
            throw (mkError InternalError
                     ("Error processing request: " +:+ typeError))
          else
            throw (mkError InvalidRequest ("Unknown tool: " +:+ toolName))
      end
  end.

End Server.

End Shopify.

(** ** [src/ga4.ts]: conversion rate and user journey *)

Module GA4.

Import Mcp.
Local Open Scope Qc_scope.

(** A row of a report, as far as the tools read it:
    [row.dimensionValues?.[0]?.value] and [row.metricValues?.[0]?.value]. *)
Record Row : Set :=
  { dimensionValue : option string;
    metricValue : option Z }.

Record Response : Set := { rows : option (list Row) }.

Record DateRange : Set := { dr_startDate : string; dr_endDate : string }.

(** A [runReport] call: the event names of the filter, the dimensions and
    the date range; the metric is always [eventCount]. *)
Record ReportRequest : Set :=
  { eventNames : list string;
    dimensions : list string;
    dateRanges : list DateRange }.

(** The Data API as the server sees it: a failure with its text, or the
    report. *)
Definition Upstream : Type := ReportRequest → string + Response.

(** A [Map<string | null, number>]; only its contents are read. *)
Abbreviation Counts := (gmap (option string) Z).

(** [row.metricValues?.[0]?.value ?? "0"], parsed. *)
Definition row_count (r : Row) : Z := default 0%Z (metricValue r).

(** [b > 0 ? parseFloat(((c / b) * 100).toFixed(2)) : 0]: the quotient and
    the product are doubles. *)
Definition rate (c b : Z) : Qc :=
  if decide (0 < b)%Z
  then JsNum.toFixed2
         (JsNum.mul (JsNum.quot (JsNum.of_Z c) (JsNum.of_Z b)) (Q2Qc 100))
  else 0.

(** [o[k] = v] on an object that was created as [{}]: the name
    ["__proto__"] is the accessor of [Object.prototype], and an assignment
    to it sets the prototype of [o] and adds no property. *)
Definition assign {V} (k : string) (v : V) (o : gmap string V) : gmap string V :=
  if String.eqb k "__proto__" then o else <[k := v]> o.

Section Server.

Variable upstream : Upstream.

(** The helper that both tools define; it reads [dateRange] from the
    arguments of the call. *)
Definition getEventCount (dateRange : DateRange) (names : list string)
    (dimensionName : option string) : McpError + Counts :=
  let segmented := negb (JsString.falsy dimensionName) in
  match upstream
          {| eventNames := names;
             dimensions := if segmented then [default "" dimensionName] else [];
             dateRanges := [dateRange] |} with
  | inl msg =>
      inl (mkError InternalError ("GA4 API Error fetching event count: " +:+ msg))
  | inr response =>
      if segmented then
        inr (fold_left
               (λ results row,
                  <[Some (default "unknown" (dimensionValue row)) := row_count row]>
                    results)
               (default [] (rows response)) ∅)
      else
        let totalCount :=
          fold_left (λ sum row, (sum + row_count row)%Z)
            (default [] (rows response)) 0%Z in
        inr {[ None := totalCount ]}
  end.

(** *** [calculate_cvr] *)

Record CvrArgs : Set :=
  { conversionEvents : option (list string);
    baseEvents : option (list string);
    cvr_segmentBy : option string;
    cvr_dateRange : option DateRange }.

Record Cvr : Set :=
  { cvr_conversionEvents : Z;
    cvr_baseEvents : Z;
    cvr : Qc }.

Record CvrResults : Type :=
  { overall : Cvr;
    segments : option (gmap string Cvr) }.

Definition cvr_entry (conversionCounts baseCounts : Counts)
    (key : option string) : Cvr :=
  let c := default 0%Z (conversionCounts !! key) in
  let b := default 0%Z (baseCounts !! key) in
  {| cvr_conversionEvents := c; cvr_baseEvents := b; cvr := rate c b |}.

(** [new Set([...conversionCounts.keys(), ...baseCounts.keys()])] with
    [null] deleted. *)
Definition allSegments (conversionCounts baseCounts : Counts)
    : gset (option string) :=
  (dom conversionCounts ∪ dom baseCounts) ∖ {[ None ]}.

(** The [for ... of allSegments] loop that fills [cvrResults.segments]. *)
Definition cvr_segments (conversionCounts baseCounts : Counts)
    : gmap string Cvr :=
  set_fold
    (λ segmentValue acc,
       match segmentValue with
       | None => acc
       | Some s => assign s (cvr_entry conversionCounts baseCounts segmentValue) acc
       end)
    ∅ (allSegments conversionCounts baseCounts).

Definition cvr_results (segmentBy : option string)
    (conversionCounts baseCounts : Counts) : CvrResults :=
  {| overall := cvr_entry conversionCounts baseCounts None;
     segments :=
       if JsString.falsy segmentBy then None
       else Some (cvr_segments conversionCounts baseCounts) |}.

Definition calculate_cvr (args : CvrArgs) : McpError + CvrResults :=
  match conversionEvents args, baseEvents args, cvr_dateRange args with
  | Some conv, Some base, Some dateRange =>
      match getEventCount dateRange conv (cvr_segmentBy args) with
      | inl e => inl e
      | inr conversionCounts =>
          match getEventCount dateRange base (cvr_segmentBy args) with
          | inl e => inl e
          | inr baseCounts =>
              inr (cvr_results (cvr_segmentBy args) conversionCounts baseCounts)
          end
      end
  | _, _, _ =>
      inl (mkError InvalidParams
        "conversionEvents, baseEvents, and dateRange are required for calculate_cvr.")
  end.

(** *** [analyze_user_journey] *)

Definition funnelSteps : list string :=
  ["session_start"; "view_item_list"; "view_item"; "add_to_cart";
   "begin_checkout"; "purchase"].

Record JourneyResults : Type :=
  { overallFunnel : JsObject.t Z;
    overallStepConversion : JsObject.t Qc;
    segmentFunnels : option (gmap string (JsObject.t Z)) }.

(** The first [funnelSteps.forEach]: [stepDataMap] and, with [segmentBy],
    the segment values of every step. *)
Definition collect (segmentBy : option string) (steps : list string)
    (stepCountsResults : list Counts)
    : gmap string Counts * gset string :=
  fold_left
    (λ '(stepDataMap, allSegmentValues) '(index, step),
       let result : Counts := default ∅ (stepCountsResults !! index) in
       (<[step := result]> stepDataMap,
        if JsString.falsy segmentBy then allSegmentValues
        else
          set_fold
            (λ key acc, match key with
                        | Some k => {[ k ]} ∪ acc
                        | None => acc
                        end)
            allSegmentValues (dom result)))
    (imap (λ index step, (index, step)) steps) (∅, ∅).

(** [stepDataMap.get(step)?.get(key) ?? 0] *)
Definition step_count (stepDataMap : gmap string Counts) (step : string)
    (key : option string) : Z :=
  default 0%Z (stepDataMap !! step ≫= λ counts, counts !! key).

Record Overall : Type :=
  { previousStepCount : Z;
    ov_funnel : JsObject.t Z;
    ov_conversion : JsObject.t Qc }.

(** One turn of the second [funnelSteps.forEach]. *)
Definition overall_step (steps : list string) (stepDataMap : gmap string Counts)
    (st : Overall) (p : nat * string) : Overall :=
  let '(i, step) := p in
  let count := step_count stepDataMap step None in
  {| previousStepCount := count;
     ov_funnel := JsObject.set step count (ov_funnel st);
     ov_conversion :=
       if decide (0 < i)%nat then
         let prevStep := default "undefined" (steps !! (i - 1)%nat) in
         JsObject.set (prevStep +:+ "_to_" +:+ step)
           (rate count (previousStepCount st)) (ov_conversion st)
       else ov_conversion st |}.

Definition overall_funnel (steps : list string) (stepDataMap : gmap string Counts)
    : Overall :=
  fold_left (overall_step steps stepDataMap)
    (imap (λ i step, (i, step)) steps)
    {| previousStepCount := 0;
       ov_funnel := JsObject.empty;
       ov_conversion := JsObject.empty |}.

(** The funnel of one segment value, by the inner [funnelSteps.forEach]. *)
Definition segment_funnel (steps : list string) (stepDataMap : gmap string Counts)
    (segmentValue : string) : JsObject.t Z :=
  fold_left
    (λ funnel step,
       JsObject.set step (step_count stepDataMap step (Some segmentValue)) funnel)
    steps JsObject.empty.

Definition journey (segmentBy : option string) (steps : list string)
    (stepCountsResults : list Counts) : JourneyResults :=
  let '(stepDataMap, allSegmentValues) :=
    collect segmentBy steps stepCountsResults in
  let ov := overall_funnel steps stepDataMap in
  {| overallFunnel := ov_funnel ov;
     overallStepConversion := ov_conversion ov;
     segmentFunnels :=
       if JsString.falsy segmentBy then None
       else Some (set_fold
                    (λ segmentValue acc,
                       assign segmentValue
                         (segment_funnel steps stepDataMap segmentValue) acc)
                    ∅ allSegmentValues) |}.

(** [Promise.all]: every result, or the failure of the call that fails
    first.  The calls are started in the order of the list; the embedding
    takes them to fail in that order as well, so that what is established
    about the failure that is reported holds of a server whose reports
    settle in the order they were asked for. *)
Fixpoint all {A} (ps : list (McpError + A)) : McpError + list A :=
  match ps with
  | [] => inr []
  | inl e :: _ => inl e
  | inr a :: ps' =>
      match all ps' with
      | inl e => inl e
      | inr l => inr (a :: l)
      end
  end.

Record JourneyArgs : Set :=
  { segmentBy : option string;
    dateRange : option DateRange }.

Definition analyze_user_journey (args : JourneyArgs)
    : McpError + JourneyResults :=
  match dateRange args with
  | None =>
      inl (mkError InvalidParams "dateRange is required for analyze_user_journey.")
  | Some range =>
      match all ((λ step, getEventCount range [step] (segmentBy args))
                   <$> funnelSteps) with
      | inl e => inl e
      | inr stepCountsResults =>
          inr (journey (segmentBy args) funnelSteps stepCountsResults)
      end
  end.

End Server.

End GA4.

(* ===================================================================== *)
(** * Part II: properties                                                 *)
(* ===================================================================== *)

(** ** Folds over permuted lists *)

Section FoldPermutation.

Context {S A V : Type} (view : S → V) (f : S → A → S).

Hypothesis view_step : ∀ s s' a, view s = view s' → view (f s a) = view (f s' a).

Hypothesis view_swap : ∀ s a b, view (f (f s a) b) = view (f (f s b) a).

Lemma fold_left_view l : ∀ s s',
  view s = view s' → view (fold_left f l s) = view (fold_left f l s').
Proof.
  induction l as [|a l IH]; intros s s' Hv; simpl; [done|].
  apply IH. by apply view_step.
Qed.

(** A fold whose steps commute, as far as [view] can tell, does not see the
    order of the list. *)
Lemma fold_left_permutation l l' :
  Permutation l l' →
  ∀ s s', view s = view s' → view (fold_left f l s) = view (fold_left f l' s').
Proof.
  induction 1 as [|a l l' _ IH|a b l|l1 l2 l3 _ IH1 _ IH2]; intros s s' Hv; simpl.
  - done.
  - apply IH. by apply view_step.
  - apply fold_left_view. rewrite view_swap. by do 2 apply view_step.
  - rewrite (IH1 s s' Hv). by apply IH2.
Qed.

End FoldPermutation.

(** ** Facts about arrays *)

Module JsArrayFacts.

Import JsArray.
Local Open Scope Qc_scope.

Section Sort.

Context {A : Type} (cmp : A → A → Qc).

Lemma insert_perm x l : Permutation (insert cmp x l) (x :: l).
Proof.
  induction l as [|y l IH]; simpl; [done|].
  case_decide; [done|].
  rewrite IH. apply perm_swap.
Qed.

Lemma sort_perm l : Permutation (sort cmp l) l.
Proof.
  induction l as [|x l IH]; simpl; [done|].
  unfold sort in *. simpl. rewrite insert_perm. by constructor.
Qed.

(** The order that the comparator induces: [x] may stand before [y]. *)
Definition before (x y : A) : Prop := cmp x y <= 0.

Hypothesis cmp_total : ∀ x y, 0 < cmp x y → cmp y x <= 0.

Hypothesis cmp_trans : ∀ x y z, cmp x y <= 0 → cmp y z <= 0 → cmp x z <= 0.

Lemma insert_sorted x l :
  StronglySorted before l → StronglySorted before (insert cmp x l).
Proof.
  induction 1 as [|y l Hl IH Hy]; simpl.
  - repeat constructor.
  - case_decide as Hxy.
    + constructor; [by constructor|].
      constructor; [done|].
      eapply Forall_impl; [exact Hy|]. intros z Hz. by eapply cmp_trans.
    + constructor; [done|].
      rewrite insert_perm. constructor; [|done].
      apply cmp_total. by apply Qcnot_le_lt.
Qed.

Lemma sort_sorted l : StronglySorted before (sort cmp l).
Proof.
  induction l as [|x l IH]; [constructor|].
  unfold sort in *. simpl. by apply insert_sorted.
Qed.

End Sort.

Lemma slice0_nonneg {A} (e : Z) (l : list A) :
  (0 <= e)%Z → slice0 e l = take (Z.to_nat e) l.
Proof. intros He. unfold slice0. case_decide; [lia|done]. Qed.

Lemma slice0_neg {A} (e : Z) (l : list A) :
  (e < 0)%Z → slice0 e l = take (length l - Z.to_nat (- e)) l.
Proof.
  intros He. unfold slice0. case_decide; [|lia]. f_equal. lia.
Qed.

End JsArrayFacts.

(** ** Facts about objects *)

Module JsObjectFacts.

Import JsObject.

Section Dict.

Context {V : Type}.

Implicit Types (o : JsObject.t V) (k : string) (v : V).

Lemma eqb_refl k : String.eqb k k = true.
Proof. by apply String.eqb_eq. Qed.

Lemma eqb_ne k k' : k ≠ k' → String.eqb k k' = false.
Proof. by intros; apply String.eqb_neq. Qed.

Lemma get_set_eq k v o : get k (set k v o) = Some v.
Proof.
  induction o as [|[k' v'] o IH]; simpl.
  - by rewrite eqb_refl.
  - destruct (String.eqb k k') eqn:E; simpl; rewrite E; [done|exact IH].
Qed.

Lemma get_set_ne k k' v o : k ≠ k' → get k' (set k v o) = get k' o.
Proof.
  intros Hne. induction o as [|[k'' v''] o IH]; simpl.
  - rewrite eqb_ne; [done|congruence].
  - destruct (String.eqb k k'') eqn:E; simpl; [|by rewrite IH].
    apply String.eqb_eq in E as <-. rewrite eqb_ne; [done|congruence].
Qed.

Lemma get_set k k' v o :
  get k' (set k v o) = if decide (k = k') then Some v else get k' o.
Proof.
  case_decide as E; [subst; apply get_set_eq|by apply get_set_ne].
Qed.

Lemma set_set k v v' o : set k v (set k v' o) = set k v o.
Proof.
  induction o as [|[k'' v''] o IH]; simpl.
  - by rewrite eqb_refl.
  - destruct (String.eqb k k'') eqn:E; simpl; rewrite E; [done|by rewrite IH].
Qed.

Lemma lookup_to_map o k : to_map o !! k = get k o.
Proof.
  unfold to_map. induction o as [|[k' v'] o IH]; simpl; [done|].
  destruct (String.eqb k k') eqn:E.
  - apply String.eqb_eq in E as ->. by rewrite lookup_insert_eq.
  - apply String.eqb_neq in E. by rewrite lookup_insert_ne.
Qed.

Lemma to_map_set k v o : to_map (set k v o) = <[k := v]> (to_map o).
Proof.
  apply map_eq; intros k'. rewrite lookup_to_map, get_set, lookup_insert.
  case_decide; [done|]. by rewrite lookup_to_map.
Qed.

(** [update] after the creation of a missing property. *)
Lemma update_spec k (f : V → V) (fresh : V) o :
  update k f (match get k o with Some _ => o | None => set k fresh o end)
  = set k (f (default fresh (get k o))) o.
Proof.
  unfold update. destruct (get k o) as [v|] eqn:E; simpl.
  - by rewrite E.
  - by rewrite get_set_eq, set_set.
Qed.

Lemma Forall_set (P : V → Prop) k v o :
  Forall (λ p, P p.2) o → P v → Forall (λ p, P p.2) (set k v o).
Proof.
  intros Ho Hv. induction Ho as [|[k' v'] o Hp Ho IH]; simpl.
  - by repeat constructor.
  - destruct (String.eqb k k'); constructor; simpl; auto.
Qed.

Lemma get_Forall (P : V → Prop) k v o :
  Forall (λ p, P p.2) o → get k o = Some v → P v.
Proof.
  induction 1 as [|[k' v'] o Hp Ho IH]; simpl; [done|].
  destruct (String.eqb k k'); [by intros [= <-]|done].
Qed.

Lemma entries_perm o : Permutation (entries o) o.
Proof.
  unfold entries. rewrite JsArrayFacts.sort_perm.
  apply filter_app_complement.
Qed.

Lemma values_perm o : Permutation (values o) o.*2.
Proof. unfold values. by rewrite entries_perm. Qed.

End Dict.

End JsObjectFacts.

(** ** Rounding to the nearest double *)

Module DoubleFacts.

Import Double.

Local Open Scope Q_scope.

Lemma two_neq_0 : ¬ 2 == 0.
Proof. discriminate. Qed.

Lemma pow2_pos e : 0 < pow2 e.
Proof. by apply Qpower_0_lt. Qed.

Lemma pow2_add a b : pow2 (a + b) == pow2 a * pow2 b.
Proof. apply Qpower_plus, two_neq_0. Qed.

Lemma pow2_le a b : (a ≤ b)%Z → pow2 a <= pow2 b.
Proof. intros H. by apply Qpower_le_compat_l. Qed.

Lemma pow2_lt a b : (a < b)%Z → pow2 a < pow2 b.
Proof. intros H. by apply Qpower_lt_compat_l. Qed.

Lemma pow2_Z e : (0 ≤ e)%Z → pow2 e == inject_Z (2 ^ e).
Proof. intros H. unfold pow2. by rewrite Zpower_Qpower. Qed.

Lemma pow2_succ e : pow2 (e + 1) == 2 * pow2 e.
Proof. rewrite pow2_add. change (pow2 1) with 2. ring. Qed.

Lemma log2_bounds (n : Z) :
  (0 < n)%Z → pow2 (Z.log2 n) <= inject_Z n ∧ inject_Z n < pow2 (Z.log2 n + 1).
Proof.
  intros Hn. destruct (Z.log2_spec n Hn) as [H1 H2].
  pose proof (Z.log2_nonneg n) as H0.
  rewrite !pow2_Z by lia. rewrite <- Zle_Qle, <- Zlt_Qlt.
  split; [done|]. by rewrite <- Z.add_1_r in H2.
Qed.

Lemma exponent_spec q :
  0 < q → pow2 (exponent q) <= q ∧ q < pow2 (exponent q + 1).
Proof.
  intros Hq. destruct q as [n d]. unfold exponent. cbn [Qnum Qden].
  assert (0 < n)%Z as Hn by (unfold Qlt in Hq; simpl in Hq; lia).
  destruct (log2_bounds n Hn) as [Hn1 Hn2].
  destruct (log2_bounds (Z.pos d) eq_refl) as [Hd1 Hd2].
  set (ln := Z.log2 n) in *. set (ld := Z.log2 (Z.pos d)) in *.
  assert ((n # d) * inject_Z (Z.pos d) == inject_Z n) as Hq'.
  { rewrite (Qmake_Qdiv n d). field. discriminate. }
  set (q := n # d) in *. clearbody q.
  set (D := inject_Z (Z.pos d)) in *. set (N := inject_Z n) in *.
  assert (0 < D) as HD by (pose proof (pow2_pos ld); lra).
  destruct (Qle_bool (pow2 (ln - ld)) q) eqn:E.
  - apply Qle_bool_iff in E. split; [done|].
    assert (pow2 (ln + 1) == pow2 (ln - ld + 1) * pow2 ld) as Hs.
    { rewrite <- pow2_add. by replace (ln - ld + 1 + ld)%Z with (ln + 1)%Z by lia. }
    pose proof (pow2_pos (ln - ld + 1)) as HA. pose proof (pow2_pos ld) as HB.
    set (A := pow2 (ln - ld + 1)) in *. set (B := pow2 ld) in *.
    apply Qnot_le_lt. intros Hc.
    assert (A * B <= q * D) as Hm by (apply Qmult_le_compat_nonneg; lra).
    lra.
  - assert (q < pow2 (ln - ld)) as E'.
    { apply Qnot_le_lt. intros Hc. apply Qle_bool_iff in Hc. congruence. }
    replace (ln - ld - 1 + 1)%Z with (ln - ld)%Z by lia. split; [|done].
    assert (pow2 ln == pow2 (ln - ld - 1) * pow2 (ld + 1)) as Hs.
    { rewrite <- pow2_add. by replace (ln - ld - 1 + (ld + 1))%Z with ln by lia. }
    pose proof (pow2_pos (ln - ld - 1)) as HA.
    set (A := pow2 (ln - ld - 1)) in *. set (B := pow2 (ld + 1)) in *.
    apply Qnot_lt_le. intros Hc.
    assert (q * D < A * B) as Hm by (apply Qmult_lt_compat_nonneg; lra).
    lra.
Qed.

Lemma exponent_le x e :
  0 < x → x < pow2 (e + 1) → (exponent x ≤ e)%Z.
Proof.
  intros Hx H. destruct (exponent_spec x Hx) as [H1 _].
  destruct (Z_le_gt_dec (exponent x) e) as [|Hgt]; [done|].
  pose proof (pow2_le (e + 1) (exponent x)). lapply H0; [|lia]. lra.
Qed.

Lemma exponent_ge x e : 0 < x → pow2 e <= x → (e ≤ exponent x)%Z.
Proof.
  intros Hx H. destruct (exponent_spec x Hx) as [_ H2].
  destruct (Z_le_gt_dec e (exponent x)) as [|Hgt]; [done|].
  pose proof (pow2_le (exponent x + 1) e). lapply H0; [|lia]. lra.
Qed.

Lemma exponent_unique x e :
  pow2 e <= x → x < pow2 (e + 1) → exponent x = e.
Proof.
  intros H1 H2. pose proof (pow2_pos e).
  assert (0 < x) as Hx by lra.
  pose proof (exponent_le x e Hx H2). pose proof (exponent_ge x e Hx H1). lia.
Qed.

Lemma exponent_mono x y : 0 < x → x <= y → (exponent x ≤ exponent y)%Z.
Proof.
  intros Hx Hxy. assert (0 < y) as Hy by lra.
  destruct (exponent_spec y Hy) as [_ H2].
  apply (exponent_le x); [done|lra].
Qed.

Lemma exponent_comp x y : 0 < x → x == y → exponent x = exponent y.
Proof.
  intros Hx Hxy. assert (0 < y) as Hy by lra.
  assert (x <= y) as H1 by lra. assert (y <= x) as H2 by lra.
  pose proof (exponent_mono x y Hx H1). pose proof (exponent_mono y x Hy H2).
  lia.
Qed.

(** *** Rounding to the nearest integer *)

Lemma round_cases q :
  let n := Qfloor q in
  inject_Z n <= q ∧ q < inject_Z n + 1
  ∧ ((q - inject_Z n < 1 # 2 ∧ round_half_even q = n)
     ∨ (q - inject_Z n == 1 # 2
        ∧ round_half_even q = if Z.even n then n else (n + 1)%Z)
     ∨ (1 # 2 < q - inject_Z n ∧ round_half_even q = (n + 1)%Z)).
Proof.
  intros n. pose proof (Qfloor_le q) as H1. pose proof (Qlt_floor q) as H2.
  rewrite inject_Z_plus in H2. change (inject_Z 1) with 1 in H2.
  split; [done|]. split; [done|]. unfold round_half_even. fold n.
  destruct (Qcompare_spec (q - inject_Z n) (1 # 2)); auto.
Qed.

Lemma round_near q :
  inject_Z (round_half_even q) - (1 # 2) <= q
  ∧ q <= inject_Z (round_half_even q) + (1 # 2).
Proof.
  destruct (round_cases q) as (H1 & H2 & [[H ->]|[[H ->]|[H ->]]]).
  - lra.
  - destruct (Z.even _); rewrite ?inject_Z_plus; change (inject_Z 1) with 1; lra.
  - rewrite inject_Z_plus. change (inject_Z 1) with 1. lra.
Qed.

Lemma round_mono x y : x <= y → (round_half_even x ≤ round_half_even y)%Z.
Proof.
  intros Hxy. pose proof (Qfloor_resp_le x y Hxy) as Hf.
  destruct (round_cases x) as (Hx1 & Hx2 & Hx).
  destruct (round_cases y) as (Hy1 & Hy2 & Hy).
  destruct (decide (Qfloor x = Qfloor y)) as [E|E].
  - rewrite E in *.
    destruct Hx as [[Hx ->]|[[Hx ->]|[Hx ->]]];
      destruct Hy as [[Hy ->]|[[Hy ->]|[Hy ->]]];
      try destruct (Z.even _); try lia; exfalso; lra.
  - assert (Qfloor x + 1 ≤ Qfloor y)%Z as Hlt by lia.
    assert (round_half_even x ≤ Qfloor x + 1)%Z.
    { destruct Hx as [[Hx ->]|[[Hx ->]|[Hx ->]]];
        try destruct (Z.even (Qfloor x)); lia. }
    assert (Qfloor y ≤ round_half_even y)%Z.
    { destruct Hy as [[Hy ->]|[[Hy ->]|[Hy ->]]];
        try destruct (Z.even (Qfloor y)); lia. }
    lia.
Qed.

Lemma round_comp x y : x == y → round_half_even x = round_half_even y.
Proof.
  intros H. assert (x <= y) as H1 by lra. assert (y <= x) as H2 by lra.
  pose proof (round_mono x y H1). pose proof (round_mono y x H2). lia.
Qed.

Lemma round_Z n : round_half_even (inject_Z n) = n.
Proof.
  unfold round_half_even. rewrite Qfloor_Z.
  destruct (Qcompare_spec (inject_Z n - inject_Z n) (1 # 2)) as [H|H|H];
    [exfalso; lra|done|exfalso; lra].
Qed.

(** *** The nearest double of a positive rational *)

Section Nearest.

Variable q : Q.

Hypothesis Hq : 0 < q.

Let e := exponent q.

Let ulp := pow2 (e - 52).

Lemma ulp_pos : 0 < ulp.
Proof. apply pow2_pos. Qed.

Lemma ulp_low : pow2 52 * ulp == pow2 e.
Proof.
  unfold ulp. rewrite <- pow2_add. by replace (52 + (e - 52))%Z with e by lia.
Qed.

Lemma ulp_high : pow2 53 * ulp == pow2 (e + 1).
Proof.
  unfold ulp. rewrite <- pow2_add.
  by replace (53 + (e - 52))%Z with (e + 1)%Z by lia.
Qed.

Lemma ulp_half : ulp == 2 * pow2 (e - 53).
Proof.
  unfold ulp. rewrite <- pow2_succ. by replace (e - 53 + 1)%Z with (e - 52)%Z by lia.
Qed.

Lemma scaled : q / ulp * ulp == q.
Proof. pose proof ulp_pos. field. lra. Qed.

Lemma scaled_bounds : pow2 52 <= q / ulp ∧ q / ulp < pow2 53.
Proof.
  pose proof ulp_pos. destruct (exponent_spec q Hq) as [H1 H2]. fold e in H1, H2.
  split.
  - apply Qle_shift_div_l; [done|]. by rewrite ulp_low.
  - apply Qlt_shift_div_r; [done|]. by rewrite ulp_high.
Qed.

Lemma nearest_eq : nearest q = inject_Z (round_half_even (q / ulp)) * ulp.
Proof. reflexivity. Qed.

(** The result is within half a unit in the last place. *)
Lemma nearest_error :
  q - pow2 (e - 53) <= nearest q ∧ nearest q <= q + pow2 (e - 53).
Proof.
  rewrite nearest_eq. pose proof ulp_pos as Hu. pose proof scaled as Hs.
  pose proof ulp_half as Hh.
  destruct (round_near (q / ulp)) as [H1 H2].
  set (m := q / ulp) in *. set (r := inject_Z (round_half_even m)) in *.
  assert ((r - (1 # 2)) * ulp <= m * ulp) by (apply Qmult_le_compat_r; lra).
  assert (m * ulp <= (r + (1 # 2)) * ulp) by (apply Qmult_le_compat_r; lra).
  split; lra.
Qed.

(** It stays in the binade of [q]. *)
Lemma nearest_binade : pow2 e <= nearest q ∧ nearest q <= pow2 (e + 1).
Proof.
  rewrite nearest_eq. pose proof ulp_pos as Hu.
  destruct scaled_bounds as [H1 H2].
  rewrite <- ulp_low, <- ulp_high. rewrite !pow2_Z in * by lia.
  split; (apply Qmult_le_compat_r; [|lra]).
  - rewrite <- Zle_Qle, <- (round_Z (2 ^ 52)). by apply round_mono.
  - rewrite <- Zle_Qle, <- (round_Z (2 ^ 53)). apply round_mono. lra.
Qed.

Lemma nearest_pos : 0 < nearest q.
Proof. pose proof (pow2_pos e). destruct nearest_binade. lra. Qed.

(** The relative error is at most [2 ^ -53]. *)
Lemma nearest_relative :
  q - q * pow2 (-53) <= nearest q ∧ nearest q <= q + q * pow2 (-53).
Proof.
  destruct nearest_error as [H1 H2].
  destruct (exponent_spec q Hq) as [H3 _]. fold e in H3.
  assert (pow2 (e - 53) == pow2 e * pow2 (-53)) as Hs.
  { rewrite <- pow2_add. by replace (e + -53)%Z with (e - 53)%Z by lia. }
  pose proof (pow2_pos (-53)).
  assert (pow2 e * pow2 (-53) <= q * pow2 (-53))
    by (apply Qmult_le_compat_r; lra).
  split; lra.
Qed.

End Nearest.

Lemma nearest_mono x y : 0 < x → x <= y → nearest x <= nearest y.
Proof.
  intros Hx Hxy. assert (0 < y) as Hy by lra.
  pose proof (exponent_mono x y Hx Hxy) as He.
  destruct (decide (exponent x = exponent y)) as [E|E].
  - rewrite !nearest_eq, E. pose proof (ulp_pos y) as Hu.
    apply Qmult_le_compat_r; [|lra]. rewrite <- Zle_Qle. apply round_mono.
    apply Qmult_le_compat_r; [done|]. apply Qlt_le_weak, Qinv_lt_0_compat, Hu.
  - destruct (nearest_binade x Hx) as [_ H1].
    destruct (nearest_binade y Hy) as [H2 _].
    pose proof (pow2_le (exponent x + 1) (exponent y)) as H. lapply H; [|lia].
    lra.
Qed.

Lemma nearest_comp x y : 0 < x → x == y → nearest x == nearest y.
Proof.
  intros Hx Hxy. assert (0 < y) as Hy by lra.
  assert (x <= y) as H1 by lra. assert (y <= x) as H2 by lra.
  pose proof (nearest_mono x y Hx H1). pose proof (nearest_mono y x Hy H2).
  lra.
Qed.

(** A positive integer below [2 ^ 53] is a double. *)
Lemma nearest_Z n : (0 < n < 2 ^ 53)%Z → nearest (inject_Z n) == inject_Z n.
Proof.
  intros [Hn Hn']. destruct (log2_bounds n Hn) as [H1 H2].
  assert (Z.log2 n < 53)%Z as Hl by (by apply Z.log2_lt_pow2).
  pose proof (Z.log2_nonneg n) as Hl'.
  rewrite nearest_eq, (exponent_unique _ _ H1 H2).
  set (k := (52 - Z.log2 n)%Z).
  assert (pow2 (Z.log2 n - 52) * pow2 k == 1) as Hk.
  { rewrite <- pow2_add. by replace (Z.log2 n - 52 + k)%Z with 0%Z by lia. }
  pose proof (pow2_pos (Z.log2 n - 52)) as Hu.
  assert (inject_Z n / pow2 (Z.log2 n - 52) == inject_Z (n * 2 ^ k)) as Hm.
  { rewrite inject_Z_mult, <- pow2_Z by lia.
    apply Qmult_inj_r with (pow2 (Z.log2 n - 52)); [lra|].
    rewrite <- Qmult_assoc, (Qmult_comm (pow2 k)), Hk. field. lra. }
  rewrite (round_comp _ _ Hm), round_Z, <- Hm. field. lra.
Qed.

End DoubleFacts.

(** ** Facts about rounding *)

Module JsNumFacts.

Import Double DoubleFacts JsNum.
Local Open Scope Qc_scope.

(** *** The arithmetic of doubles *)

Lemma this_opp (x : Qc) : (this (- x) == - this x)%Q.
Proof. apply Qred_correct. Qed.

Lemma this_plus (x y : Qc) : (this (x + y) == this x + this y)%Q.
Proof. unfold Qcplus, Q2Qc, this at 1. by rewrite Qred_correct. Qed.

Lemma this_minus (x y : Qc) : (this (x - y) == this x - this y)%Q.
Proof.
  unfold Qcminus, Qcplus, Q2Qc, this at 1. by rewrite Qred_correct, this_opp.
Qed.

Lemma this_mult (x y : Qc) : (this (x * y) == this x * this y)%Q.
Proof. unfold Qcmult, Q2Qc, this at 1. by rewrite Qred_correct. Qed.

Lemma this_of_Z n : (this (of_Z n) == inject_Z n)%Q.
Proof. apply Qred_correct. Qed.

(** Order on [Qc] is order on the fractions. *)
Ltac qc_order :=
  unfold Qclt, Qcle in *; change (this (Q2Qc 0)) with 0%Q in *;
  rewrite ?this_opp, ?this_minus, ?this_plus in *.

Lemma Qc_zero (x : Qc) : x <= 0 → 0 <= x → x = 0.
Proof. intros. by apply Qcle_antisym. Qed.

Lemma fl_0 : fl 0 = 0.
Proof. done. Qed.

Lemma fl_pos_eq (x : Qc) : 0 < x → (this (fl x) == nearest x)%Q.
Proof.
  intros H. unfold fl. rewrite decide_True by done. apply Qred_correct.
Qed.

Lemma fl_neg_eq (x : Qc) : x < 0 → (this (fl x) == - nearest (- x))%Q.
Proof.
  intros H. unfold fl.
  destruct (decide (0 < x)) as [H0|_]; [exfalso; qc_order; lra|].
  rewrite decide_True by done.
  rewrite this_opp. apply Qopp_comp, Qred_correct.
Qed.

(** Rounding commutes with the change of sign. *)
Lemma fl_opp x : fl (- x) = - fl x.
Proof.
  apply Qc_is_canon. rewrite this_opp.
  destruct (Qclt_le_dec 0 x) as [H|H].
  - assert (- x < 0) as H' by (qc_order; lra).
    rewrite (fl_pos_eq x H), (fl_neg_eq _ H').
    apply Qopp_comp, nearest_comp; qc_order; lra.
  - destruct (Qclt_le_dec x 0) as [H'|H'].
    + assert (0 < - x) as H'' by (qc_order; lra).
      rewrite (fl_neg_eq x H'), (fl_pos_eq _ H''), Qopp_involutive.
      apply nearest_comp; qc_order; lra.
    + by rewrite (Qc_zero x H H').
Qed.

Lemma fl_pos x : 0 < x → 0 < fl x.
Proof.
  intros H. unfold Qclt. rewrite (fl_pos_eq x H). by apply nearest_pos.
Qed.

Lemma fl_neg x : x < 0 → fl x < 0.
Proof.
  intros H. rewrite <- (Qcopp_involutive x), fl_opp.
  assert (0 < - x) as H' by (qc_order; lra).
  pose proof (fl_pos _ H'). qc_order. lra.
Qed.

Lemma fl_nonneg x : 0 <= x → 0 <= fl x.
Proof.
  intros H. destruct (Qclt_le_dec 0 x) as [H'|H'].
  - by apply Qclt_le_weak, fl_pos.
  - by rewrite (Qc_zero x H' H).
Qed.

Lemma fl_nonpos x : x <= 0 → fl x <= 0.
Proof.
  intros H. destruct (Qclt_le_dec x 0) as [H'|H'].
  - by apply Qclt_le_weak, fl_neg.
  - by rewrite (Qc_zero x H H').
Qed.

(** Rounding keeps the sign. *)
Lemma fl_le_0 x : fl x <= 0 ↔ x <= 0.
Proof.
  split; [|apply fl_nonpos]. intros H.
  destruct (Qclt_le_dec 0 x) as [H'|H']; [|done].
  pose proof (fl_pos x H'). qc_order. lra.
Qed.

Lemma fl_gt_0 x : 0 < fl x ↔ 0 < x.
Proof.
  split; [|apply fl_pos]. intros H.
  destruct (Qclt_le_dec 0 x) as [H'|H']; [done|].
  pose proof (fl_nonpos x H'). qc_order. lra.
Qed.

(** Rounding keeps the order. *)
Lemma fl_mono x y : x <= y → fl x <= fl y.
Proof.
  intros Hxy.
  destruct (Qclt_le_dec 0 x) as [Hx|Hx].
  - assert (0 < y) as Hy by (by apply Qclt_le_trans with x).
    unfold Qcle. rewrite (fl_pos_eq x Hx), (fl_pos_eq y Hy).
    by apply nearest_mono.
  - destruct (Qclt_le_dec y 0) as [Hy|Hy].
    + assert (x < 0) as Hx' by (by apply Qcle_lt_trans with y).
      unfold Qcle. rewrite (fl_neg_eq x Hx'), (fl_neg_eq y Hy).
      apply Qopp_le_compat, nearest_mono; qc_order; lra.
    + apply Qcle_trans with 0; [by apply fl_nonpos|by apply fl_nonneg].
Qed.

(** An integer of magnitude below [2 ^ 53] is a double. *)
Lemma fl_of_Z n : (- 2 ^ 53 < n < 2 ^ 53)%Z → fl (of_Z n) = of_Z n.
Proof.
  assert (∀ n, (0 < n < 2 ^ 53)%Z → fl (of_Z n) = of_Z n) as Hpos.
  { clear n. intros n Hn. apply Qc_is_canon.
    assert (0 < this (of_Z n))%Q as Hp
      by (rewrite this_of_Z; change 0%Q with (inject_Z 0);
          rewrite <- Zlt_Qlt; lia).
    rewrite (fl_pos_eq _ Hp), (nearest_comp _ _ Hp (this_of_Z n)), this_of_Z.
    by apply nearest_Z. }
  intros Hn. destruct (Z.lt_trichotomy n 0) as [H|[->|H]]; [| done |].
  - assert (of_Z n = - of_Z (- n)) as ->.
    { apply Qc_is_canon. rewrite this_opp, !this_of_Z, inject_Z_opp. ring. }
    rewrite fl_opp, Hpos by lia. done.
  - apply Hpos. lia.
Qed.

(** The relative error of one rounding is at most [epsilon]. *)
Lemma fl_close x :
  0 <= x → x - x * epsilon <= fl x ∧ fl x <= x + x * epsilon.
Proof.
  intros H. destruct (Qclt_le_dec 0 x) as [Hx|Hx].
  - assert (this epsilon == pow2 (-53))%Q as He by apply Qred_correct.
    destruct (nearest_relative x Hx) as [H1 H2].
    pose proof (fl_pos_eq x Hx) as Hf.
    unfold Qcle. rewrite this_minus, this_plus, this_mult, Hf, He. split; lra.
  - rewrite (Qc_zero x Hx H), fl_0. split; by compute.
Qed.

Lemma epsilon_pos : 0 < epsilon.
Proof. by compute. Qed.

(** Doubles as JavaScript computes them: [0.1 + 0.2] is
    0.30000000000000004, [2 ^ 53 + 1] and [2 ^ 53 + 3] go to the even
    neighbours, a third has 53 bits. *)
Example doubles_of_JavaScript :
  add (parseDecimal (1 # 10)) (parseDecimal (2 # 10))
  = Q2Qc (1351079888211149 # 4503599627370496)
  ∧ fl (Q2Qc (9007199254740993 # 1)) = Q2Qc (9007199254740992 # 1)
  ∧ fl (Q2Qc (9007199254740995 # 1)) = Q2Qc (9007199254740996 # 1)
  ∧ quot 1 (Q2Qc 3) = Q2Qc (6004799503160661 # 18014398509481984)
  ∧ mul (parseDecimal (11 # 10)) (parseDecimal (11 # 10))
    = Q2Qc (5449355549118301 # 4503599627370496).
Proof. repeat split; compute_done. Qed.

(** *** Printing with two decimals *)

(** [(0.125).toFixed(2)] is ["0.13"], the larger of two neighbours at the
    same distance, with either sign; [(1.005).toFixed(2)] is ["1.00"], the
    double lying below the decimal. *)
Example toFixed_of_JavaScript :
  toFixed2 (Q2Qc (1 # 8)) = Q2Qc (13 # 100)
  ∧ toFixed2 (Q2Qc (-1 # 8)) = Q2Qc (-13 # 100)
  ∧ toFixed2 (parseDecimal (1005 # 1000)) = 1.
Proof. repeat split; compute_done. Qed.

Lemma nearest_cent_mono (x y : Q) :
  (x <= y)%Q → nearest_cent x <= nearest_cent y.
Proof.
  intros H. unfold nearest_cent, Qcle. simpl. rewrite !Qred_correct.
  apply Qmult_le_compat_r; [|done].
  rewrite <- Zle_Qle. apply Qfloor_resp_le.
  apply Qplus_le_l.
  apply Qmult_le_compat_r; [exact H|done].
Qed.

Lemma nearest_cent_nonneg (x : Q) : (0 <= x)%Q → 0 <= nearest_cent x.
Proof.
  intros H. unfold nearest_cent, Qcle. simpl. rewrite !Qred_correct.
  apply Qle_shift_div_l; [done|]. rewrite Qmult_0_l.
  change 0%Q with (inject_Z 0). rewrite <- Zle_Qle.
  change 0%Z with (Qfloor 0). apply Qfloor_resp_le.
  apply Qle_trans with (x * 100)%Q.
  - apply Qmult_le_0_compat; [exact H|done].
  - rewrite <- (Qplus_0_r (x * 100)) at 1. apply Qplus_le_r. done.
Qed.

(** Rounding keeps the order of two amounts. *)
Lemma toFixed2_mono x y : x <= y → toFixed2 x <= toFixed2 y.
Proof.
  intros H. unfold toFixed2.
  destruct (decide (x < 0)) as [Hx|Hx], (decide (y < 0)) as [Hy|Hy].
  - apply Qcopp_le_compat. apply nearest_cent_mono.
    by apply Qopp_le_compat.
  - apply Qcle_trans with 0.
    + rewrite <- (Qcopp_involutive 0). apply Qcopp_le_compat.
      apply nearest_cent_nonneg.
      apply (Qopp_le_compat x 0). exact (Qlt_le_weak _ _ Hx).
    + apply nearest_cent_nonneg. exact (Qcnot_lt_le _ _ Hy).
  - exfalso. apply Hx. eapply Qcle_lt_trans; eauto.
  - apply nearest_cent_mono. exact H.
Qed.

Lemma nearest_cent_bounds (q : Q) :
  (q - (1 # 200) < nearest_cent q)%Q ∧ (nearest_cent q <= q + (1 # 200))%Q.
Proof.
  unfold nearest_cent. simpl. rewrite !Qred_correct. unfold round_half_up.
  pose proof (Qfloor_le (q * 100 + (1 # 2))) as Hle.
  pose proof (Qlt_floor (q * 100 + (1 # 2))) as Hlt.
  rewrite inject_Z_plus in Hlt.
  set (n := inject_Z (Qfloor (q * 100 + (1 # 2)))) in *.
  change (inject_Z 1) with 1%Q in Hlt.
  split.
  - apply Qlt_shift_div_l; [done|]. lra.
  - apply Qle_shift_div_r; [done|]. lra.
Qed.

(** Rounding to two places moves a number by half a cent at most. *)
Lemma toFixed2_close (x : Qc) :
  (x - (1 # 200) <= toFixed2 x)%Q ∧ (toFixed2 x <= x + (1 # 200))%Q.
Proof.
  unfold toFixed2. case_decide.
  - destruct (nearest_cent_bounds (- x)) as [H1 H2].
    set (n := nearest_cent (- x)) in *.
    unfold Qcopp. cbn [this Q2Qc]. rewrite Qred_correct. split; lra.
  - destruct (nearest_cent_bounds x) as [H1 H2]. split; lra.
Qed.

Lemma div_pos x (n : nat) :
  (0 < n)%nat → div x (of_nat n) = Some (quot x (of_nat n)).
Proof.
  intros Hn. unfold div. case_decide as E; [|done].
  exfalso. apply (f_equal this) in E. unfold of_nat, of_Z in E.
  cbn [this Q2Qc] in E.
  assert (inject_Z (Z.of_nat n) == 0)%Q as H0
    by (rewrite <- (Qred_correct (inject_Z _)), E; reflexivity).
  unfold Qeq in H0. simpl in H0. lia.
Qed.

(** *** Running sums *)

(** The total that a loop reaches from [a] by adding the amounts of [l] to
    it, one after the other, every addition rounded to a double. *)
Definition sum_from (a : Qc) (l : list Qc) : Qc := fold_left add l a.

(** The sum of a list of amounts, as a loop that starts from [0] adds them
    up. *)
Definition sum (l : list Qc) : Qc := sum_from 0 l.

Lemma sum_from_snoc a l x : sum_from a (l ++ [x]) = add (sum_from a l) x.
Proof. unfold sum_from. by rewrite fold_left_app. Qed.

Lemma sum_snoc l x : sum (l ++ [x]) = add (sum l) x.
Proof. apply sum_from_snoc. Qed.

Lemma sum_singleton x : sum [x] = add 0 x.
Proof. done. Qed.

(** *** Quotients and percentages *)

Lemma this_div (x y : Qc) : (this (x / y) == this x / this y)%Q.
Proof.
  unfold Qcdiv. rewrite this_mult. unfold Qcinv. cbn [this Q2Qc].
  by rewrite Qred_correct.
Qed.

Lemma of_nat_pos (n : nat) : (0 < n)%nat → 0 < of_nat n.
Proof.
  intros H. unfold of_nat, Qclt. rewrite this_of_Z.
  change (this (Q2Qc 0)) with (inject_Z 0). rewrite <- Zlt_Qlt. lia.
Qed.

Lemma div_nonneg (x y : Qc) : 0 <= x → 0 < y → 0 <= x / y.
Proof.
  intros Hx Hy. unfold Qcle. rewrite this_div.
  change (this (Q2Qc 0)) with 0%Q. qc_order.
  apply Qle_shift_div_l; [done|]. lra.
Qed.

(** The quotient of two doubles is within one rounding of the quotient of
    the numbers. *)
Lemma quot_close (x y : Qc) :
  0 <= x → 0 < y →
  x / y - x / y * epsilon <= quot x y ∧ quot x y <= x / y + x / y * epsilon.
Proof. intros Hx Hy. by apply fl_close, div_nonneg. Qed.

(** [c] out of [b] as an exact percentage. *)
Definition percentage (c b : Z) : Q := (inject_Z c / inject_Z b * 100)%Q.

(** The percentage as the doubles give it: the quotient is rounded, and
    its product with 100 is rounded again. *)
Lemma percentage_close (c b : Z) :
  (0 ≤ c)%Z → (0 < b)%Z →
  (percentage c b - 4 * epsilon * percentage c b
     <= mul (quot (of_Z c) (of_Z b)) (Q2Qc 100))%Q
  ∧ (mul (quot (of_Z c) (of_Z b)) (Q2Qc 100)
       <= percentage c b + 4 * epsilon * percentage c b)%Q.
Proof.
  intros Hc Hb.
  assert (0 <= of_Z c) as Hc'.
  { unfold Qcle. rewrite this_of_Z. change (this (Q2Qc 0)) with (inject_Z 0).
    rewrite <- Zle_Qle. lia. }
  assert (0 < of_Z b) as Hb'.
  { unfold Qclt. rewrite this_of_Z. change (this (Q2Qc 0)) with (inject_Z 0).
    rewrite <- Zlt_Qlt. lia. }
  pose proof (div_nonneg _ _ Hc' Hb') as Hx.
  destruct (fl_close _ Hx) as [H1 H2]. fold (quot (of_Z c) (of_Z b)) in H1, H2.
  pose proof (fl_nonneg _ Hx) as Hq. fold (quot (of_Z c) (of_Z b)) in Hq.
  set (q1 := quot (of_Z c) (of_Z b)) in *.
  assert (0 <= q1 * Q2Qc 100) as Hy.
  { unfold Qcle in *. rewrite this_mult. change (this (Q2Qc 0)) with 0%Q in *.
    change (this (Q2Qc 100)) with 100%Q. lra. }
  destruct (fl_close _ Hy) as [H3 H4]. fold (mul q1 (Q2Qc 100)) in H3, H4.
  set (q2 := mul q1 (Q2Qc 100)) in *.
  unfold Qcle in *. rewrite ?this_minus, ?this_plus, ?this_mult, ?this_div,
    ?this_of_Z in *.
  change (this (Q2Qc 0)) with 0%Q in *. change (this (Q2Qc 100)) with 100%Q in *.
  unfold percentage.
  set (X := (inject_Z c / inject_Z b)%Q) in *.
  pose proof epsilon_pos as He. unfold Qclt in He.
  change (this (Q2Qc 0)) with 0%Q in He.
  assert (this epsilon <= 1)%Q as He1 by (by compute).
  set (E := this epsilon) in *.
  assert (0 <= X * E)%Q as F1 by (apply Qmult_le_0_compat; lra).
  assert (this q1 * E <= (X + X * E) * E)%Q as F2
    by (apply Qmult_le_compat_r; lra).
  assert (E * (X * E) <= 1 * (X * E))%Q as F3
    by (apply Qmult_le_compat_r; lra).
  split; lra.
Qed.

End JsNumFacts.

(** ** The sales summary *)

Module SummaryFacts.

Import Mcp Shopify JsObject JsObjectFacts JsNumFacts.
Local Open Scope Qc_scope.

#[global] Instance Money_eq_dec : EqDecision Money.
Proof. solve_decision. Defined.
#[global] Instance Product_eq_dec : EqDecision Product.
Proof. solve_decision. Defined.
#[global] Instance LineItem_eq_dec : EqDecision LineItem.
Proof. solve_decision. Defined.
#[global] Instance Order_eq_dec : EqDecision Order.
Proof. solve_decision. Defined.
#[global] Instance Summary_eq_dec : EqDecision Summary.
Proof. solve_decision. Defined.
#[global] Instance ErrorCode_eq_dec : EqDecision ErrorCode.
Proof. solve_decision. Defined.
#[global] Instance McpError_eq_dec : EqDecision McpError.
Proof. solve_decision. Defined.
#[global] Instance Document_eq_dec : EqDecision Document.
Proof. solve_decision. Defined.
#[global] Instance Request_eq_dec : EqDecision Request.
Proof. solve_decision. Defined.

(** An order that carries a price only. *)
Definition priced (t : Z) (x : Qc) (c : string) : Order :=
  {| createdAt := t;
     totalPriceSet := {| amount := x; currencyCode := c |};
     totalDiscountsSet := {| amount := 0; currencyCode := c |};
     totalShippingPriceSet := {| amount := 0; currencyCode := c |};
     totalTaxSet := {| amount := 0; currencyCode := c |};
     lineItems := [] |}.

(** The guarded creation and the increment are one assignment. *)
Lemma add_to_spec k x (o : JsObject.t Qc) :
  add_to k x o = set k (JsNum.add (default 0 (get k o)) x) o.
Proof.
  unfold add_to, update. destruct (get k o) as [v|] eqn:E; simpl.
  - unfold JsNum.falsy. case_bool_decide as Hv.
    + by rewrite get_set_eq, set_set, Hv.
    + by rewrite E.
  - by rewrite get_set_eq, set_set.
Qed.

Lemma to_map_add_to k x (o : JsObject.t Qc) :
  to_map (add_to k x o)
  = <[k := JsNum.add (default 0 (to_map o !! k)) x]> (to_map o).
Proof. by rewrite add_to_spec, to_map_set, lookup_to_map. Qed.

(** The keys of an object. *)
Definition keys {V} (o : JsObject.t V) : gset string := dom (to_map o).

Lemma keys_add_to k x (o : JsObject.t Qc) : keys (add_to k x o) = {[ k ]} ∪ keys o.
Proof. unfold keys. by rewrite to_map_add_to, dom_insert_L. Qed.

(** What a permutation of the orders leaves as it is in a summary: the
    count of the orders and the keys of the two dictionaries.  The amounts
    are running sums of doubles, which do follow the order of the
    additions. *)
Definition summary_view (s : Summary) :=
  (totalOrders s, keys (salesByCurrency s), keys (salesByStatus s)).

Lemma summary_step_view s s' a :
  summary_view s = summary_view s' →
  summary_view (summary_step s a) = summary_view (summary_step s' a).
Proof.
  unfold summary_view. intros [= H1 Hc Hs]. simpl.
  rewrite !keys_add_to, Hc, Hs. congruence.
Qed.

Lemma summary_step_swap s a b :
  summary_view (summary_step (summary_step s a) b)
  = summary_view (summary_step (summary_step s b) a).
Proof.
  unfold summary_view. simpl. rewrite !keys_add_to.
  f_equal; try f_equal; set_solver.
Qed.

Lemma summary_accumulate_perm os os' :
  Permutation os os' →
  summary_view (summary_accumulate os) = summary_view (summary_accumulate os').
Proof.
  intros Hp. unfold summary_accumulate.
  apply (fold_left_permutation summary_view summary_step
           summary_step_view summary_step_swap _ _ Hp).
  unfold summary_init, summary_view. simpl. by rewrite (Permutation_length Hp).
Qed.

(** The prices of a list of orders. *)
Definition prices (os : list Order) : list Qc :=
  (λ o, amount (totalPriceSet o)) <$> os.

(** Sum of the prices of a list of orders, whatever their currencies. *)
Definition total_price (os : list Order) : Qc :=
  sum ((λ o, amount (totalPriceSet o)) <$> os).

(** The orders in currency [c]. *)
Definition in_currency (c : string) (os : list Order) : list Order :=
  filter (λ o, currencyCode (totalPriceSet o) = c) os.

(** Sum of the prices of the orders in currency [c]. *)
Definition total_in (c : string) (os : list Order) : Qc :=
  total_price (filter (λ o, currencyCode (totalPriceSet o) = c) os).

Lemma total_price_nil : total_price [] = 0.
Proof. done. Qed.

Lemma total_price_snoc os o :
  total_price (os ++ [o]) = JsNum.add (total_price os) (amount (totalPriceSet o)).
Proof. unfold total_price. rewrite fmap_app. apply sum_snoc. Qed.

Section Fold.

Variable init : Summary.

Lemma fold_totalSales os :
  totalSales (fold_left summary_step os init)
  = sum_from (totalSales init) (prices os).
Proof.
  revert init. induction os as [|o os IH]; intros init; cbn [fold_left]; [done|].
  by rewrite IH.
Qed.

Lemma fold_totalOrders os :
  totalOrders (fold_left summary_step os init) = totalOrders init.
Proof. revert init. induction os as [|o os IH]; intros init; simpl; [done|by rewrite IH]. Qed.

Lemma fold_currency_get c os :
  default 0 (get c (salesByCurrency (fold_left summary_step os init)))
  = sum_from (default 0 (get c (salesByCurrency init))) (prices (in_currency c os)).
Proof.
  revert init. induction os as [|o os IH]; intros init; cbn [fold_left]; [done|].
  rewrite IH. simpl. rewrite add_to_spec, get_set.
  unfold in_currency. rewrite filter_cons.
  destruct (decide (currencyCode (totalPriceSet o) = c)) as [E|E]; [|done].
  by rewrite E.
Qed.

Lemma fold_currency_key c os :
  is_Some (get c (salesByCurrency (fold_left summary_step os init))) ↔
  is_Some (get c (salesByCurrency init))
  ∨ ∃ o, o ∈ os ∧ currencyCode (totalPriceSet o) = c.
Proof.
  revert init. induction os as [|o os IH]; intros init; simpl.
  - split; [by left|]. intros [H|(o & Ho & _)]; [done|]. by apply elem_of_nil in Ho.
  - rewrite IH. simpl. rewrite add_to_spec, get_set.
    case_decide as E; split.
    + intros _. right. exists o. split; [by left|done].
    + intros _. by left.
    + intros [H|(o' & Ho' & Hc)]; [by left|].
      right. exists o'. split; [by right|done].
    + intros [H|(o' & Ho' & Hc)]; [by left|].
      apply elem_of_cons in Ho' as [->|Ho']; [done|].
      right. by exists o'.
Qed.

Lemma fold_status os :
  os ≠ [] →
  salesByStatus (fold_left summary_step os init)
  = set "other"
      (sum_from (default 0 (get "other" (salesByStatus init))) (prices os))
      (salesByStatus init).
Proof.
  revert init. induction os as [|o os IH]; intros init Hne; [done|]. simpl.
  destruct os as [|o' os].
  - simpl. by rewrite add_to_spec.
  - rewrite IH by done. cbn [salesByStatus summary_step].
    by rewrite add_to_spec, get_set_eq, set_set.
Qed.

(** A page of orders in one currency has one key in [salesByCurrency]. *)
Lemma fold_one_currency c os :
  os ≠ [] →
  Forall (λ o, currencyCode (totalPriceSet o) = c) os →
  salesByCurrency (fold_left summary_step os init)
  = set c (sum_from (default 0 (get c (salesByCurrency init))) (prices os))
      (salesByCurrency init).
Proof.
  revert init. induction os as [|o os IH]; intros init Hne Hc; [done|]. simpl.
  apply Forall_cons in Hc as [Ho Hc].
  destruct os as [|o' os].
  - simpl. by rewrite add_to_spec, Ho.
  - rewrite IH by done. cbn [salesByCurrency summary_step].
    by rewrite add_to_spec, Ho, get_set_eq, set_set.
Qed.

End Fold.

End SummaryFacts.

(** ** Sales by product *)

Module ProductFacts.

Import Mcp Shopify JsObject JsObjectFacts JsNumFacts.
Local Open Scope Qc_scope.

#[global] Instance ProductSales_eq_dec : EqDecision ProductSales.
Proof. solve_decision. Defined.
#[global] Instance ProductRow_eq_dec : EqDecision ProductRow.
Proof. solve_decision. Defined.

(** Linear arithmetic on canonical rationals, through [Q]. *)
Ltac qc_lra :=
  unfold Qcle, Qclt, Qcminus, Qcplus, Qcopp in *;
  cbn [this Q2Qc] in *;
  rewrite ?Qred_correct in *;
  lra.

(** The bucket that a line item creates when its product has none. *)
Definition fresh_bucket (item : LineItem) : ProductSales :=
  {| productId := item_productId item;
     productTitle := item_productTitle item;
     ps_totalQuantity := 0;
     ps_totalSales := 0;
     ps_currencyCode := currencyCode (originalTotalSet item);
     orders := 0 |}.

(** The three increments that a line item makes to its bucket. *)
Definition count_item (item : LineItem) (p : ProductSales) : ProductSales :=
  {| productId := productId p;
     productTitle := productTitle p;
     ps_totalQuantity := (ps_totalQuantity p + quantity item)%Z;
     ps_totalSales := JsNum.add (ps_totalSales p) (amount (originalTotalSet item));
     ps_currencyCode := ps_currencyCode p;
     orders := orders p + 1 |}.

Lemma product_step_spec ps item :
  product_step ps item
  = set (item_productId item)
      (count_item item
         (default (fresh_bucket item) (get (item_productId item) ps))) ps.
Proof. unfold product_step. apply (update_spec _ (count_item item)). Qed.

(** Every bucket has counted one line item at least. *)
Definition counted (ps : JsObject.t ProductSales) : Prop :=
  Forall (λ p, (0 < orders p.2)%nat) ps.

Lemma product_step_counted ps item : counted ps → counted (product_step ps item).
Proof.
  intros H. rewrite product_step_spec.
  apply (Forall_set (λ p, (0 < orders p)%nat)); [done|]. simpl. lia.
Qed.

Lemma product_items_counted items : ∀ ps,
  counted ps → counted (fold_left product_step items ps).
Proof.
  induction items as [|i items IH]; intros ps H; simpl; [done|].
  by apply IH, product_step_counted.
Qed.

Lemma product_accumulate_counted os : counted (product_accumulate os).
Proof.
  unfold product_accumulate.
  assert (∀ ps, counted ps →
    counted (fold_left (λ acc order, fold_left product_step (lineItems order) acc)
               os ps)) as H.
  { induction os as [|o os IH]; intros ps Hps; simpl; [done|].
    by apply IH, product_items_counted. }
  apply H. constructor.
Qed.

Lemma product_values_counted ps p : counted ps → p ∈ values ps → (0 < orders p)%nat.
Proof.
  intros H Hp. rewrite values_perm in Hp.
  apply list_elem_of_fmap in Hp as ([k p'] & -> & Hin).
  unfold counted in H. rewrite Forall_forall in H. by apply (H (k, p')).
Qed.

(** The average of a bucket that has counted something is a number. *)
Lemma product_row_average p :
  (0 < orders p)%nat →
  pr_averageOrderValue (product_row p)
  = Some (JsNum.toFixed2
            (JsNum.quot (ps_totalSales p) (JsNum.of_nat (orders p)))).
Proof. intros H. unfold product_row. simpl. by rewrite div_pos. Qed.

(** [a] does not sell less than [b]. *)
Definition sells_no_less (a b : ProductSales) : Prop :=
  ps_totalSales b <= ps_totalSales a.

(** The rounded difference has the sign of the exact one. *)
Lemma by_sales_desc_total a b : 0 < by_sales_desc a b → by_sales_desc b a <= 0.
Proof.
  unfold by_sales_desc, JsNum.sub. rewrite fl_gt_0, fl_le_0. intros H. qc_lra.
Qed.

Lemma by_sales_desc_trans a b c :
  by_sales_desc a b <= 0 → by_sales_desc b c <= 0 → by_sales_desc a c <= 0.
Proof.
  unfold by_sales_desc, JsNum.sub. rewrite !fl_le_0. intros H1 H2. qc_lra.
Qed.

Lemma before_sells_no_less a b :
  JsArrayFacts.before by_sales_desc a b ↔ sells_no_less a b.
Proof.
  unfold JsArrayFacts.before, by_sales_desc, sells_no_less, JsNum.sub.
  rewrite fl_le_0. split; intros H; qc_lra.
Qed.

Lemma sort_by_sales l :
  StronglySorted sells_no_less (JsArray.sort by_sales_desc l).
Proof.
  pose proof (JsArrayFacts.sort_sorted by_sales_desc by_sales_desc_total
                by_sales_desc_trans l) as H.
  induction H as [|a l' Hl IH Ha]; constructor; [done|].
  eapply Forall_impl; [exact Ha|]. intros b. by apply before_sells_no_less.
Qed.

Lemma StronglySorted_take {A} (R : A → A → Prop) n l :
  StronglySorted R l → StronglySorted R (take n l).
Proof.
  intros H. revert n. induction H as [|a l Hl IH Ha]; intros [|n]; simpl;
    try constructor; [apply IH|].
  apply Forall_forall. intros x Hx. rewrite Forall_forall in Ha.
  apply Ha. by apply (subseteq_take n l).
Qed.

Lemma StronglySorted_fmap {A B} (R : A → A → Prop) (R' : B → B → Prop)
    (f : A → B) l :
  (∀ a b, R a b → R' (f a) (f b)) →
  StronglySorted R l → StronglySorted R' (f <$> l).
Proof.
  intros Hf. induction 1 as [|a l Hl IH Ha]; simpl; constructor; [done|].
  apply Forall_fmap. eapply Forall_impl; [exact Ha|]. intros b. apply Hf.
Qed.

End ProductFacts.

(** ** Calendar dates *)

Module DateFacts.

Import EcmaDate JsString.
Local Open Scope Z_scope.

Lemma DaysInYear_spec y : DayFromYear (y + 1) - DayFromYear y = DaysInYear y.
Proof.
  unfold DaysInYear, DayFromYear.
  repeat case_match;
    rewrite ?negb_true_iff, ?negb_false_iff, ?Z.eqb_eq, ?Z.eqb_neq in *;
    Z.div_mod_to_equations; lia.
Qed.

(** [YearFromDay] finds the year that holds the day. *)
Lemma YearFromDay_spec d :
  DayFromYear (YearFromDay d) <= d < DayFromYear (YearFromDay d + 1).
Proof.
  unfold YearFromDay.
  set (y0 := 1970 + 400 * d / 146097).
  assert (146097 * (y0 - 1970) <= 400 * d < 146097 * (y0 - 1970) + 146097) as Hy0
    by (unfold y0; Z.div_mod_to_equations; lia).
  clearbody y0.
  destruct (Z.leb_spec (DayFromYear (y0 + 1)) d) as [H1|H1].
  - split; [done|].
    replace (y0 + 1 + 1) with (y0 + 2) by lia.
    unfold DayFromYear in *. Z.div_mod_to_equations. lia.
  - destruct (Z.leb_spec (DayFromYear y0) d) as [H2|H2]; [lia|].
    replace (y0 - 1 + 1) with y0 by lia. split; [|done].
    unfold DayFromYear in *. Z.div_mod_to_equations. lia.
Qed.

Lemma DayWithinYear_range t :
  0 <= DayWithinYear t < DaysInYear (YearFromTime t).
Proof.
  unfold DayWithinYear, YearFromTime.
  pose proof (YearFromDay_spec (Day t)). rewrite <- DaysInYear_spec. lia.
Qed.

Lemma MonthFromTime_range t : 0 <= MonthFromTime t <= 11.
Proof. unfold MonthFromTime. repeat case_match; lia. Qed.

Lemma DaysInYear_cases y : DaysInYear y = 365 ∨ DaysInYear y = 366.
Proof. unfold DaysInYear. repeat case_match; auto. Qed.

Lemma DateFromTime_range t : 1 <= DateFromTime t <= 31.
Proof.
  pose proof (DayWithinYear_range t) as Hd.
  unfold DateFromTime, MonthFromTime, InLeapYear in *.
  destruct (DaysInYear_cases (YearFromTime t)) as [E|E]; rewrite E in *;
    simpl; repeat case_match; simpl;
    rewrite ?Z.ltb_lt, ?Z.ltb_ge in *; lia.
Qed.

Lemma WeekDay_range t : 0 <= WeekDay t <= 6.
Proof. unfold WeekDay. pose proof (Z.mod_pos_bound (Day t + 4) 7). lia. Qed.

(** [MakeDay] on the year and month of a time counts the days from the
    first of that month. *)
Lemma MakeDay_civil t dt :
  MakeDay (YearFromTime t) (MonthFromTime t) dt = Day t - DateFromTime t + dt.
Proof.
  pose proof (MonthFromTime_range t) as Hm.
  unfold MakeDay. rewrite Z.div_small, Z.mod_small by lia.
  rewrite Z.add_0_r. unfold DateFromTime, DayWithinYear, InLeapYear. lia.
Qed.

(** [setDate] moves a date by whole days and keeps the time of the day. *)
Lemma setDate_shift tza t dt :
  setDate tza t dt = t + (dt - getDate tza t) * msPerDay.
Proof.
  unfold setDate, getDate, UTC, MakeDate. rewrite MakeDay_civil.
  assert (LocalTime tza t = t + tza) as Hlt by done.
  set (lt := LocalTime tza t) in *. generalize (DateFromTime lt). intros d.
  unfold Day, TimeWithinDay, msPerDay.
  pose proof (Z.div_mod lt 86400000). lia.
Qed.

Lemma weekStart_shift tza t :
  setDate tza t (getDate tza t - getDay tza t) = t - getDay tza t * msPerDay.
Proof. rewrite setDate_shift. lia. Qed.

Lemma Day_shift t n : Day (t + n * msPerDay) = Day t + n.
Proof. unfold Day, msPerDay. by rewrite Z.div_add. Qed.

(** The calendar date of day number [d]. *)
Definition isoDay (d : Z) : string := isoDate (d * msPerDay).

Lemma isoDate_Day t : isoDate t = isoDay (Day t).
Proof.
  unfold isoDay, isoDate, DateFromTime, MonthFromTime, InLeapYear,
    DayWithinYear, YearFromTime.
  assert (Day (Day t * msPerDay) = Day t) as ->; [|done].
  unfold Day, msPerDay. by rewrite Z.div_mul.
Qed.

Fixpoint no_T (s : string) : Prop :=
  match s with
  | EmptyString => True
  | String c s' => c ≠ "T"%char ∧ no_T s'
  end.

Lemma before_T_app s1 s2 : no_T s1 → before_T (s1 +:+ s2) = s1 +:+ before_T s2.
Proof.
  induction s1 as [|c s1 IH]; simpl; [done|]. intros [Hc Hs].
  destruct (Ascii.eqb c "T") eqn:E.
  - by apply Ascii.eqb_eq in E.
  - by rewrite IH.
Qed.

Lemma no_T_app s1 s2 : no_T s1 → no_T s2 → no_T (s1 +:+ s2).
Proof.
  induction s1 as [|c s1 IH]; simpl; [done|].
  intros [Hc Hs1] Hs2. split; [done|by apply IH].
Qed.

Lemma no_T_pretty_N_go x s : no_T s → no_T (pretty_N_go x s).
Proof.
  revert s. induction (N.lt_wf_0 x) as [x _ IH]; intros s Hs.
  assert (x = 0 ∨ 0 < x)%N as [->|?] by lia.
  - by rewrite pretty_N_go_0.
  - rewrite pretty_N_go_step by done. apply IH.
    { by apply N.div_lt. }
    split; [|done]. unfold pretty_N_char. repeat case_match; discriminate.
Qed.

Lemma no_T_pretty_N (x : N) : no_T (pretty x).
Proof.
  unfold pretty, pretty_N. case_decide; [|by apply no_T_pretty_N_go].
  simpl. split; [discriminate|exact I].
Qed.

Lemma no_T_pretty_Z (x : Z) : no_T (pretty x).
Proof.
  destruct x as [|p|p]; unfold pretty, pretty_Z.
  - simpl. split; [discriminate|exact I].
  - apply no_T_pretty_N.
  - apply no_T_app; [|apply no_T_pretty_N]. simpl. split; [discriminate|exact I].
Qed.

Lemma no_T_zeros n : no_T (String.concat "" (replicate n "0")).
Proof.
  induction n as [|n IH]; simpl; [done|].
  destruct (replicate n "0") eqn:E; simpl in *.
  - split; [discriminate|exact I].
  - split; [discriminate|exact IH].
Qed.

Lemma no_T_pad n z : no_T (pad n z).
Proof.
  unfold pad, padStart. apply no_T_app; [apply no_T_zeros|apply no_T_pretty_Z].
Qed.

Lemma no_T_isoDate t : no_T (isoDate t).
Proof.
  assert (no_T "-") as Hd by (simpl; split; [discriminate|exact I]).
  assert (no_T "+") as Hp by (simpl; split; [discriminate|exact I]).
  unfold isoDate, isoYear.
  repeat case_match; repeat first [apply no_T_pad | assumption | apply no_T_app].
Qed.

(** The date part of [toISOString] is the calendar date in UTC. *)
Lemma before_T_toISOString t : before_T (toISOString t) = isoDate t.
Proof.
  unfold toISOString. rewrite before_T_app by apply no_T_isoDate.
  change (before_T ("T" +:+ isoTime t +:+ "Z")) with "".
  generalize (isoDate t). intros s. induction s as [|c s IH]; [done|].
  change (String c s +:+ "") with (String c (s +:+ "")). by rewrite IH.
Qed.

End DateFacts.

(** ** Sales trends *)

Module TrendFacts.

Import Mcp Shopify JsObject JsObjectFacts JsNumFacts EcmaDate DateFacts.
Local Open Scope Qc_scope.

#[global] Instance Trend_eq_dec : EqDecision Trend.
Proof. solve_decision. Defined.
#[global] Instance TrendRow_eq_dec : EqDecision TrendRow.
Proof. solve_decision. Defined.

Section Zone.

Variable tza : Z.

Variable interval : string.

(** The bucket that an order opens when its period has none. *)
Definition fresh_trend (key : string) : Trend :=
  {| period := key; tr_totalSales := 0; orderCount := 0 |}.

(** The two increments that an order makes to its bucket. *)
Definition count_order (x : Qc) (b : Trend) : Trend :=
  {| period := period b;
     tr_totalSales := JsNum.add (tr_totalSales b) x;
     orderCount := orderCount b + 1 |}.

Lemma trend_step_spec o order :
  let key := periodKey tza interval (createdAt order) in
  trend_step tza interval o order
  = set key (count_order (amount (totalPriceSet order))
               (default (fresh_trend key) (get key o))) o.
Proof.
  simpl. unfold trend_step.
  apply (update_spec _ (count_order (amount (totalPriceSet order)))).
Qed.

Lemma to_map_trend_step o order :
  let key := periodKey tza interval (createdAt order) in
  to_map (trend_step tza interval o order)
  = <[key := count_order (amount (totalPriceSet order))
               (default (fresh_trend key) (to_map o !! key))]> (to_map o).
Proof. simpl. by rewrite trend_step_spec, to_map_set, lookup_to_map. Qed.

(** What a permutation of the orders leaves as it is in a bucket: its
    period and the count of its orders. *)
Definition bucket_count (b : Trend) : string * nat := (period b, orderCount b).

(** The periods of [salesByInterval], each with the count of its orders. *)
Definition trend_counts (o : JsObject.t Trend) : gmap string (string * nat) :=
  bucket_count <$> to_map o.

Lemma trend_counts_step o order :
  let key := periodKey tza interval (createdAt order) in
  trend_counts (trend_step tza interval o order)
  = <[key := (default key (fst <$> trend_counts o !! key),
              S (default 0%nat (snd <$> trend_counts o !! key)))]>
      (trend_counts o).
Proof.
  simpl. unfold trend_counts. rewrite to_map_trend_step, fmap_insert.
  f_equal. rewrite lookup_fmap.
  destruct (to_map o !! _) as [b|]; simpl; unfold bucket_count; simpl;
    f_equal; lia.
Qed.

Lemma trend_step_view o o' order :
  trend_counts o = trend_counts o' →
  trend_counts (trend_step tza interval o order)
  = trend_counts (trend_step tza interval o' order).
Proof. intros H. by rewrite !trend_counts_step, H. Qed.

Lemma trend_step_swap o a b :
  trend_counts (trend_step tza interval (trend_step tza interval o a) b)
  = trend_counts (trend_step tza interval (trend_step tza interval o b) a).
Proof.
  rewrite !trend_counts_step.
  set (ka := periodKey tza interval (createdAt a)).
  set (kb := periodKey tza interval (createdAt b)).
  destruct (decide (ka = kb)) as [E|E].
  - rewrite <- E. by rewrite !lookup_insert_eq, !insert_insert_eq.
  - rewrite !lookup_insert_ne by done. by apply insert_insert_ne.
Qed.

(** The periods and the counts of the buckets do not depend on the order
    of the orders. *)
Lemma trend_accumulate_perm os os' :
  Permutation os os' →
  trend_counts (trend_accumulate tza interval os)
  = trend_counts (trend_accumulate tza interval os').
Proof.
  intros Hp. unfold trend_accumulate.
  by apply (fold_left_permutation trend_counts (trend_step tza interval)
              trend_step_view trend_step_swap _ _ Hp).
Qed.

(** Every bucket has counted one order at least. *)
Definition counted (o : JsObject.t Trend) : Prop :=
  Forall (λ p, (0 < orderCount p.2)%nat) o.

Lemma trend_accumulate_counted os : counted (trend_accumulate tza interval os).
Proof.
  unfold trend_accumulate.
  assert (∀ o, counted o → counted (fold_left (trend_step tza interval) os o)) as H.
  { induction os as [|order os IH]; intros o Ho; simpl; [done|].
    apply IH. rewrite trend_step_spec.
    apply (Forall_set (λ b, (0 < orderCount b)%nat)); [done|]. simpl. lia. }
  apply H. constructor.
Qed.

Lemma trend_values_counted o b : counted o → b ∈ values o → (0 < orderCount b)%nat.
Proof.
  intros H Hb. rewrite values_perm in Hb.
  apply list_elem_of_fmap in Hb as ([k b'] & -> & Hin).
  unfold counted in H. rewrite Forall_forall in H. by apply (H (k, b')).
Qed.

Lemma trend_row_average b :
  (0 < orderCount b)%nat →
  trr_averageOrderValue (trend_row b)
  = Some (JsNum.toFixed2
            (JsNum.quot (tr_totalSales b) (JsNum.of_nat (orderCount b)))).
Proof. intros H. unfold trend_row. simpl. by rewrite div_pos. Qed.

End Zone.

(** *** The period keys *)

(** The daily key is the calendar date in UTC, whatever the local zone. *)
Lemma periodKey_daily tza t : periodKey tza "daily" t = isoDate t.
Proof.
  unfold periodKey. change (String.eqb "daily" "daily") with true. cbv iota.
  apply before_T_toISOString.
Qed.

(** The weekly key is the UTC date of the instant that lies as many days
    before the order as the local day of the week says. *)
Lemma periodKey_weekly tza t :
  periodKey tza "weekly" t = isoDay (Day t - getDay tza t)%Z.
Proof.
  unfold periodKey.
  change (String.eqb "weekly" "daily") with false.
  change (String.eqb "weekly" "weekly") with true. cbv iota.
  rewrite before_T_toISOString, weekStart_shift.
  rewrite isoDate_Day. f_equal.
  replace (t - getDay tza t * msPerDay)%Z
    with (t + (- getDay tza t) * msPerDay)%Z by lia.
  rewrite Day_shift. lia.
Qed.

Lemma periodKey_monthly tza t :
  periodKey tza "monthly" t
  = pretty (getFullYear tza t) +:+ "-" +:+ pad 2 (getMonth tza t + 1)%Z.
Proof.
  unfold periodKey.
  change (String.eqb "monthly" "daily") with false.
  change (String.eqb "monthly" "weekly") with false.
  change (String.eqb "monthly" "monthly") with true. cbv iota.
  reflexivity.
Qed.

(** In a process whose local zone is UTC the weekly key is the date of the
    Sunday on or before the date of the order. *)
Lemma periodKey_weekly_utc t :
  ∃ sunday : Z,
    periodKey 0 "weekly" t = isoDay sunday
    ∧ WeekDay (sunday * msPerDay) = 0%Z
    ∧ (Day t - 6 <= sunday <= Day t)%Z.
Proof.
  exists (Day t - WeekDay t)%Z.
  pose proof (WeekDay_range t) as Hw.
  split; [|split; [|lia]].
  - rewrite periodKey_weekly. unfold getDay, LocalTime. by rewrite Z.add_0_r.
  - unfold WeekDay in *.
    assert (Day ((Day t - (Day t + 4) `mod` 7) * msPerDay)
            = Day t - (Day t + 4) `mod` 7)%Z as ->
      by (unfold Day at 1, msPerDay; by rewrite Z.div_mul).
    generalize (Day t). intros d. Z.div_mod_to_equations. lia.
Qed.

End TrendFacts.

(** ** Conversion rate and user journey *)

Module GA4Facts.

Import Mcp GA4 JsObject JsObjectFacts.
Local Open Scope Qc_scope.

#[global] Instance Cvr_eq_dec : EqDecision Cvr.
Proof. solve_decision. Defined.
#[global] Instance Row_eq_dec : EqDecision Row.
Proof. solve_decision. Defined.

(** An assignment adds a property under every name but ["__proto__"]. *)
Lemma lookup_assign {V} (k s : string) (v : V) (m : gmap string V) :
  assign k v m !! s
  = if decide (k = s ∧ s ≠ "__proto__") then Some v else m !! s.
Proof.
  unfold assign. destruct (String.eqb_spec k "__proto__") as [->|Hk].
  - case_decide as E; [by destruct E|done].
  - rewrite lookup_insert. case_decide as E.
    + subst s. by rewrite decide_True.
    + rewrite decide_False; [done|]. by intros [? _].
Qed.

(** A loop over a set that assigns [F s] to the key of every element. *)
Lemma set_fold_assign_lookup {V} (F : string → V) (X : gset string) s :
  set_fold (λ x acc, assign x (F x) acc) (∅ : gmap string V) X !! s
  = if decide (s ∈ X ∧ s ≠ "__proto__") then Some (F s) else None.
Proof.
  set (P := λ (acc : gmap string V) (Y : gset string),
         ∀ s, acc !! s
              = if decide (s ∈ Y ∧ s ≠ "__proto__") then Some (F s) else None).
  cut (P (set_fold (λ x acc, assign x (F x) acc) ∅ X) X); [by intros H|].
  apply (set_fold_ind_L P); unfold P; clear.
  - intros s. rewrite lookup_empty. case_decide; [set_solver|done].
  - intros x Y acc Hx IH s. rewrite lookup_assign. case_decide as E.
    + destruct E as [-> E]. rewrite decide_True; [done|]. set_solver.
    + rewrite IH. repeat case_decide; try done; exfalso; set_solver.
Qed.

(** The same loop over a set of nullable keys that skips [null]. *)
Lemma set_fold_assign_some_lookup {V} (F : option string → V)
    (X : gset (option string)) s :
  set_fold (λ x acc, match x with
                     | None => acc
                     | Some k => assign k (F x) acc
                     end) (∅ : gmap string V) X !! s
  = if decide (Some s ∈ X ∧ s ≠ "__proto__") then Some (F (Some s)) else None.
Proof.
  set (P := λ (acc : gmap string V) (Y : gset (option string)),
         ∀ s, acc !! s
              = if decide (Some s ∈ Y ∧ s ≠ "__proto__")
                then Some (F (Some s)) else None).
  cut (P (set_fold (λ x acc, match x with
                             | None => acc
                             | Some k => assign k (F x) acc
                             end) ∅ X) X); [by intros H|].
  apply (set_fold_ind_L P); unfold P; clear.
  - intros s. rewrite lookup_empty. case_decide; [set_solver|done].
  - intros [k|] Y acc Hx IH s.
    + rewrite lookup_assign. case_decide as E.
      * destruct E as [-> E]. rewrite decide_True; [done|]. set_solver.
      * rewrite IH. repeat case_decide; try done; exfalso; set_solver.
    + rewrite IH. repeat case_decide; try done; exfalso; set_solver.
Qed.

(** The loop that gathers the keys of a result, [null] left out. *)
Lemma set_fold_keys (X0 : gset string) (Y : gset (option string)) k :
  k ∈ set_fold (λ key acc, match key with
                            | Some k => {[ k ]} ∪ acc
                            | None => acc
                            end) X0 Y
  ↔ k ∈ X0 ∨ Some k ∈ Y.
Proof.
  set (P := λ (acc : gset string) (Z : gset (option string)),
         ∀ k, k ∈ acc ↔ k ∈ X0 ∨ Some k ∈ Z).
  cut (P (set_fold (λ key acc, match key with
                               | Some k => {[ k ]} ∪ acc
                               | None => acc
                               end) X0 Y) Y); [by intros H|].
  apply (set_fold_ind_L P); unfold P; clear.
  - set_solver.
  - intros [x|] Z acc Hx IH k; set_solver.
Qed.

(** *** [calculate_cvr] *)

Lemma allSegments_spec (conversionCounts baseCounts : Counts) s :
  Some s ∈ allSegments conversionCounts baseCounts
  ↔ is_Some (conversionCounts !! Some s) ∨ is_Some (baseCounts !! Some s).
Proof. unfold allSegments. set_unfold. rewrite !elem_of_dom. naive_solver. Qed.

Lemma cvr_segments_lookup conversionCounts baseCounts s :
  cvr_segments conversionCounts baseCounts !! s
  = if decide ((is_Some (conversionCounts !! Some s)
                ∨ is_Some (baseCounts !! Some s))
               ∧ s ≠ "__proto__")
    then Some (cvr_entry conversionCounts baseCounts (Some s))
    else None.
Proof.
  unfold cvr_segments.
  rewrite (set_fold_assign_some_lookup (cvr_entry conversionCounts baseCounts)).
  repeat case_decide; try done; exfalso; rewrite allSegments_spec in *;
    naive_solver.
Qed.

(** *** [analyze_user_journey] *)

(** One turn of the first [forEach]. *)
Definition collect_step (segmentBy : option string) (rs : list Counts)
    (acc : gmap string Counts * gset string) (p : nat * string)
    : gmap string Counts * gset string :=
  let '(stepDataMap, allSegmentValues) := acc in
  let '(index, step) := p in
  let result : Counts := default ∅ (rs !! index) in
  (<[step := result]> stepDataMap,
   if JsString.falsy segmentBy then allSegmentValues
   else set_fold (λ key acc, match key with
                             | Some k => {[ k ]} ∪ acc
                             | None => acc
                             end) allSegmentValues (dom result)).

Lemma collect_snoc segmentBy steps step rs :
  collect segmentBy (steps ++ [step]) rs
  = collect_step segmentBy rs (collect segmentBy steps rs) (length steps, step).
Proof.
  unfold collect. rewrite imap_app, fold_left_app. simpl.
  rewrite Nat.add_0_r.
  by destruct (fold_left _ (imap _ steps) _).
Qed.

(** What the first [forEach] leaves behind, for steps with distinct
    names. *)
Lemma collect_spec segmentBy steps rs :
  NoDup steps →
  (∀ i step, steps !! i = Some step →
     (collect segmentBy steps rs).1 !! step = Some (default ∅ (rs !! i)))
  ∧ (∀ step, step ∉ steps → (collect segmentBy steps rs).1 !! step = None)
  ∧ (∀ k, k ∈ (collect segmentBy steps rs).2 ↔
       JsString.falsy segmentBy = false
       ∧ ∃ i step, steps !! i = Some step
                   ∧ is_Some (default ∅ (rs !! i) !! Some k)).
Proof.
  induction steps as [|step steps IH] using rev_ind; intros Hnd.
  - split; [|split].
    + intros i s Hi. by rewrite lookup_nil in Hi.
    + intros s _. apply lookup_empty.
    + intros k. unfold collect. simpl. split; [set_solver|].
      intros (_ & i & s & Hi & _). by rewrite lookup_nil in Hi.
  - apply NoDup_app in Hnd as (Hnd & Hfresh & _).
    destruct (IH Hnd) as (IH1 & IH2 & IH3). clear IH.
    rewrite collect_snoc.
    destruct (collect segmentBy steps rs) as [m X] eqn:E. simpl in *.
    split; [|split].
    + intros i s Hi. destruct (decide (i = length steps)) as [->|Hne].
      * rewrite list_lookup_middle in Hi by done. injection Hi as <-.
        apply lookup_insert_eq.
      * assert (i < length steps)%nat as Hlt.
        { apply lookup_lt_Some in Hi. rewrite length_app in Hi. simpl in Hi. lia. }
        rewrite lookup_app_l in Hi by done.
        rewrite lookup_insert_ne; [by apply IH1|].
        intros ->. apply (Hfresh s); [|by left].
        by eapply list_elem_of_lookup_2.
    + intros s Hs. rewrite not_elem_of_app in Hs. destruct Hs as [Hs1 Hs2].
      rewrite lookup_insert_ne; [by apply IH2|]. set_solver.
    + intros k. destruct (JsString.falsy segmentBy) eqn:Hf.
      * rewrite IH3. naive_solver.
      * rewrite set_fold_keys, IH3, elem_of_dom. split.
        -- intros [(_ & i & s & Hi & Hk)|Hk].
           ++ split; [done|]. exists i, s. split; [|done].
              by apply lookup_app_l_Some.
           ++ split; [done|]. exists (length steps), step. split; [|done].
              by apply list_lookup_middle.
        -- intros (_ & i & s & Hi & Hk).
           destruct (decide (i = length steps)) as [->|Hne]; [by right|].
           left. split; [done|]. exists i, s. split; [|done].
           assert (i < length steps)%nat as Hlt.
           { apply lookup_lt_Some in Hi. rewrite length_app in Hi. simpl in Hi. lia. }
           by rewrite lookup_app_l in Hi.
Qed.

(** The funnel of a segment holds every step. *)
Lemma segment_funnel_get (steps : list string) (m : gmap string Counts)
    (seg step : string) :
  step ∈ steps →
  get step (segment_funnel steps m seg) = Some (step_count m step (Some seg)).
Proof.
  unfold segment_funnel.
  generalize (JsObject.empty : JsObject.t Z).
  induction steps as [|s steps IH] using rev_ind; intros o Hin.
  - by apply elem_of_nil in Hin.
  - rewrite fold_left_app. simpl. rewrite get_set.
    case_decide as E; [by subst|].
    apply IH. set_solver.
Qed.

Lemma all_fmap {A B} (f : A → McpError + B) l rs :
  all (f <$> l) = inr rs → Forall2 (λ x r, f x = inr r) l rs.
Proof.
  revert rs. induction l as [|x l IH]; intros rs.
  - intros [= <-]. constructor.
  - rewrite fmap_cons. cbn [all].
    destruct (f x) as [e|r] eqn:E; [intros [=]|].
    destruct (all (f <$> l)) as [e|rs'] eqn:E'; [intros [=]|].
    intros [= <-]. constructor; [done|by apply IH].
Qed.

End GA4Facts.

(* ===================================================================== *)
(** * Part III: the claims of the specification                           *)
(* ===================================================================== *)

Module Fixtures.

Import Mcp Shopify.
Local Open Scope Qc_scope.

Definition cfg : ShopifyConfig :=
  {| shopDomain := "shop.example"; accessToken := "token"; apiVersion := "2024-07" |}.

Definition may : Args :=
  {| startDate := Some "2024-05-01";
     endDate := Some "2024-05-31";
     arg_currencyCode := None;
     interval := None;
     limit := None |}.

Definition t_may16 : Z := EcmaDate.utc 2024 5 16 0 0 0.

Definition usd10 : Order := SummaryFacts.priced t_may16 (Q2Qc 10) "USD".
Definition usd20 : Order := SummaryFacts.priced t_may16 (Q2Qc 20) "USD".
Definition jpy1000 : Order := SummaryFacts.priced t_may16 (Q2Qc 1000) "JPY".

(** An upstream that holds two orders on two pages. *)
Definition two_pages : Upstream :=
  λ r, match after r with
       | None =>
           inr {| edges := [usd10]; hasNextPage := true; endCursor := Some "c1" |}
       | Some _ =>
           inr {| edges := [usd20]; hasNextPage := false; endCursor := None |}
       end.

(** An upstream that holds the given orders on one page. *)
Definition one_page (os : list Order) : Upstream :=
  λ _, inr {| edges := os; hasNextPage := false; endCursor := None |}.

Definition summary_request : Request :=
  {| document := GetOrdersForSalesSummary;
     query := "created_at:>=2024-05-01 created_at:<=2024-05-31 status:any";
     first := 100;
     after := None |}.

End Fixtures.

Module FetchFacts.

Import Mcp Shopify SummaryFacts ProductFacts TrendFacts.

#[global] Instance ToolResult_eq_dec : EqDecision ToolResult.
Proof. solve_decision. Defined.
#[global] Instance FetchState_eq_dec : EqDecision FetchState.
Proof. solve_decision. Defined.

Section Server.

Variable config : ShopifyConfig.

Variable upstream : Upstream.

(** The loop makes one request and leaves, whatever [hasNextPage] says. *)
Lemma fetch_orders_once fuel queryFilter :
  let r := {| document := GetOrdersForSalesSummary;
              query := queryFilter; first := 100; after := None |} in
  run (fetch_orders (Some config) upstream (S fuel) queryFilter)
  = (match upstream r with
     | inl msg => inl (mkError InternalError msg)
     | inr page =>
         inr (Some {| fs_hasNextPage := hasNextPage page;
                      fs_endCursor := endCursor page;
                      allOrders := edges page |})
     end, [r]).
Proof.
  simpl. unfold run, fetch_orders. cbn [Loop.while fs_hasNextPage].
  unfold fetch_body, executeShopifyGraphQL, mbind, M_bind, bind, request, mret,
    M_ret, ret. cbn [fs_endCursor allOrders app].
  by destruct (upstream _).
Qed.

End Server.

End FetchFacts.

Import Mcp Shopify Fixtures.

(** C1 (the code departs from the claim).  The upstream holds two orders on
    two pages and says so in [hasNextPage]; [get_sales_summary] makes one
    request, reports one order and 10.00 of sales, and nothing in its
    answer says that orders are missing. *)
Theorem summary_reads_first_page_only :
  run (callTool (Some cfg) two_pages 0 5 "get_sales_summary" may)
  = (inr (SalesSummary (Some
       {| totalOrders := 1;
          totalSales := Q2Qc 10;
          averageOrderValue := Q2Qc 10;
          totalDiscounts := Q2Qc 0;
          totalShipping := Q2Qc 0;
          totalTax := Q2Qc 0;
          salesByCurrency := [("USD", Q2Qc 10)];
          salesByStatus := [("other", Q2Qc 10)] |})),
     [summary_request]).
Proof. compute_done. Qed.

Import JsObject JsObjectFacts JsNumFacts SummaryFacts ProductFacts TrendFacts.

Local Open Scope Qc_scope.

(** ** The sales summary: currencies, status and order of the records *)

Lemma summarize_totalSales os : totalSales (summarize os) = total_price os.
Proof.
  unfold summarize, summary_accumulate. cbn [totalSales].
  by rewrite fold_totalSales.
Qed.

Lemma summarize_totalOrders os : totalOrders (summarize os) = length os.
Proof.
  unfold summarize, summary_accumulate. cbn [totalOrders].
  by rewrite fold_totalOrders.
Qed.

(** The currency codes of the orders are names that an object does not
    inherit: [summary.salesByCurrency[currencyCode]] then reads a property
    of the dictionary itself. *)
Definition own_currencies (os : list Order) : Prop :=
  Forall (λ o, inherited (currencyCode (totalPriceSet o)) = false) os.

(** C2 (counterexample).  One order of 10 USD and one of 1000 JPY: the
    dictionary keeps the two amounts apart, and [totalSales] is their sum,
    1010, a number in no currency. *)
Lemma summary_total_mixes_currencies :
  salesByCurrency (summarize [usd10; jpy1000])
    = [("USD", Q2Qc 10); ("JPY", Q2Qc 1000)]
  ∧ totalSales (summarize [usd10; jpy1000]) = Q2Qc 1010.
Proof. compute_done. Qed.

(** C2 (amended).  For orders whose currency codes are not names of
    properties of [Object.prototype], [salesByCurrency] has a key for
    exactly the currencies of the orders and holds under each the sum of
    the prices of the orders in that currency, added up in the order of
    the orders; beside it, [totalSales] is the sum of the prices of all
    the orders, whatever their currencies. *)
Theorem summary_keeps_currencies_apart_beside_total :
  ∀ os : list Order,
    own_currencies os →
    (∀ c, is_Some (get c (salesByCurrency (summarize os)))
          ↔ ∃ o, o ∈ os ∧ currencyCode (totalPriceSet o) = c)
    ∧ (∀ c v, get c (salesByCurrency (summarize os)) = Some v → v = total_in c os)
    ∧ totalSales (summarize os) = total_price os.
Proof.
  intros os _. split; [|split].
  - intros c. unfold summarize, summary_accumulate. cbn [salesByCurrency].
    rewrite fold_currency_key. simpl. split; [|by right].
    by intros [[? [=]]|H].
  - intros c v Hv. unfold summarize, summary_accumulate in Hv.
    cbn [salesByCurrency] in Hv.
    pose proof (fold_currency_get (summary_init os) c os) as H.
    rewrite Hv in H. simpl in H. by rewrite H.
  - apply summarize_totalSales.
Qed.

Lemma summary_keeps_currencies_apart_beside_total_witness :
  own_currencies [usd10; jpy1000]
  ∧ (∀ c v, get c (salesByCurrency (summarize [usd10; jpy1000])) = Some v →
            v = total_in c [usd10; jpy1000])
  ∧ totalSales (summarize [usd10; jpy1000]) = total_price [usd10; jpy1000].
Proof.
  assert (own_currencies [usd10; jpy1000]) as H by (by repeat constructor).
  split; [exact H|].
  exact (proj2 (summary_keeps_currencies_apart_beside_total _ H)).
Defined.

(** Half a fils, in a currency of three decimals. *)
Definition half_cent (c : string) : Order :=
  priced t_may16 (JsNum.parseDecimal (5 # 1000)) c.

(** A dime and eleven dimes. *)
Definition dime (c : string) : Order :=
  priced t_may16 (JsNum.parseDecimal (10 # 100)) c.

Definition eleven_dimes (c : string) : Order :=
  priced t_may16 (JsNum.parseDecimal (110 # 100)) c.

(** C10 (counterexample).  With no order the summary has no key ["other"]
    at all, where the claim has it hold the total.  With one order of
    0.005 KWD and one of 0.005 BHD the answer prints 0.01 under either
    currency beside a total of 0.01. *)
Lemma summary_breakdowns_do_not_add_up :
  salesByStatus (formatSummary (summarize [])) = []
  ∧ salesByCurrency (formatSummary (summarize [half_cent "KWD"; half_cent "BHD"]))
    = [("KWD", Q2Qc (1 # 100)); ("BHD", Q2Qc (1 # 100))]
  ∧ totalSales (formatSummary (summarize [half_cent "KWD"; half_cent "BHD"]))
    = Q2Qc (1 # 100).
Proof. compute_done. Qed.

(** Before the amounts are printed the parts need not add up either: the
    total of 0.10 USD, 0.10 JPY and 1.10 USD is the double 1.3, and the
    sum of the two doubles under USD and JPY is another number. *)
Example sums_of_doubles_do_not_add_up :
  let s := summarize [dime "USD"; dime "JPY"; eleven_dimes "USD"] in
  totalSales s = JsNum.parseDecimal (130 # 100)
  ∧ (salesByCurrency s).*1 = ["USD"; "JPY"]
  ∧ sum (salesByCurrency s).*2 ≠ totalSales s
  ∧ foldr Qcplus 0 (salesByCurrency s).*2 ≠ totalSales s.
Proof. repeat split; compute_done. Qed.

Lemma round_entries_singleton k v :
  round_entries [(k, v)] = [(k, JsNum.toFixed2 v)].
Proof.
  unfold round_entries, entries.
  rewrite (filter_cons (λ p : string * Qc, is_Some (array_index p.1))).
  rewrite (filter_cons (λ p : string * Qc, ¬ is_Some (array_index p.1))).
  rewrite !filter_nil. cbn [fst].
  destruct (decide (is_Some (array_index k))) as [H|H].
  - by rewrite decide_False by (by intros ?).
  - by rewrite decide_True.
Qed.

(** C10 (amended).  [salesByStatus] is empty when there is no order and
    otherwise holds the one key ["other"] with [totalSales] under it, in
    the summary that the tool computes and in the one it prints.  When the
    orders are all in one currency, whose code is not the name of a
    property of [Object.prototype], [salesByCurrency] holds that one key
    with [totalSales] under it, computed and printed. *)
Theorem summary_breakdowns_hold_the_total :
  ∀ os : list Order,
    (salesByStatus (summarize os)
     = if decide (os = []) then []
       else [("other", totalSales (summarize os))])
    ∧ (salesByStatus (formatSummary (summarize os))
       = if decide (os = []) then []
         else [("other", totalSales (formatSummary (summarize os)))])
    ∧ (∀ c : string,
         os ≠ [] →
         inherited c = false →
         Forall (λ o, currencyCode (totalPriceSet o) = c) os →
         salesByCurrency (summarize os) = [(c, totalSales (summarize os))]
         ∧ salesByCurrency (formatSummary (summarize os))
           = [(c, totalSales (formatSummary (summarize os)))]).
Proof.
  intros os.
  assert (salesByStatus (summarize os)
          = if decide (os = []) then []
            else [("other", totalSales (summarize os))]) as Hs.
  { case_decide as E; [by subst|].
    rewrite summarize_totalSales. unfold summarize, summary_accumulate.
    cbn [salesByStatus]. by rewrite fold_status. }
  split; [exact Hs|]. split.
  - unfold formatSummary. cbn [salesByStatus totalSales]. rewrite Hs.
    case_decide; [done|]. apply round_entries_singleton.
  - intros c Hne _ Hc.
    assert (salesByCurrency (summarize os) = [(c, totalSales (summarize os))])
      as Hcur.
    { rewrite summarize_totalSales. unfold summarize, summary_accumulate.
      cbn [salesByCurrency]. by rewrite (fold_one_currency _ c). }
    split; [exact Hcur|].
    unfold formatSummary. cbn [salesByCurrency totalSales]. rewrite Hcur.
    apply round_entries_singleton.
Qed.

(** Four orders of 19.37, 270.95, 185.29 and 40.57. *)
Definition ledger : list Order :=
  [priced t_may16 (JsNum.parseDecimal (1937 # 100)) "USD";
   priced t_may16 (JsNum.parseDecimal (27095 # 100)) "USD";
   priced t_may16 (JsNum.parseDecimal (18529 # 100)) "USD";
   priced t_may16 (JsNum.parseDecimal (4057 # 100)) "USD"].

(** The same orders, the last two exchanged. *)
Definition ledger_swapped : list Order :=
  [priced t_may16 (JsNum.parseDecimal (1937 # 100)) "USD";
   priced t_may16 (JsNum.parseDecimal (27095 # 100)) "USD";
   priced t_may16 (JsNum.parseDecimal (4057 # 100)) "USD";
   priced t_may16 (JsNum.parseDecimal (18529 # 100)) "USD"].

(** C8 (counterexample).  Four orders and the same four with the last two
    exchanged: the totals, which are sums of doubles, differ in the last
    bit (516.1800000000001 and 516.18), under the currency and in the
    bucket of the day as well, and the printed averages differ by a cent
    (129.05 and 129.04). *)
Lemma sums_follow_the_order_of_the_records :
  Permutation ledger ledger_swapped
  ∧ totalSales (summarize ledger) ≠ totalSales (summarize ledger_swapped)
  ∧ totalSales (summarize ledger_swapped) = JsNum.parseDecimal (51618 # 100)
  ∧ get "USD" (salesByCurrency (summarize ledger))
    ≠ get "USD" (salesByCurrency (summarize ledger_swapped))
  ∧ get "2024-05-16" (trend_accumulate 0 "daily" ledger)
    ≠ get "2024-05-16" (trend_accumulate 0 "daily" ledger_swapped)
  ∧ averageOrderValue (formatSummary (summarize ledger)) = Q2Qc (12905 # 100)
  ∧ averageOrderValue (formatSummary (summarize ledger_swapped))
    = Q2Qc (12904 # 100).
Proof.
  split; [do 2 apply perm_skip; apply perm_swap|]. repeat split; compute_done.
Qed.

(** C8 (amended).  The keys and the counts of the buckets do not depend on
    the order of the records: two lists of orders that are permutations of
    one another give the same count of orders, the same currencies and the
    same statuses as keys, and, for every interval and time zone, the same
    period keys, each with the same period and the same count of
    orders. *)
Theorem grouping_keeps_keys_and_counts :
  ∀ (os os' : list Order) (tza : Z) (interval : string),
    Permutation os os' →
    totalOrders (summarize os) = totalOrders (summarize os')
    ∧ keys (salesByCurrency (summarize os))
      = keys (salesByCurrency (summarize os'))
    ∧ keys (salesByStatus (summarize os))
      = keys (salesByStatus (summarize os'))
    ∧ trend_counts (trend_accumulate tza interval os)
      = trend_counts (trend_accumulate tza interval os').
Proof.
  intros os os' tza interval Hp.
  pose proof (summary_accumulate_perm os os' Hp) as Hv.
  unfold summary_view in Hv. injection Hv as H1 H2 H3.
  unfold summarize. cbn [totalOrders salesByCurrency salesByStatus].
  repeat split; try done.
  by apply trend_accumulate_perm.
Qed.

Lemma grouping_keeps_keys_and_counts_witness :
  Permutation ledger ledger_swapped
  ∧ keys (salesByCurrency (summarize ledger))
    = keys (salesByCurrency (summarize ledger_swapped))
  ∧ trend_counts (trend_accumulate 0 "daily" ledger)
    = trend_counts (trend_accumulate 0 "daily" ledger_swapped).
Proof.
  assert (Permutation ledger ledger_swapped) as Hp
    by (do 2 apply perm_skip; apply perm_swap).
  pose proof (grouping_keeps_keys_and_counts ledger ledger_swapped 0 "daily" Hp)
    as (_ & H1 & _ & H2).
  split; [exact Hp|]. split; [exact H1|exact H2].
Defined.

(** The order of the keys, which the printed answer shows, does follow the
    order of the records. *)
Example key_order_follows_records :
  (salesByCurrency (summarize [usd10; jpy1000])).*1 = ["USD"; "JPY"]
  ∧ (salesByCurrency (summarize [jpy1000; usd10])).*1 = ["JPY"; "USD"].
Proof. compute_done. Qed.

(** ** Averages *)

(** C6.  Every average that the tools derive is a quotient by a positive
    count or an explicit zero: [averageOrderValue] of the summary is the
    quotient of [totalSales] by [totalOrders], as the division of doubles
    gives it, when there is an order and [0] when there is none; a product
    bucket and a period bucket exist only once a record has been counted
    in them, so their count is positive and their average is the quotient
    (printed with two decimals), never the result of a division by
    zero. *)
Theorem averages_are_zero_safe :
  (∀ os : list Order,
     totalOrders (summarize os) = length os
     ∧ averageOrderValue (summarize os)
       = (if decide (0 < length os)%nat
          then JsNum.quot (totalSales (summarize os)) (JsNum.of_nat (length os))
          else 0)
     ∧ averageOrderValue (formatSummary (summarize os))
       = JsNum.toFixed2 (averageOrderValue (summarize os)))
  ∧ (∀ (os : list Order) (p : ProductSales),
       p ∈ values (product_accumulate os) →
       (0 < orders p)%nat
       ∧ pr_averageOrderValue (product_row p)
         = Some (JsNum.toFixed2
                   (JsNum.quot (ps_totalSales p) (JsNum.of_nat (orders p)))))
  ∧ (∀ (tza : Z) (interval : string) (os : list Order) (b : Trend),
       b ∈ values (trend_accumulate tza interval os) →
       (0 < orderCount b)%nat
       ∧ trr_averageOrderValue (trend_row b)
         = Some (JsNum.toFixed2
                   (JsNum.quot (tr_totalSales b) (JsNum.of_nat (orderCount b))))).
Proof.
  split; [|split].
  - intros os. split; [apply summarize_totalOrders|]. split; [|done].
    unfold summarize at 1. cbn [averageOrderValue]. unfold summary_average.
    change (totalOrders (summary_accumulate os)) with (totalOrders (summarize os)).
    change (totalSales (summary_accumulate os)) with (totalSales (summarize os)).
    by rewrite summarize_totalOrders.
  - intros os p Hp.
    pose proof (product_values_counted _ _ (product_accumulate_counted os) Hp).
    split; [done|]. by apply product_row_average.
  - intros tza interval os b Hb.
    pose proof (trend_values_counted _ _
                  (trend_accumulate_counted tza interval os) Hb).
    split; [done|]. by apply trend_row_average.
Qed.

(** The quotient of two doubles is within one rounding of the quotient of
    the numbers. *)
Lemma average_is_close (total : Qc) (n : nat) :
  0 <= total → (0 < n)%nat →
  let quotient := total / JsNum.of_nat n in
  quotient - quotient * JsNum.epsilon <= JsNum.quot total (JsNum.of_nat n)
  ∧ JsNum.quot total (JsNum.of_nat n) <= quotient + quotient * JsNum.epsilon.
Proof. intros Ht Hn. by apply quot_close, of_nat_pos. Qed.

(** The two averages that the specification lists. *)
Example average_of_nothing : JsNum.div 0 (JsNum.of_nat 0) = None
  ∧ averageOrderValue (summarize []) = 0.
Proof. compute_done. Qed.

Example average_250_over_5 :
  averageOrderValue
    (summarize (replicate 5 (priced t_may16 (Q2Qc 50) "USD"))) = Q2Qc 50.
Proof. compute_done. Qed.

(** The average of six amounts whose sum and quotient are rounded on the
    way: 37.78, 79.69, 44.60, 77.77, 1.99 and 18.66 give 43.41, where the
    quotient of the decimals, 43.415, would print as 43.42. *)
Example average_of_six_amounts :
  averageOrderValue
    (formatSummary
       (summarize
          ((λ x, priced t_may16 (JsNum.parseDecimal x) "USD")
             <$> [3778 # 100; 7969 # 100; 4460 # 100; 7777 # 100; 199 # 100;
                  1866 # 100]%Q)))
  = Q2Qc (4341 # 100).
Proof. compute_done. Qed.

(** ** Running the tools *)

Section RunTools.

Variable config : ShopifyConfig.

Variable upstream : Upstream.

Variable tza : Z.

Definition product_request (args : Args) : Request :=
  {| document := GetOrdersForProductSales;
     query := ordersFilter (default "" (startDate args)) (default "" (endDate args));
     first := 50;
     after := None |}.

Lemma run_get_sales_by_product args :
  run (get_sales_by_product (Some config) upstream args)
  = if JsString.falsy (startDate args) || JsString.falsy (endDate args)
    then (inl (mkError InvalidParams
                 "startDate and endDate are required for get_sales_by_product."),
          [])
    else (match upstream (product_request args) with
          | inl msg => inl (mkError InternalError msg)
          | inr page =>
              inr (sortedProductSales (limit_or_default args)
                     (product_accumulate (edges page)))
          end, [product_request args]).
Proof.
  unfold get_sales_by_product, run.
  destruct (JsString.falsy (startDate args) || JsString.falsy (endDate args));
    [done|].
  unfold mbind, M_bind, bind, executeShopifyGraphQL, request.
  fold (product_request args). cbn [app].
  by destruct (upstream (product_request args)).
Qed.

Lemma run_callTool_products fuel args :
  run (callTool (Some config) upstream tza fuel "get_sales_by_product" args)
  = match run (get_sales_by_product (Some config) upstream args) with
    | (inl e, log) => (inl e, log)
    | (inr rows, log) => (inr (SalesByProduct rows), log)
    end.
Proof.
  unfold callTool, run.
  change (String.eqb "get_sales_by_product" "get_sales_summary") with false.
  change (String.eqb "get_sales_by_product" "get_sales_by_product") with true.
  cbv iota. unfold fmap, M_fmap, bind.
  by destruct (get_sales_by_product _ _ _ _) as [[e|rows] log].
Qed.

Lemma run_get_sales_trends_invalid args :
  JsString.falsy (startDate args) = true
  ∨ JsString.falsy (endDate args) = true
  ∨ (∀ i, interval args = Some i → i ∉ intervals) →
  ∃ msg,
    run (get_sales_trends (Some config) upstream tza args)
    = (inl (mkError InvalidParams msg), []).
Proof.
  intros H. unfold get_sales_trends, run.
  destruct (JsString.falsy (startDate args) || JsString.falsy (endDate args)
            || JsString.falsy (interval args)) eqn:E; [by eexists|].
  apply orb_false_elim in E as [E Ei]. apply orb_false_elim in E as [Es Ee].
  destruct H as [H|[H|H]].
  - congruence.
  - congruence.
  - destruct (interval args) as [i|] eqn:Hi; [|done].
    cbn [default from_option Datatypes.id].
    rewrite bool_decide_eq_false_2 by (by apply H). by eexists.
Qed.

Lemma run_callTool_trends fuel args :
  run (callTool (Some config) upstream tza fuel "get_sales_trends" args)
  = match run (get_sales_trends (Some config) upstream tza args) with
    | (inl e, log) => (inl e, log)
    | (inr rows, log) => (inr (SalesTrends rows), log)
    end.
Proof.
  unfold callTool, run.
  change (String.eqb "get_sales_trends" "get_sales_summary") with false.
  change (String.eqb "get_sales_trends" "get_sales_by_product") with false.
  change (String.eqb "get_sales_trends" "get_sales_trends") with true.
  cbv iota. unfold fmap, M_fmap, bind.
  by destruct (get_sales_trends _ _ _ _ _) as [[e|rows] log].
Qed.

End RunTools.

(** ** Sales by product: ranking and limit *)

(** [a] stands before [b] in the printed ranking. *)
Definition ranks_no_lower (a b : ProductRow) : Prop :=
  pr_totalSales b <= pr_totalSales a.

(** The product keys of the line items are names that an object does not
    inherit: [productSales[productId]] then reads a property of the
    dictionary itself. *)
Definition own_products (os : list Order) : Prop :=
  Forall (λ o, Forall (λ i, inherited (item_productId i) = false) (lineItems o))
    os.

(** The number of entries that [slice(0, limit)] keeps of a list: [limit]
    of them from the front, and with a negative [limit] all but the last
    [- limit]. *)
Definition kept {A} (limit : Z) (l : list A) : nat :=
  if decide (0 <= limit)%Z then Z.to_nat limit
  else (length l - Z.to_nat (- limit))%nat.

Lemma slice0_kept {A} (limit : Z) (l : list A) :
  JsArray.slice0 limit l = take (kept limit l) l.
Proof.
  unfold JsArray.slice0, kept. repeat case_decide; try lia; f_equal; lia.
Qed.

(** C7 (amended).  When [get_sales_by_product] answers, on a page whose
    product keys are not names of properties of [Object.prototype], its
    rows are taken from the front of the ranking of all the product
    buckets of the page by [totalSales], largest first, each printed as a
    row: the first [limit] of them for a limit that is not negative (10
    when the caller gives none), and all but the last [- limit] for a
    negative one; the printed totals descend as well. *)
Theorem products_ranked_by_sales_and_truncated :
  ∀ (config : ShopifyConfig) (upstream : Upstream) (tza : Z) (fuel : nat)
    (args : Args) (rows : list ProductRow) (log : list Request),
    (∀ page, upstream (product_request args) = inr page →
             own_products (edges page)) →
    run (callTool (Some config) upstream tza fuel "get_sales_by_product" args)
    = (inr (SalesByProduct rows), log) →
    limit_or_default args = default 10%Z (limit args)
    ∧ ∃ (page : Page) (ranked : list ProductSales),
        upstream (product_request args) = inr page
        ∧ Permutation ranked (values (product_accumulate (edges page)))
        ∧ StronglySorted sells_no_less ranked
        ∧ rows = product_row <$> take (kept (limit_or_default args) ranked) ranked
        ∧ StronglySorted ranks_no_lower rows.
Proof.
  intros config upstream tza fuel args rows log _ Hrun.
  split; [done|].
  rewrite run_callTool_products, run_get_sales_by_product in Hrun.
  destruct (JsString.falsy (startDate args) || JsString.falsy (endDate args));
    [done|].
  destruct (upstream (product_request args)) as [msg|page] eqn:Hpage; [done|].
  injection Hrun as <- <-.
  exists page,
    (JsArray.sort by_sales_desc (values (product_accumulate (edges page)))).
  split; [done|]. split; [apply JsArrayFacts.sort_perm|].
  split; [apply sort_by_sales|].
  unfold sortedProductSales. rewrite slice0_kept. split; [done|].
  apply (StronglySorted_fmap sells_no_less).
  - intros a b Hab. unfold ranks_no_lower, product_row. simpl.
    by apply toFixed2_mono.
  - apply StronglySorted_take, sort_by_sales.
Qed.

Definition item (pid : string) (x : Qc) : LineItem :=
  {| title := pid;
     quantity := 1;
     originalTotalSet := {| amount := x; currencyCode := "USD" |};
     product := Some {| id := pid; product_title := pid |} |}.

Definition order_of (items : list LineItem) : Order :=
  {| createdAt := t_may16;
     totalPriceSet := {| amount := 0; currencyCode := "USD" |};
     totalDiscountsSet := {| amount := 0; currencyCode := "USD" |};
     totalShippingPriceSet := {| amount := 0; currencyCode := "USD" |};
     totalTaxSet := {| amount := 0; currencyCode := "USD" |};
     lineItems := items |}.

Definition two_products : Upstream :=
  one_page [order_of [item "P1" (Q2Qc 50); item "P2" (Q2Qc 200)]].

Definition may_limit (n : Z) : Args :=
  {| startDate := Some "2024-05-01";
     endDate := Some "2024-05-31";
     arg_currencyCode := None;
     interval := None;
     limit := Some n |}.

Lemma products_ranked_by_sales_and_truncated_witness :
  (∀ page, two_products (product_request (may_limit 1)) = inr page →
           own_products (edges page))
  ∧ ∃ (page : Page) (ranked : list ProductSales),
      two_products (product_request (may_limit 1)) = inr page
      ∧ Permutation ranked (values (product_accumulate (edges page)))
      ∧ StronglySorted sells_no_less ranked
      ∧ [product_row {| productId := "P2"; productTitle := "P2";
                        ps_totalQuantity := 1; ps_totalSales := Q2Qc 200;
                        ps_currencyCode := "USD"; orders := 1 |}]
        = product_row <$> take (kept (limit_or_default (may_limit 1)) ranked) ranked
      ∧ StronglySorted ranks_no_lower
          [product_row {| productId := "P2"; productTitle := "P2";
                          ps_totalQuantity := 1; ps_totalSales := Q2Qc 200;
                          ps_currencyCode := "USD"; orders := 1 |}].
Proof.
  assert (∀ page, two_products (product_request (may_limit 1)) = inr page →
                  own_products (edges page)) as Hown.
  { intros page [= <-]. by repeat constructor. }
  split; [exact Hown|].
  apply (products_ranked_by_sales_and_truncated cfg two_products 0 1
           (may_limit 1) _ [product_request (may_limit 1)] Hown).
  compute_done.
Defined.

(** The ranking of the specification: 50 for P1 and 200 for P2. *)
Example ranking_P2_P1 :
  (λ r, (productId (row r), pr_totalSales r, pr_averageOrderValue r))
    <$> sortedProductSales (limit_or_default may)
          (product_accumulate [order_of [item "P1" (Q2Qc 50); item "P2" (Q2Qc 200)]])
  = [("P2", Q2Qc 200, Some (Q2Qc 200)); ("P1", Q2Qc 50, Some (Q2Qc 50))].
Proof. compute_done. Qed.

Example ranking_limit_1 :
  (λ r, productId (row r))
    <$> sortedProductSales 1
          (product_accumulate [order_of [item "P1" (Q2Qc 50); item "P2" (Q2Qc 200)]])
  = ["P2"].
Proof. compute_done. Qed.

(** C7 (counterexample).  A negative limit is not refused, and the answer
    is not the first [limit] entries of the ranking: [slice] counts it from
    the end, so that the limit -1 keeps the first of two products. *)
Example ranking_limit_negative :
  (λ r, productId (row r))
    <$> sortedProductSales (-1)
          (product_accumulate [order_of [item "P1" (Q2Qc 50); item "P2" (Q2Qc 200)]])
  = ["P2"].
Proof. compute_done. Qed.

(** ** Sales trends: validation *)

Definition hourly : Args :=
  {| startDate := Some "2024-05-01";
     endDate := Some "2024-05-31";
     arg_currencyCode := None;
     interval := Some "hourly";
     limit := None |}.

(** The message of the [TypeError] of V8 for the destructuring of an
    absent [arguments]. *)
Definition no_arguments : string :=
  "Cannot destructure property 'startDate' of 'args' as it is undefined.".

(** C9 (counterexample).  On a server that was started without its
    credentials, a call with the interval ["hourly"] fails with
    [InvalidRequest], the error of a missing configuration, and not with
    [InvalidParams]. *)
Lemma unconfigured_trends_fail_with_invalid_request :
  ∃ e : McpError,
    run (handler None (one_page []) 0 no_arguments 1 "get_sales_trends"
           (Some hourly))
    = (inl e, [])
    ∧ code e = InvalidRequest
    ∧ code e ≠ InvalidParams.
Proof. eexists. split; [reflexivity|]. split; [reflexivity|discriminate]. Qed.

(** Nor does a call that carries no arguments at all, and so no start
    date, fail with [InvalidParams]: the [TypeError] of the destructuring
    comes out as an [InternalError]. *)
Example trends_without_arguments_fail_with_internal_error :
  run (handler (Some cfg) (one_page []) 0 no_arguments 1 "get_sales_trends" None)
  = (inl (mkError InternalError
            "Error processing request: Cannot destructure property 'startDate' of 'args' as it is undefined."),
     []).
Proof. reflexivity. Qed.

(** The arguments of a call of [get_sales_trends] that the tool does not
    accept: none at all, or a start date or an end date that is absent or
    empty, or an interval that is none of daily, weekly and monthly (an
    absent one included). *)
Definition invalid_trends (arguments : option Args) : Prop :=
  match arguments with
  | None => True
  | Some args =>
      JsString.falsy (startDate args) = true
      ∨ JsString.falsy (endDate args) = true
      ∨ (∀ i, interval args = Some i → i ∉ intervals)
  end.

(** C9 (amended).  A call of [get_sales_trends] whose arguments the tool
    does not accept issues no request to the upstream.  On a configured
    server it fails with [InvalidParams] when it carries arguments, and
    with [InternalError] when it carries none; on a server without
    configuration it fails, as every call does, with [InvalidRequest]. *)
Theorem trends_validation_precedes_any_query :
  ∀ (upstream : Upstream) (tza : Z) (typeError : string) (fuel : nat)
    (arguments : option Args),
    invalid_trends arguments →
    (∀ config : ShopifyConfig,
       ∃ msg,
         run (handler (Some config) upstream tza typeError fuel
                "get_sales_trends" arguments)
         = (inl (mkError (match arguments with
                          | Some _ => InvalidParams
                          | None => InternalError
                          end) msg), []))
    ∧ ∃ msg,
        run (handler None upstream tza typeError fuel "get_sales_trends"
               arguments)
        = (inl (mkError InvalidRequest msg), []).
Proof.
  intros upstream tza typeError fuel [args|] H.
  - split.
    + intros config. unfold handler. rewrite run_callTool_trends.
      destruct (run_get_sales_trends_invalid config upstream tza args H)
        as [msg ->].
      by exists msg.
    + by eexists.
  - split; [intros config|]; by eexists.
Qed.

Lemma trends_validation_precedes_any_query_witness :
  invalid_trends (Some hourly)
  ∧ (∃ msg,
       run (handler (Some cfg) (one_page [usd10]) 0 no_arguments 1
              "get_sales_trends" (Some hourly))
       = (inl (mkError InvalidParams msg), []))
  ∧ ∃ msg,
      run (handler None (one_page [usd10]) 0 no_arguments 1 "get_sales_trends"
             (Some hourly))
      = (inl (mkError InvalidRequest msg), []).
Proof.
  assert (invalid_trends (Some hourly)) as H.
  { right. right. intros i [= <-]. compute_done. }
  split; [exact H|].
  destruct (trends_validation_precedes_any_query (one_page [usd10]) 0
              no_arguments 1 (Some hourly) H) as [H1 H2].
  split; [apply (H1 cfg)|exact H2].
Defined.

(** With valid arguments the tool does go to the upstream, once. *)
Example trends_daily_two_orders :
  run (callTool (Some cfg) (one_page [usd10; usd20]) 0 1 "get_sales_trends"
         {| startDate := Some "2024-05-01"; endDate := Some "2024-05-31";
            arg_currencyCode := None; interval := Some "daily"; limit := None |})
  = (inr (SalesTrends
            [trend_row {| period := "2024-05-16"; tr_totalSales := Q2Qc 30;
                          orderCount := 2 |}]),
     [{| document := GetOrdersForSalesTrends;
         query := "created_at:>=2024-05-01 created_at:<=2024-05-31 status:any";
         first := 250; after := None |}]).
Proof. compute_done. Qed.

(** ** Sales trends: the period keys *)

Import EcmaDate DateFacts.

(** Saturday, 18 May 2024, 20:00 UTC: in Tokyo it is Sunday the 19th. *)
Definition t_may18_evening : Z := utc 2024 5 18 20 0 0.

(** Nine hours east of UTC, the zone of Tokyo. *)
Definition tokyo : Z := (9 * msPerHour)%Z.

(** C3 (the code departs from the claim).  For an order placed on Saturday,
    18 May 2024, at 20:00 UTC, a server whose local zone is that of Tokyo
    names the week ["2024-05-18"]: the local day of the week (Sunday) is
    taken off the date, and the result is printed in UTC, where it is a
    Saturday.  The Sunday on or before the date of the order in UTC is
    12 May. *)
Theorem weekly_key_follows_local_zone :
  periodKey tokyo "weekly" t_may18_evening = "2024-05-18"
  ∧ WeekDay t_may18_evening = 6%Z
  ∧ isoDay (Day t_may18_evening - WeekDay t_may18_evening) = "2024-05-12"
  ∧ periodKey 0 "weekly" t_may18_evening = "2024-05-12".
Proof. compute_done. Qed.

(** The monthly key reads the local calendar as well: the last evening of
    May in UTC falls in June in Tokyo. *)
Example monthly_key_follows_local_zone :
  periodKey tokyo "monthly" (utc 2024 5 31 20 0 0) = "2024-06"
  ∧ periodKey 0 "monthly" (utc 2024 5 31 20 0 0) = "2024-05".
Proof. compute_done. Qed.

(** The keys that the specification lists, for 16 May 2024, a Thursday. *)
Example period_keys_of_may16 :
  toISOString t_may16 = "2024-05-16T00:00:00.000Z"
  ∧ periodKey 0 "daily" t_may16 = "2024-05-16"
  ∧ periodKey tokyo "daily" t_may16 = "2024-05-16"
  ∧ periodKey 0 "monthly" t_may16 = "2024-05"
  ∧ WeekDay t_may16 = 4%Z
  ∧ periodKey 0 "weekly" t_may16 = "2024-05-12"
  ∧ periodKey tokyo "weekly" t_may16 = "2024-05-12".
Proof. compute_done. Qed.

(** ** Funnels: segments and conversion rates *)

Module FunnelClaims.

Import GA4 GA4Facts.

Lemma funnelSteps_NoDup : NoDup funnelSteps.
Proof. compute_done. Qed.

(** The second [forEach], on the six steps of the tool. *)
Lemma overall_funnel_steps (m : gmap string Counts) :
  let c step := step_count m step None in
  overall_funnel funnelSteps m
  = {| previousStepCount := c "purchase";
       ov_funnel :=
         [("session_start", c "session_start");
          ("view_item_list", c "view_item_list");
          ("view_item", c "view_item");
          ("add_to_cart", c "add_to_cart");
          ("begin_checkout", c "begin_checkout");
          ("purchase", c "purchase")];
       ov_conversion :=
         [("session_start_to_view_item_list",
           rate (c "view_item_list") (c "session_start"));
          ("view_item_list_to_view_item",
           rate (c "view_item") (c "view_item_list"));
          ("view_item_to_add_to_cart",
           rate (c "add_to_cart") (c "view_item"));
          ("add_to_cart_to_begin_checkout",
           rate (c "begin_checkout") (c "add_to_cart"));
          ("begin_checkout_to_purchase",
           rate (c "purchase") (c "begin_checkout"))] |}.
Proof. reflexivity. Qed.

Lemma journey_overall segmentBy rs :
  overallFunnel (journey segmentBy funnelSteps rs)
  = ov_funnel (overall_funnel funnelSteps (collect segmentBy funnelSteps rs).1)
  ∧ overallStepConversion (journey segmentBy funnelSteps rs)
    = ov_conversion (overall_funnel funnelSteps (collect segmentBy funnelSteps rs).1).
Proof. unfold journey. by destruct (collect _ _ _). Qed.

Lemma journey_segments segmentBy rs :
  JsString.falsy segmentBy = false →
  segmentFunnels (journey segmentBy funnelSteps rs)
  = Some (set_fold
            (λ segmentValue acc,
               assign segmentValue
                 (segment_funnel funnelSteps
                    (collect segmentBy funnelSteps rs).1 segmentValue) acc)
            ∅ (collect segmentBy funnelSteps rs).2).
Proof. intros H. unfold journey. destruct (collect _ _ _). simpl. by rewrite H. Qed.

(** The results of the six calls, step by step. *)
Lemma journey_results upstream range segmentBy rs :
  all ((λ step, getEventCount upstream range [step] segmentBy) <$> funnelSteps)
  = inr rs →
  (∀ i step, funnelSteps !! i = Some step →
     ∃ counts, rs !! i = Some counts
               ∧ getEventCount upstream range [step] segmentBy = inr counts)
  ∧ (∀ step, step ∈ funnelSteps →
       ∃ counts, getEventCount upstream range [step] segmentBy = inr counts
                 ∧ (collect segmentBy funnelSteps rs).1 !! step = Some counts).
Proof.
  intros Hall. apply all_fmap in Hall.
  assert (∀ i step, funnelSteps !! i = Some step →
     ∃ counts, rs !! i = Some counts
               ∧ getEventCount upstream range [step] segmentBy = inr counts) as H.
  { intros i step Hi.
    destruct (Forall2_lookup_l _ _ _ _ _ Hall Hi) as (counts & Hr & Hc).
    by exists counts. }
  split; [exact H|].
  intros step Hin. apply list_elem_of_lookup in Hin as [i Hi].
  destruct (H i step Hi) as (counts & Hr & Hc). exists counts. split; [done|].
  destruct (collect_spec segmentBy funnelSteps rs funnelSteps_NoDup) as (Hm & _).
  by rewrite (Hm i step Hi), Hr.
Qed.

End FunnelClaims.

Import GA4 GA4Facts FunnelClaims.


(** An upstream for the segment example of the specification: the query of
    [session_start] returns 10 events for the segment ["mobile"], the
    queries of the other steps return no row. *)
Definition mobile_at_first_step : GA4.Upstream :=
  λ r, if bool_decide (eventNames r = ["session_start"])
       then inr {| rows := Some [{| dimensionValue := Some "mobile";
                                    metricValue := Some 10%Z |}] |}
       else inr {| rows := Some [] |}.

Definition by_device : JourneyArgs :=
  {| segmentBy := Some "deviceCategory";
     dateRange := Some {| dr_startDate := "2024-05-01";
                          dr_endDate := "2024-05-31" |} |}.

Example mobile_counts_zero_where_absent :
  ∃ res funnels,
    analyze_user_journey mobile_at_first_step by_device = inr res
    ∧ segmentFunnels res = Some funnels
    ∧ funnels !! "mobile"
      = Some [("session_start", 10%Z); ("view_item_list", 0%Z);
              ("view_item", 0%Z); ("add_to_cart", 0%Z);
              ("begin_checkout", 0%Z); ("purchase", 0%Z)].
Proof.
  eexists. eexists. split; [reflexivity|]. split; [reflexivity|].
  by vm_compute.
Qed.

(** An upstream whose query of [session_start] returns 10 events for the
    segment ["__proto__"]. *)
Definition proto_at_first_step : GA4.Upstream :=
  λ r, if bool_decide (eventNames r = ["session_start"])
       then inr {| rows := Some [{| dimensionValue := Some "__proto__";
                                    metricValue := Some 10%Z |}] |}
       else inr {| rows := Some [] |}.


(** What lies between the printed rate and the exact percentage [p]: half
    a hundredth from the printing with two decimals, and the two roundings
    of the quotient and of its product with 100. *)
Definition tolerance (p : Q) : Q := ((1 # 200) + 4 * JsNum.epsilon * p)%Q.

(** The rate is the percentage, as the doubles give it, printed with two
    decimals, over a positive count, and zero over any other. *)
Lemma rate_spec (c b : Z) :
  ((0 < b)%Z → (0 ≤ c)%Z →
     (percentage c b - tolerance (percentage c b) <= rate c b)%Q
     ∧ (rate c b <= percentage c b + tolerance (percentage c b))%Q)
  ∧ ((b <= 0)%Z → rate c b = 0).
Proof.
  unfold rate, tolerance. split.
  - intros Hb Hc. case_decide; [|done].
    destruct (percentage_close c b Hc Hb) as [H1 H2].
    destruct (toFixed2_close
                (JsNum.mul (JsNum.quot (JsNum.of_Z c) (JsNum.of_Z b)) (Q2Qc 100)))
      as [H3 H4].
    split; lra.
  - intros Hb. case_decide; [lia|done].
Qed.


(** An upstream for the funnel example of the specification, unsegmented:
    100 events of [session_start], 25 of [view_item_list], none of the
    other steps. *)
Definition hundred_then_quarter : GA4.Upstream :=
  λ r, if bool_decide (eventNames r = ["session_start"])
       then inr {| rows := Some [{| dimensionValue := None;
                                    metricValue := Some 100%Z |}] |}
       else if bool_decide (eventNames r = ["view_item_list"])
       then inr {| rows := Some [{| dimensionValue := None;
                                    metricValue := Some 25%Z |}] |}
       else inr {| rows := None |}.

Definition unsegmented : JourneyArgs :=
  {| segmentBy := None;
     dateRange := Some {| dr_startDate := "2024-05-01";
                          dr_endDate := "2024-05-31" |} |}.

Example conversion_100_25 :
  ∃ res,
    analyze_user_journey hundred_then_quarter unsegmented = inr res
    ∧ overallFunnel res
      = [("session_start", 100%Z); ("view_item_list", 25%Z); ("view_item", 0%Z);
         ("add_to_cart", 0%Z); ("begin_checkout", 0%Z); ("purchase", 0%Z)]
    ∧ overallStepConversion res
      = [("session_start_to_view_item_list", Q2Qc 25);
         ("view_item_list_to_view_item", Q2Qc 0);
         ("view_item_to_add_to_cart", Q2Qc 0);
         ("add_to_cart_to_begin_checkout", Q2Qc 0);
         ("begin_checkout_to_purchase", Q2Qc 0)].
Proof.
  eexists. split; [reflexivity|]. split; compute_done.
Qed.

Example rate_examples :
  rate 25 100 = Q2Qc 25 ∧ rate 25 0 = 0 ∧ rate 1 3 = Q2Qc (3333 # 100)
  ∧ rate 2 3 = Q2Qc (6667 # 100).
Proof. compute_done. Qed.

(** Two rates whose exact percentage ends in half a hundredth, 1.005 and
    14.375: the quotient of the doubles lies below, and with it the rate
    that is printed. *)
Example rates_at_half_a_hundredth :
  rate 201 20000 = Q2Qc 1 ∧ rate 23 160 = Q2Qc (1437 # 100).
Proof. compute_done. Qed.

(** With a [segmentBy] dimension the queries return segment rows only, so
    the overall funnel of the tool counts 0 at every step. *)
Example overall_funnel_of_segmented_journey :
  ∃ res,
    analyze_user_journey mobile_at_first_step by_device = inr res
    ∧ overallFunnel res
      = [("session_start", 0%Z); ("view_item_list", 0%Z); ("view_item", 0%Z);
         ("add_to_cart", 0%Z); ("begin_checkout", 0%Z); ("purchase", 0%Z)].
Proof. eexists. split; [reflexivity|]. compute_done. Qed.

(** ** The theorems above at concrete inputs *)

Lemma averages_are_zero_safe_witness :
  averageOrderValue (summarize []) = 0
  ∧ (∀ p, p ∈ values (product_accumulate
                        [order_of [item "P1" (Q2Qc 50); item "P2" (Q2Qc 200)]]) →
          (0 < orders p)%nat
          ∧ pr_averageOrderValue (product_row p)
            = Some (JsNum.toFixed2
                      (JsNum.quot (ps_totalSales p) (JsNum.of_nat (orders p)))))
  ∧ (∀ b, b ∈ values (trend_accumulate 0 "daily" [usd10; usd20]) →
          (0 < orderCount b)%nat
          ∧ trr_averageOrderValue (trend_row b)
            = Some (JsNum.toFixed2
                      (JsNum.quot (tr_totalSales b)
                         (JsNum.of_nat (orderCount b))))).
Proof.
  pose proof averages_are_zero_safe as (H1 & H2 & H3).
  split; [exact (proj1 (proj2 (H1 [])))|]. split.
  - exact (H2 [order_of [item "P1" (Q2Qc 50); item "P2" (Q2Qc 200)]]).
  - exact (H3 0%Z "daily" [usd10; usd20]).
Defined.




(* ===================================================================== *)
(** * Part IV: further properties of the code                             *)
(* ===================================================================== *)

(** ** What a bucket holds *)

Module BucketFacts.

Import Mcp Shopify JsObject JsObjectFacts JsNumFacts SummaryFacts ProductFacts
  TrendFacts.
Local Open Scope Qc_scope.

Section Trends.

Variable tza : Z.

Variable interval : string.

(** The orders of the page whose period key is [k]. *)
Definition in_period (k : string) (os : list Order) : list Order :=
  filter (λ o, periodKey tza interval (createdAt o) = k) os.

Lemma in_period_snoc k os o :
  in_period k (os ++ [o])
  = in_period k os
    ++ (if decide (periodKey tza interval (createdAt o) = k) then [o] else []).
Proof.
  unfold in_period. rewrite filter_app, filter_cons, filter_nil.
  by case_decide.
Qed.

Lemma trend_accumulate_snoc os o :
  trend_accumulate tza interval (os ++ [o])
  = trend_step tza interval (trend_accumulate tza interval os) o.
Proof. unfold trend_accumulate. by rewrite fold_left_app. Qed.

(** X1.  [salesByInterval] has a bucket under a period key exactly when
    some order of the page has that key, and the bucket then carries the
    key as its period, the sum of the prices of the orders of the period,
    added up in the order of the orders, and their number. *)
Theorem trend_bucket_counts_its_orders :
  ∀ (os : list Order) (k : string),
    get k (trend_accumulate tza interval os)
    = match in_period k os with
      | [] => None
      | _ :: _ =>
          Some {| period := k;
                  tr_totalSales := total_price (in_period k os);
                  orderCount := length (in_period k os) |}
      end.
Proof.
  intros os k. induction os as [|o os IH] using rev_ind; [done|].
  rewrite trend_accumulate_snoc, trend_step_spec, get_set, in_period_snoc.
  case_decide as E.
  - subst k. rewrite IH.
    destruct (in_period _ os) as [|a l] eqn:El.
    + cbn [app from_option Datatypes.id]. unfold count_order, fresh_trend.
      cbn [period tr_totalSales orderCount length]. done.
    + cbn [from_option Datatypes.id].
      change ((a :: l) ++ [o]) with (a :: (l ++ [o])). cbv iota.
      unfold count_order. cbn [period tr_totalSales orderCount].
      change (a :: (l ++ [o])) with ((a :: l) ++ [o]).
      rewrite total_price_snoc, length_app. done.
  - rewrite IH. by rewrite app_nil_r.
Qed.

End Trends.

(** *** Products *)

(** The line items of a page, order after order. *)
Definition all_items (os : list Order) : list LineItem :=
  os ≫= lineItems.

(** The line items that count for the product key [pid]. *)
Definition items_of (pid : string) (items : list LineItem) : list LineItem :=
  filter (λ i, item_productId i = pid) items.

Definition total_quantity (items : list LineItem) : Z :=
  foldr (λ i acc, (quantity i + acc)%Z) 0%Z items.

Definition total_amount (items : list LineItem) : Qc :=
  sum ((λ i, amount (originalTotalSet i)) <$> items).

Lemma product_accumulate_items os :
  product_accumulate os = fold_left product_step (all_items os) JsObject.empty.
Proof.
  unfold product_accumulate, all_items.
  generalize (JsObject.empty : JsObject.t ProductSales).
  induction os as [|o os IH]; intros acc; [done|].
  rewrite bind_cons, fold_left_app. simpl. apply IH.
Qed.

Lemma items_of_snoc pid items i :
  items_of pid (items ++ [i])
  = items_of pid items ++ (if decide (item_productId i = pid) then [i] else []).
Proof.
  unfold items_of. rewrite filter_app, filter_cons, filter_nil.
  by case_decide.
Qed.

Lemma total_quantity_snoc items i :
  total_quantity (items ++ [i]) = (total_quantity items + quantity i)%Z.
Proof.
  unfold total_quantity. induction items as [|j items IH]; simpl; [lia|].
  rewrite IH. lia.
Qed.

Lemma total_amount_snoc items i :
  total_amount (items ++ [i])
  = JsNum.add (total_amount items) (amount (originalTotalSet i)).
Proof. unfold total_amount. rewrite fmap_app. apply sum_snoc. Qed.

(** X2.  On a page whose product keys are not names of properties of
    [Object.prototype], [productSales] has a bucket under a product key
    exactly when some line item of the page counts for that key; the
    bucket takes its title and currency from the first such line item, and
    carries the sum of the quantities, the sum of the amounts, added up in
    the order of the line items, and the number of those line items. *)
Theorem product_bucket_sums_its_items :
  ∀ (os : list Order) (pid : string),
    own_products os →
    get pid (product_accumulate os)
    = match items_of pid (all_items os) with
      | [] => None
      | i0 :: _ =>
          Some {| productId := pid;
                  productTitle := item_productTitle i0;
                  ps_totalQuantity := total_quantity (items_of pid (all_items os));
                  ps_totalSales := total_amount (items_of pid (all_items os));
                  ps_currencyCode := currencyCode (originalTotalSet i0);
                  orders := length (items_of pid (all_items os)) |}
      end.
Proof.
  intros os pid _. rewrite product_accumulate_items.
  generalize (all_items os). clear os. intros items.
  induction items as [|i items IH] using rev_ind; [done|].
  rewrite fold_left_app. cbn [fold_left].
  rewrite product_step_spec, get_set, items_of_snoc.
  case_decide as E.
  - subst pid. rewrite IH.
    destruct (items_of _ items) as [|a l] eqn:El.
    + cbn [app from_option Datatypes.id]. unfold count_item, fresh_bucket.
      cbn [productId productTitle ps_totalQuantity ps_totalSales
           ps_currencyCode orders length].
      change (JsNum.add 0 (amount (originalTotalSet i)))
        with (total_amount [i]).
      assert (0 + quantity i = total_quantity [i])%Z as ->
        by (unfold total_quantity; simpl; lia).
      done.
    + cbn [from_option Datatypes.id].
      change ((a :: l) ++ [i]) with (a :: (l ++ [i])). cbv iota.
      unfold count_item.
      cbn [productId productTitle ps_totalQuantity ps_totalSales
           ps_currencyCode orders].
      change (a :: (l ++ [i])) with ((a :: l) ++ [i]).
      rewrite total_amount_snoc, total_quantity_snoc, length_app. done.
  - rewrite IH. by rewrite app_nil_r.
Qed.

Lemma product_bucket_sums_its_items_witness :
  own_products [order_of [item "P1" (Q2Qc 50); item "P2" (Q2Qc 200)]]
  ∧ get "P2" (product_accumulate
                [order_of [item "P1" (Q2Qc 50); item "P2" (Q2Qc 200)]])
    = Some {| productId := "P2"; productTitle := "P2";
              ps_totalQuantity := 1; ps_totalSales := Q2Qc 200;
              ps_currencyCode := "USD"; orders := 1 |}.
Proof.
  assert (own_products [order_of [item "P1" (Q2Qc 50); item "P2" (Q2Qc 200)]])
    as H by (by repeat constructor).
  split; [exact H|].
  rewrite (product_bucket_sums_its_items _ "P2" H). compute_done.
Defined.

End BucketFacts.


(** ** The order of period keys *)

Module StringOrder.

Lemma ascii_compare_trans (a b c : ascii) :
  Ascii.compare a b = Lt → Ascii.compare b c = Lt → Ascii.compare a c = Lt.
Proof.
  unfold Ascii.compare. rewrite !N.compare_lt_iff. lia.
Qed.

Lemma compare_refl (s : string) : String.compare s s = Eq.
Proof.
  induction s as [|a s IH]; simpl; [done|].
  unfold Ascii.compare. by rewrite N.compare_refl.
Qed.

Lemma compare_lt_trans (s1 s2 s3 : string) :
  String.compare s1 s2 = Lt → String.compare s2 s3 = Lt →
  String.compare s1 s3 = Lt.
Proof.
  revert s2 s3. induction s1 as [|a s1 IH]; intros [|b s2] [|c s3]; simpl;
    try done.
  destruct (Ascii.compare a b) eqn:Eab; try done;
    destruct (Ascii.compare b c) eqn:Ebc; try done.
  - apply Ascii.compare_eq_iff in Eab as ->. apply Ascii.compare_eq_iff in Ebc as ->.
    unfold Ascii.compare. rewrite N.compare_refl. apply IH.
  - apply Ascii.compare_eq_iff in Eab as ->. by rewrite Ebc.
  - apply Ascii.compare_eq_iff in Ebc as <-. by rewrite Eab.
  - by rewrite (ascii_compare_trans a b c).
Qed.

Lemma compare_gt_lt (s1 s2 : string) :
  String.compare s1 s2 = Gt ↔ String.compare s2 s1 = Lt.
Proof.
  rewrite (String.compare_antisym s1 s2).
  destruct (String.compare s2 s1); simpl; split; congruence.
Qed.

Lemma compare_le_trans (s1 s2 s3 : string) :
  String.compare s1 s2 ≠ Gt → String.compare s2 s3 ≠ Gt →
  String.compare s1 s3 ≠ Gt.
Proof.
  intros H12 H23.
  destruct (String.compare s1 s2) eqn:E12; [| |done];
    destruct (String.compare s2 s3) eqn:E23; try done.
  - apply String.compare_eq_iff in E12 as ->. by rewrite E23.
  - apply String.compare_eq_iff in E12 as ->. by rewrite E23.
  - apply String.compare_eq_iff in E23 as <-. by rewrite E12.
  - by rewrite (compare_lt_trans s1 s2 s3).
Qed.

End StringOrder.

(** ** The rows of [get_sales_trends] *)

Module TrendRows.

Import Mcp Shopify JsObject JsObjectFacts JsNumFacts SummaryFacts TrendFacts
  StringOrder.
Local Open Scope Qc_scope.

(** The keys of an object after an assignment. *)
Lemma keys_set {V} k (v : V) (o : JsObject.t V) :
  (set k v o).*1 = if decide (k ∈ o.*1) then o.*1 else o.*1 ++ [k].
Proof.
  induction o as [|[k' v'] o IH]; [done|]. cbn [set].
  destruct (String.eqb k k') eqn:E.
  - apply String.eqb_eq in E as ->. rewrite !fmap_cons. cbn [fst].
    rewrite decide_True; [done|by left].
  - apply String.eqb_neq in E. rewrite !fmap_cons, IH. cbn [fst].
    destruct (decide (k ∈ o.*1)) as [Hin|Hin].
    + rewrite decide_True; [done|by right].
    + rewrite decide_False; [done|]. rewrite elem_of_cons. naive_solver.
Qed.

Lemma NoDup_keys_set {V} k (v : V) (o : JsObject.t V) :
  NoDup o.*1 → NoDup (set k v o).*1.
Proof.
  intros H. rewrite keys_set. case_decide as Hin; [done|].
  apply NoDup_app. split; [done|]. split; [|apply NoDup_singleton].
  intros x Hx Hx'. apply list_elem_of_singleton in Hx' as ->. done.
Qed.

Section Zone.

Variable tza : Z.

Variable interval : string.

(** A well-formed [salesByInterval]: no key twice, and every bucket under
    the key that is its period. *)
Definition keyed (o : JsObject.t Trend) : Prop :=
  NoDup o.*1 ∧ Forall (λ p, period p.2 = p.1) o.

Lemma Forall_keyed_set k b (o : JsObject.t Trend) :
  Forall (λ p : string * Trend, period p.2 = p.1) o → period b = k →
  Forall (λ p : string * Trend, period p.2 = p.1) (set k b o).
Proof.
  intros Ho Hb. induction Ho as [|[k' b'] o Hp Ho IH]; cbn [set].
  - by repeat constructor.
  - destruct (String.eqb k k') eqn:E; constructor; simpl in *; auto.
    apply String.eqb_eq in E. congruence.
Qed.

Lemma get_keyed k b (o : JsObject.t Trend) :
  Forall (λ p : string * Trend, period p.2 = p.1) o →
  get k o = Some b → period b = k.
Proof.
  induction 1 as [|[k' b'] o Hp Ho IH]; cbn [get]; [done|].
  destruct (String.eqb k k') eqn:E; [|done].
  apply String.eqb_eq in E as ->. by intros [= <-].
Qed.

Lemma trend_accumulate_keyed os : keyed (trend_accumulate tza interval os).
Proof.
  unfold trend_accumulate.
  assert (∀ o, keyed o → keyed (fold_left (trend_step tza interval) os o)) as H.
  { induction os as [|order os IH]; intros o Ho; simpl; [done|].
    apply IH. rewrite trend_step_spec. destruct Ho as [Hnd Hk].
    split; [by apply NoDup_keys_set|].
    apply Forall_keyed_set; [done|].
    destruct (get _ o) as [b|] eqn:E; cbn [from_option Datatypes.id count_order period].
    - by eapply get_keyed.
    - done. }
  apply H. split; constructor.
Qed.

Lemma periods_of_values (o : JsObject.t Trend) :
  keyed o → Permutation (period <$> values o) o.*1.
Proof.
  intros [_ Hk]. rewrite values_perm.
  assert (period <$> o.*2 = o.*1) as ->; [|done].
  induction Hk as [|[k b] o Hp Ho IH]; [done|].
  rewrite !fmap_cons, IH. simpl in *. by rewrite Hp.
Qed.

End Zone.

(** [a] is of an earlier period than [b]. *)
Definition earlier (a b : Trend) : Prop :=
  String.compare (period a) (period b) = Lt.

Lemma by_period_before a b :
  JsArrayFacts.before by_period a b ↔ String.compare (period a) (period b) ≠ Gt.
Proof.
  unfold JsArrayFacts.before, by_period.
  destruct (String.compare (period a) (period b)); split; intros H; try done.
Qed.

Lemma by_period_total a b : 0 < by_period a b → by_period b a <= 0.
Proof.
  intros H. apply by_period_before.
  assert (String.compare (period a) (period b) = Gt) as E.
  { unfold by_period in H. by destruct (String.compare (period a) (period b)). }
  apply compare_gt_lt in E. by rewrite E.
Qed.

Lemma by_period_trans a b c :
  by_period a b <= 0 → by_period b c <= 0 → by_period a c <= 0.
Proof.
  intros H1 H2. apply by_period_before.
  apply (compare_le_trans _ (period b)); by apply by_period_before.
Qed.

(** A sort by period of buckets of distinct periods ascends strictly. *)
Lemma sort_by_period_strict (l : list Trend) :
  NoDup (period <$> l) →
  StronglySorted earlier (JsArray.sort by_period l).
Proof.
  intros Hnd.
  pose proof (JsArrayFacts.sort_sorted by_period by_period_total
                by_period_trans l) as Hs.
  assert (NoDup (period <$> JsArray.sort by_period l)) as Hnd'
    by (by rewrite JsArrayFacts.sort_perm).
  induction Hs as [|a l' Hl IH Ha]; [constructor|].
  rewrite fmap_cons in Hnd'. apply NoDup_cons in Hnd' as [Hin Hnd'].
  constructor; [by apply IH|].
  rewrite Forall_forall in Ha. apply Forall_forall. intros b Hb.
  pose proof (Ha b Hb) as Hab. apply by_period_before in Hab.
  unfold earlier. destruct (String.compare (period a) (period b)) eqn:E;
    [|done|done].
  apply String.compare_eq_iff in E. exfalso. apply Hin. rewrite E.
  by apply list_elem_of_fmap_2.
Qed.

(** Two lists that ascend strictly by a key and have the same elements are
    the same list. *)
Lemma strictly_sorted_unique {A} (key : A → string) (l l' : list A) :
  StronglySorted (λ a b, String.compare (key a) (key b) = Lt) l →
  StronglySorted (λ a b, String.compare (key a) (key b) = Lt) l' →
  Permutation l l' → l = l'.
Proof.
  intros Hl. revert l'. induction Hl as [|a l Hl IH Ha]; intros l' Hl' Hp.
  - by apply Permutation_nil_l in Hp.
  - destruct Hl' as [|a' l' Hl' Ha'].
    + by apply Permutation_nil_r in Hp.
    + rewrite Forall_forall in Ha, Ha'.
      assert (a = a') as <-.
      { assert (a ∈ a' :: l') as Hin by (rewrite <- Hp; by left).
        assert (a' ∈ a :: l) as Hin' by (rewrite Hp; by left).
        apply elem_of_cons in Hin as [->|Hin]; [done|].
        apply elem_of_cons in Hin' as [->|Hin']; [done|].
        pose proof (Ha _ Hin') as H1. pose proof (Ha' _ Hin) as H2.
        cbv beta in *.
        pose proof (compare_lt_trans _ _ _ H1 H2) as H3.
        by rewrite compare_refl in H3. }
      f_equal. apply IH; [done|]. by apply (Permutation_cons_inv Hp).
Qed.

(** The period keys of a page of orders hold digits and hyphens only. *)
Definition plain_keys (tza : Z) (interval : string) (os : list Order) : Prop :=
  Forall (λ o, plain_key (periodKey tza interval (createdAt o)) = true) os.

(** X3.  On a page of orders whose period keys hold digits and hyphens
    only, as those of the years up to 9999 do, the rows of
    [get_sales_trends] are the buckets of [salesByInterval], each once, in
    strictly ascending order of their period keys. *)
Theorem trend_rows_ascend_by_period :
  ∀ (tza : Z) (interval : string) (os : list Order),
    plain_keys tza interval os →
    StronglySorted (λ r r', earlier (trend r) (trend r'))
      (sortedSalesTrends (trend_accumulate tza interval os))
    ∧ Permutation (trend <$> sortedSalesTrends (trend_accumulate tza interval os))
        (values (trend_accumulate tza interval os)).
Proof.
  intros tza interval os _. unfold sortedSalesTrends.
  pose proof (trend_accumulate_keyed tza interval os) as Hk.
  split.
  - apply (ProductFacts.StronglySorted_fmap earlier); [done|].
    apply sort_by_period_strict.
    rewrite (periods_of_values _ Hk). apply Hk.
  - assert (∀ l, trend <$> (trend_row <$> l) = l) as ->.
    { induction l as [|b l IH]; [done|]. rewrite !fmap_cons. by f_equal. }
    apply JsArrayFacts.sort_perm.
Qed.

(** Two orders of May and one of the December before. *)
Definition three_days : list Order :=
  [priced (EcmaDate.utc 2024 5 16 10 0 0) (Q2Qc 10) "USD";
   priced (EcmaDate.utc 2023 12 31 23 0 0) (Q2Qc 20) "USD";
   priced (EcmaDate.utc 2024 5 2 8 0 0) (Q2Qc 30) "USD"].

Lemma trend_rows_ascend_by_period_witness :
  plain_keys 0 "daily" three_days
  ∧ (λ r, period (trend r))
      <$> sortedSalesTrends (trend_accumulate 0 "daily" three_days)
    = ["2023-12-31"; "2024-05-02"; "2024-05-16"]
  ∧ StronglySorted (λ r r', earlier (trend r) (trend r'))
      (sortedSalesTrends (trend_accumulate 0 "daily" three_days)).
Proof.
  assert (plain_keys 0 "daily" three_days) as H
    by (repeat constructor; by vm_compute).
  split; [exact H|]. split; [by vm_compute|].
  exact (proj1 (trend_rows_ascend_by_period 0 "daily" three_days H)).
Defined.

Lemma snd_prod_map {A B C} (f : B → C) (l : list (A * B)) :
  (prod_map Datatypes.id f <$> l).*2 = f <$> l.*2.
Proof. rewrite <- !list_fmap_compose. by apply list_fmap_ext. Qed.

(** The period and the count of the orders of every row. *)
Definition row_counts (rows : list TrendRow) : list (string * nat) :=
  (λ r, bucket_count (trend r)) <$> rows.

Lemma row_counts_sorted tza interval os :
  row_counts (sortedSalesTrends (trend_accumulate tza interval os))
  = bucket_count
      <$> JsArray.sort by_period (values (trend_accumulate tza interval os)).
Proof.
  unfold row_counts, sortedSalesTrends. rewrite <- list_fmap_compose.
  by apply list_fmap_ext.
Qed.

(** X4.  The periods of the rows of [get_sales_trends], their order and
    the count of the orders of every row do not depend on the order in
    which the upstream lists the orders of the page.  The totals and the
    averages of the rows are sums of doubles, which do follow it. *)
Theorem trend_rows_ignore_order_of_orders :
  ∀ (tza : Z) (interval : string) (os os' : list Order),
    Permutation os os' →
    row_counts (sortedSalesTrends (trend_accumulate tza interval os))
    = row_counts (sortedSalesTrends (trend_accumulate tza interval os')).
Proof.
  intros tza interval os os' Hp. rewrite !row_counts_sorted.
  pose proof (trend_accumulate_keyed tza interval os) as Hk.
  pose proof (trend_accumulate_keyed tza interval os') as Hk'.
  assert (∀ o, keyed o →
            StronglySorted (λ a b, String.compare a.1 b.1 = Lt)
              (bucket_count <$> JsArray.sort by_period (values o))) as Hsorted.
  { intros o Ho.
    apply (ProductFacts.StronglySorted_fmap earlier); [done|].
    apply sort_by_period_strict. rewrite (periods_of_values _ Ho). apply Ho. }
  assert (∀ o, keyed o →
            Permutation
              (bucket_count <$> JsArray.sort by_period (values o))
              (map_to_list (trend_counts o)).*2) as Hperm.
  { intros o Ho. rewrite JsArrayFacts.sort_perm, values_perm.
    unfold trend_counts. rewrite map_to_list_fmap.
    unfold to_map. rewrite (map_to_list_to_map o) by apply Ho.
    by rewrite snd_prod_map. }
  apply (strictly_sorted_unique fst); [by apply Hsorted..|].
  rewrite (Hperm _ Hk), (Hperm _ Hk').
  by rewrite (trend_accumulate_perm tza interval os os' Hp).
Qed.

Lemma trend_rows_ignore_order_of_orders_witness :
  Permutation ledger ledger_swapped
  ∧ row_counts (sortedSalesTrends (trend_accumulate 0 "daily" ledger))
    = row_counts (sortedSalesTrends (trend_accumulate 0 "daily" ledger_swapped)).
Proof.
  assert (Permutation ledger ledger_swapped) as Hp
    by (do 2 apply perm_skip; apply perm_swap).
  split; [exact Hp|].
  apply (trend_rows_ignore_order_of_orders 0 "daily" _ _ Hp).
Defined.

End TrendRows.


(** ** One request at most, and none before the arguments are checked *)

Module RequestFacts.

Import Mcp Shopify JsObject FetchFacts.
Local Open Scope Qc_scope.

Section Server.

Variable config : ShopifyConfig.

Variable upstream : Upstream.

Variable tza : Z.

(** What a call that reached the upstream leaves behind: one request
    without cursor, and the answer of the upstream to it turned into the
    result by [ok]. *)
Definition asked {A} (r : Request) (ok : Page → A)
    : (McpError + A) * list Request :=
  (match upstream r with
   | inl msg => inl (mkError InternalError msg)
   | inr page => inr (ok page)
   end, [r]).

Definition summary_request_of (args : Args) : Request :=
  {| document := GetOrdersForSalesSummary;
     query := summaryFilter (default "" (startDate args))
                (default "" (endDate args)) (arg_currencyCode args);
     first := 100;
     after := None |}.

Definition trends_request_of (args : Args) : Request :=
  {| document := GetOrdersForSalesTrends;
     query := ordersFilter (default "" (startDate args)) (default "" (endDate args));
     first := 250;
     after := None |}.

Lemma run_get_sales_summary fuel args :
  run (get_sales_summary (Some config) upstream (S fuel) args)
  = if JsString.falsy (startDate args) || JsString.falsy (endDate args)
    then (inl (mkError InvalidParams
                 "startDate and endDate are required for get_sales_summary."),
          [])
    else asked (summary_request_of args)
           (λ page, Some (formatSummary (summarize (edges page)))).
Proof.
  unfold get_sales_summary.
  destruct (JsString.falsy (startDate args) || JsString.falsy (endDate args));
    [done|].
  pose proof (fetch_orders_once config upstream fuel
                (summaryFilter (default "" (startDate args))
                   (default "" (endDate args)) (arg_currencyCode args))) as H.
  cbv zeta in H. fold (summary_request_of args) in H.
  unfold run, mbind, M_bind, bind in *. rewrite H. unfold asked.
  by destruct (upstream (summary_request_of args)).
Qed.

Lemma run_get_sales_trends args :
  run (get_sales_trends (Some config) upstream tza args)
  = if JsString.falsy (startDate args) || JsString.falsy (endDate args)
       || JsString.falsy (interval args)
    then (inl (mkError InvalidParams
                 "startDate, endDate, and interval are required for get_sales_trends."),
          [])
    else if negb (bool_decide (default "" (interval args) ∈ intervals))
    then (inl (mkError InvalidParams
                 "interval must be one of: daily, weekly, monthly"), [])
    else asked (trends_request_of args)
           (λ page, sortedSalesTrends
                      (trend_accumulate tza (default "" (interval args))
                         (edges page))).
Proof.
  unfold get_sales_trends, run.
  destruct (JsString.falsy (startDate args) || JsString.falsy (endDate args)
            || JsString.falsy (interval args)); [done|].
  destruct (negb (bool_decide (default "" (interval args) ∈ intervals)));
    [done|].
  unfold mbind, M_bind, bind, executeShopifyGraphQL, request, asked.
  fold (trends_request_of args). cbn [app].
  by destruct (upstream (trends_request_of args)).
Qed.

(** The three ways in which a call can end. *)
Inductive ending : (McpError + ToolResult) * list Request → Prop :=
| refused (e : McpError) :
    code e = InvalidRequest ∨ code e = InvalidParams →
    ending (inl e, [])
| upstream_failed (r : Request) (msg : string) :
    after r = None → upstream r = inl msg →
    ending (inl (mkError InternalError msg), [r])
| answered (r : Request) (page : Page) (res : ToolResult) :
    after r = None → upstream r = inr page →
    ending (inr res, [r]).

Lemma asked_ending {A} (r : Request) (ok : Page → A) (wrap : A → ToolResult) :
  after r = None →
  ending (match asked r ok with
          | (inl e, log) => (inl e, log)
          | (inr a, log) => (inr (wrap a), log)
          end).
Proof.
  intros Hr. unfold asked. destruct (upstream r) as [msg|page] eqn:E.
  - by apply upstream_failed.
  - by eapply answered.
Qed.

Lemma run_fmap {A} (wrap : A → ToolResult) (m : M Request A) :
  run (wrap <$> m)
  = match run m with
    | (inl e, log) => (inl e, log)
    | (inr a, log) => (inr (wrap a), log)
    end.
Proof.
  unfold run, fmap, M_fmap, bind. by destruct (m []) as [[e|a] log].
Qed.

Lemma callTool_ending (cfg : option ShopifyConfig) fuel toolName args :
  (∀ c, cfg = Some c → c = config) →
  ending (run (callTool cfg upstream tza (S fuel) toolName args)).
Proof.
  intros Hc. unfold callTool. destruct cfg as [c|]; [|by apply refused; left].
  rewrite (Hc c eq_refl).
  destruct (String.eqb toolName "get_sales_summary").
  { rewrite run_fmap, run_get_sales_summary.
    destruct (_ || _); [by apply refused; right|]. by apply asked_ending. }
  destruct (String.eqb toolName "get_sales_by_product").
  { rewrite run_fmap, run_get_sales_by_product.
    destruct (_ || _); [by apply refused; right|].
    by apply (asked_ending (product_request args)). }
  destruct (String.eqb toolName "get_sales_trends").
  { rewrite run_fmap, run_get_sales_trends.
    destruct (_ || _ || _); [by apply refused; right|].
    destruct (negb _); [by apply refused; right|]. by apply asked_ending. }
  by apply refused; left.
Qed.

End Server.



End RequestFacts.


(** ** The rows of [get_sales_by_product] and the printed summary *)

Module AnswerFacts.

Import Mcp Shopify JsObject JsObjectFacts JsNumFacts SummaryFacts ProductFacts
  TrendRows.
Local Open Scope Qc_scope.

(** X6.  [get_sales_by_product] returns as many rows as there are product
    keys on the page, cut down to the limit when the limit is not
    negative; a negative limit is not refused and takes that many rows
    off the end of the ranking instead. *)
Theorem product_rows_count :
  ∀ (limit : Z) (productSales : JsObject.t ProductSales),
    length (sortedProductSales limit productSales)
    = Z.to_nat
        (if decide (limit < 0)%Z
         then Z.max (Z.of_nat (length productSales) + limit) 0
         else Z.min limit (Z.of_nat (length productSales))).
Proof.
  intros limit ps. unfold sortedProductSales. rewrite length_fmap.
  assert (length (JsArray.sort by_sales_desc (values ps)) = length ps) as Hlen.
  { rewrite (Permutation_length (JsArrayFacts.sort_perm _ _)).
    rewrite (Permutation_length (values_perm _)). apply length_fmap. }
  unfold JsArray.slice0. case_decide; rewrite length_take, Hlen; lia.
Qed.

(** *** The printed summary *)

Lemma set_fresh {V} k (v : V) (o : JsObject.t V) :
  k ∉ o.*1 → set k v o = o ++ [(k, v)].
Proof.
  induction o as [|[k' v'] o IH]; intros Hk; [done|]. cbn [set].
  rewrite fmap_cons, not_elem_of_cons in Hk. destruct Hk as [Hne Hk].
  rewrite eqb_ne by done. by rewrite IH.
Qed.

Lemma fold_set_fresh {V W} (f : V → W) (l : list (string * V)) :
  ∀ acc : JsObject.t W,
    NoDup (acc.*1 ++ l.*1) →
    fold_left (λ acc p, set p.1 (f p.2) acc) l acc
    = acc ++ ((λ p, (p.1, f p.2)) <$> l).
Proof.
  induction l as [|[k v] l IH]; intros acc Hnd.
  - by rewrite app_nil_r.
  - cbn [fold_left fst snd]. rewrite fmap_cons in Hnd. cbn [fst] in Hnd.
    rewrite set_fresh.
    + rewrite IH.
      * by rewrite <- app_assoc.
      * by rewrite fmap_app, <- app_assoc.
    + apply NoDup_app in Hnd as (_ & Hd & _). intros Hin.
      apply (Hd k Hin). by left.
Qed.

Lemma get_fmap {V W} (f : V → W) k (l : JsObject.t V) :
  get k ((λ p, (p.1, f p.2)) <$> l) = f <$> get k l.
Proof.
  induction l as [|[k' v'] l IH]; [done|]. rewrite fmap_cons. cbn [get fst snd].
  by destruct (String.eqb k k').
Qed.

Lemma get_perm {V} k (l l' : JsObject.t V) :
  NoDup l.*1 → Permutation l l' → get k l = get k l'.
Proof.
  intros Hnd Hp. rewrite <- !lookup_to_map. unfold to_map.
  by rewrite (list_to_map_proper l l' Hnd Hp).
Qed.

(** The [reduce] of the formatting step keeps every key and rounds the
    amount under it. *)
Lemma get_round_entries k (o : JsObject.t Qc) :
  NoDup o.*1 → get k (round_entries o) = JsNum.toFixed2 <$> get k o.
Proof.
  intros Hnd. unfold round_entries.
  assert (NoDup (entries o).*1) as Hnd' by (by rewrite entries_perm).
  rewrite (fold_set_fresh JsNum.toFixed2 (entries o) JsObject.empty Hnd').
  cbn [JsObject.empty app]. rewrite get_fmap. f_equal.
  apply get_perm; [done|apply entries_perm].
Qed.

Lemma add_to_NoDup k x (o : JsObject.t Qc) : NoDup o.*1 → NoDup (add_to k x o).*1.
Proof. intros H. rewrite add_to_spec. by apply NoDup_keys_set. Qed.

Lemma summarize_NoDup os :
  NoDup (salesByCurrency (summarize os)).*1
  ∧ NoDup (salesByStatus (summarize os)).*1.
Proof.
  unfold summarize, summary_accumulate. cbn [salesByCurrency salesByStatus].
  assert (∀ s, NoDup (salesByCurrency s).*1 ∧ NoDup (salesByStatus s).*1 →
             NoDup (salesByCurrency (fold_left summary_step os s)).*1
             ∧ NoDup (salesByStatus (fold_left summary_step os s)).*1) as H.
  { induction os as [|o os' IH]; intros s Hs; [done|]. cbn [fold_left].
    apply IH. destruct Hs as [H1 H2]. split; by apply add_to_NoDup. }
  apply H. split; constructor.
Qed.


(** X8.  The three other totals of the summary are, like [totalSales],
    sums over all the orders of the page, whatever their currencies. *)
Theorem summary_totals_are_sums :
  ∀ os : list Order,
    totalDiscounts (summarize os)
    = sum ((λ o, amount (totalDiscountsSet o)) <$> os)
    ∧ totalShipping (summarize os)
      = sum ((λ o, amount (totalShippingPriceSet o)) <$> os)
    ∧ totalTax (summarize os) = sum ((λ o, amount (totalTaxSet o)) <$> os).
Proof.
  intros os. unfold summarize, summary_accumulate.
  cbn [totalDiscounts totalShipping totalTax].
  assert (∀ s,
    totalDiscounts (fold_left summary_step os s)
    = sum_from (totalDiscounts s) ((λ o, amount (totalDiscountsSet o)) <$> os)
    ∧ totalShipping (fold_left summary_step os s)
      = sum_from (totalShipping s)
          ((λ o, amount (totalShippingPriceSet o)) <$> os)
    ∧ totalTax (fold_left summary_step os s)
      = sum_from (totalTax s) ((λ o, amount (totalTaxSet o)) <$> os)) as H.
  { induction os as [|o os' IH]; intros s; [done|].
    cbn [fold_left]. by destruct (IH (summary_step s o)) as (-> & -> & ->). }
  by destruct (H (summary_init os)) as (-> & -> & ->).
Qed.

End AnswerFacts.


(** ** The period keys tell the periods apart *)

Module PeriodFacts.

Import Mcp Shopify JsString EcmaDate DateFacts TrendFacts.
Local Open Scope Z_scope.

(** *** Strings *)

Lemma cons_app c (s s' : string) : String c s +:+ s' = String c (s +:+ s').
Proof. done. Qed.

Lemma nil_app (s : string) : "" +:+ s = s.
Proof. done. Qed.

Lemma length_app (s1 s2 : string) :
  String.length (s1 +:+ s2) = (String.length s1 + String.length s2)%nat.
Proof. induction s1 as [|c s1 IH]; simpl; [done|by f_equal]. Qed.

Lemma app_inj_length (s1 s1' s2 s2' : string) :
  String.length s1 = String.length s1' →
  s1 +:+ s2 = s1' +:+ s2' → s1 = s1' ∧ s2 = s2'.
Proof.
  revert s1'. induction s1 as [|c s1 IH]; intros [|c' s1']; simpl; try done.
  intros [= Hl] [= -> H]. by destruct (IH _ Hl H) as [-> ->].
Qed.

Lemma app_inj_length_r (s1 s1' s2 s2' : string) :
  String.length s2 = String.length s2' →
  s1 +:+ s2 = s1' +:+ s2' → s1 = s1' ∧ s2 = s2'.
Proof.
  intros Hl H. apply app_inj_length; [|done].
  apply (f_equal String.length) in H. rewrite !length_app in H. lia.
Qed.

(** *** Decimal numerals *)

(** The padding of [padStart n "0"]. *)
Definition zeros (n : nat) : string := String.concat "" (replicate n "0").

Lemma zeros_S n : zeros (S n) = String "0" (zeros n).
Proof. unfold zeros. simpl. by destruct (replicate n "0"). Qed.

Lemma zeros_length n : String.length (zeros n) = n.
Proof. induction n as [|n IH]; [done|]. rewrite zeros_S. simpl. by f_equal. Qed.

Lemma zeros_app n m : zeros (n + m) = zeros n +:+ zeros m.
Proof.
  induction n as [|n IH]; [done|].
  change (S n + m)%nat with (S (n + m)). rewrite !zeros_S, IH. done.
Qed.

(** A numeral without a leading zero: ["0"], or digits of which the first
    is not ["0"]. *)
Definition numeral (s : string) : Prop :=
  s = "0" ∨ ∃ d r, s = String (pretty_N_char d) r ∧ (1 ≤ d ≤ 9)%N.

Lemma pretty_N_go_numeral x s :
  (0 < x)%N →
  ∃ d r, pretty_N_go x s = String (pretty_N_char d) r ∧ (1 ≤ d ≤ 9)%N.
Proof.
  revert s. induction (N.lt_wf_0 x) as [x _ IH]; intros s Hx.
  rewrite pretty_N_go_step by done.
  assert (x < 10 ∨ 10 ≤ x)%N as [Hs|Hl] by lia.
  - rewrite N.div_small, N.mod_small, pretty_N_go_0 by done.
    exists x, s. split; [done|lia].
  - apply IH; [by apply N.div_lt|]. apply N.div_str_pos. lia.
Qed.

Lemma pretty_numeral z : 0 ≤ z → numeral (pretty z).
Proof.
  intros Hz. destruct z as [|p|p]; [by left| |lia].
  right. unfold pretty, pretty_Z, pretty, pretty_positive, pretty, pretty_N.
  rewrite decide_False by done. by apply pretty_N_go_numeral.
Qed.

Lemma digit_char d :
  pretty_N_char d ≠ "-"%char ∧ pretty_N_char d ≠ "+"%char
  ∧ ((1 ≤ d ≤ 9)%N → pretty_N_char d ≠ "0"%char).
Proof.
  unfold pretty_N_char. repeat case_match; (split; [|split]); try discriminate;
    lia.
Qed.

Lemma numeral_length s : numeral s → (0 < String.length s)%nat.
Proof. intros [->|(d & r & -> & _)]; simpl; lia. Qed.

Lemma padStart_zeros n s :
  padStart n "0" s = zeros (n - String.length s) +:+ s.
Proof. done. Qed.

Lemma padStart_inj_le n s s' :
  numeral s → numeral s' → (String.length s ≤ String.length s')%nat →
  padStart n "0" s = padStart n "0" s' → s = s'.
Proof.
  intros Hs Hs' Hl. rewrite !padStart_zeros. intros H.
  pose proof (f_equal String.length H) as Hlen.
  rewrite !length_app, !zeros_length in Hlen.
  set (k := (n - String.length s)%nat) in *.
  set (k' := (n - String.length s')%nat) in *.
  replace k with (k' + (k - k'))%nat in H by lia.
  rewrite zeros_app in H.
  assert (zeros (k - k') +:+ s = s') as H'.
  { revert H. generalize (zeros k'). intros z. induction z as [|c z IH]; simpl.
    - done.
    - intros [= E]. by apply IH. }
  destruct (k - k')%nat as [|j] eqn:Ej; [done|].
  rewrite zeros_S in H'. simpl in H'. exfalso.
  destruct Hs' as [->|(d & r & -> & Hd)].
  - injection H' as H'. apply (f_equal String.length) in H'.
    rewrite length_app in H'. simpl in H'.
    pose proof (numeral_length _ Hs). lia.
  - injection H' as Hc _. symmetry in Hc.
    by apply (proj2 (proj2 (digit_char d)) Hd).
Qed.

(** Padding keeps the numbers from 0 on apart. *)
Lemma pad_inj n z z' : 0 ≤ z → 0 ≤ z' → pad n z = pad n z' → z = z'.
Proof.
  intros Hz Hz' H. unfold pad in H. apply (inj pretty).
  destruct (Nat.le_ge_cases (String.length (pretty z))
              (String.length (pretty z'))) as [Hl|Hl].
  - by apply (padStart_inj_le n); [apply pretty_numeral..| |].
  - symmetry. by apply (padStart_inj_le n); [apply pretty_numeral..| |].
Qed.

(** A padded number from 0 on starts with a digit. *)
Lemma pad_head n z : 0 ≤ z → ∃ d r, pad n z = String (pretty_N_char d) r.
Proof.
  intros Hz. unfold pad. rewrite padStart_zeros.
  destruct (n - String.length (pretty z))%nat as [|k].
  - destruct (pretty_numeral z Hz) as [->|(d & r & -> & _)].
    + by exists 0%N, "".
    + by exists d, r.
  - rewrite zeros_S. by exists 0%N, (zeros k +:+ pretty z).
Qed.

Lemma isoYear_cases y :
  (0 ≤ y ≤ 9999 ∧ isoYear y = pad 4 y)
  ∨ (y < 0 ∧ isoYear y = String "-" (pad 6 (- y)))
  ∨ (9999 < y ∧ isoYear y = String "+" (pad 6 y)).
Proof.
  unfold isoYear.
  destruct (Z.leb_spec 0 y) as [H0|H0], (Z.leb_spec y 9999) as [H1|H1];
    simpl; destruct (Z.ltb_spec y 0) as [H2|H2]; try lia; auto.
Qed.

Lemma isoYear_inj y y' : isoYear y = isoYear y' → y = y'.
Proof.
  destruct (isoYear_cases y) as [[Hy ->]|[[Hy ->]|[Hy ->]]],
    (isoYear_cases y') as [[Hy' ->]|[[Hy' ->]|[Hy' ->]]]; intros H.
  - apply pad_inj in H; lia.
  - destruct (pad_head 4 y) as (d & r & E); [lia|]. rewrite E in H.
    injection H as H _. by destruct (digit_char d) as (? & ? & _).
  - destruct (pad_head 4 y) as (d & r & E); [lia|]. rewrite E in H.
    injection H as H _. by destruct (digit_char d) as (? & ? & _).
  - destruct (pad_head 4 y') as (d & r & E); [lia|]. rewrite E in H.
    injection H as H _. symmetry in H. by destruct (digit_char d) as (? & ? & _).
  - injection H as H. apply pad_inj in H; lia.
  - discriminate.
  - destruct (pad_head 4 y') as (d & r & E); [lia|]. rewrite E in H.
    injection H as H _. symmetry in H. by destruct (digit_char d) as (? & ? & _).
  - discriminate.
  - injection H as H. apply pad_inj in H; lia.
Qed.

(** *** The calendar date names the day *)

Lemma pad_2_length z : 0 ≤ z ≤ 31 → String.length (pad 2 z) = 2%nat.
Proof.
  intros Hz.
  assert (Forall (λ z, String.length (pad 2 z) = 2%nat) (seqZ 0 32)) as H
    by (by vm_compute; repeat constructor).
  rewrite Forall_forall in H. apply H. apply elem_of_seqZ. lia.
Qed.

(** The year, month and date of a day fix the day. *)
Lemma civil_inj t t' :
  YearFromTime t = YearFromTime t' → MonthFromTime t = MonthFromTime t' →
  DateFromTime t = DateFromTime t' → Day t = Day t'.
Proof.
  unfold DateFromTime, InLeapYear, DayWithinYear. intros -> -> H. lia.
Qed.

Lemma isoDate_inj t t' : isoDate t = isoDate t' → Day t = Day t'.
Proof.
  unfold isoDate. intros H.
  pose proof (MonthFromTime_range t) as Hm.
  pose proof (MonthFromTime_range t') as Hm'.
  pose proof (DateFromTime_range t) as Hd.
  pose proof (DateFromTime_range t') as Hd'.
  apply app_inj_length_r in H as [Hy H].
  2: { rewrite !length_app. simpl. rewrite ?length_app. simpl.
       rewrite !pad_2_length by lia. done. }
  apply isoYear_inj in Hy.
  rewrite !cons_app, !nil_app in H. injection H as H.
  apply app_inj_length in H as [Hmo H]; [|by rewrite !pad_2_length by lia].
  apply pad_inj in Hmo; [|lia..].
  injection H as H. apply pad_inj in H; [|lia..].
  apply civil_inj; [done|lia|done].
Qed.

Lemma isoDay_inj d d' : isoDay d = isoDay d' → d = d'.
Proof.
  unfold isoDay. intros H. apply isoDate_inj in H.
  unfold Day, msPerDay in H. by rewrite !Z.div_mul in H.
Qed.

(** X9.  With the daily interval two orders fall into the same bucket
    exactly when they were created on the same day in UTC, in every local
    time zone of the process and for every year. *)
Theorem daily_buckets_are_utc_days :
  ∀ (tza t t' : Z),
    periodKey tza "daily" t = periodKey tza "daily" t' ↔ Day t = Day t'.
Proof.
  intros tza t t'. rewrite !periodKey_daily. split.
  - apply isoDate_inj.
  - intros H. by rewrite !isoDate_Day, H.
Qed.

(** X10.  With the monthly interval two orders fall into the same bucket
    exactly when their creation times have the same year and the same
    month in the local time zone of the process. *)
Theorem monthly_buckets_are_local_months :
  ∀ (tza t t' : Z),
    periodKey tza "monthly" t = periodKey tza "monthly" t'
    ↔ getFullYear tza t = getFullYear tza t'
      ∧ getMonth tza t = getMonth tza t'.
Proof.
  intros tza t t'. rewrite !periodKey_monthly. split.
  - intros H.
    pose proof (MonthFromTime_range (LocalTime tza t)) as Hm.
    pose proof (MonthFromTime_range (LocalTime tza t')) as Hm'.
    fold (getMonth tza t) in Hm. fold (getMonth tza t') in Hm'.
    apply app_inj_length_r in H as [Hy H].
    2: { rewrite !length_app. simpl. rewrite !pad_2_length by lia. done. }
    apply (inj pretty) in Hy. rewrite !cons_app, !nil_app in H. injection H as H.
    apply pad_inj in H; [|lia..]. split; [done|lia].
  - by intros [-> ->].
Qed.

(** X11.  In a process whose zone keeps one offset from UTC all year,
    without daylight saving time, the weekly key is the UTC date of the
    day that lies as many days before the UTC day of the order as the
    local day of the week says, at most six.  Its day of the week in UTC
    is the difference, modulo 7, between the UTC day and the local day of
    the order: a Sunday where the two agree, a Saturday where the local
    day is the next one, a Monday where it is the one before.  Two orders
    share a weekly bucket exactly when that day is the same. *)
Theorem weekly_key_names_a_day_of_the_week_before :
  ∀ (tza t : Z),
    periodKey tza "weekly" t = isoDay (Day t - getDay tza t)
    ∧ 0 ≤ getDay tza t ≤ 6
    ∧ WeekDay ((Day t - getDay tza t) * msPerDay)
      = (Day t - Day (LocalTime tza t)) `mod` 7
    ∧ ∀ t', periodKey tza "weekly" t = periodKey tza "weekly" t'
            ↔ Day t - getDay tza t = Day t' - getDay tza t'.
Proof.
  intros tza t.
  split; [apply periodKey_weekly|].
  split; [apply (WeekDay_range (LocalTime tza t))|]. split.
  - unfold getDay, WeekDay.
    assert (∀ d, Day (d * msPerDay) = d) as ->
      by (intros d; unfold Day, msPerDay; by rewrite Z.div_mul).
    generalize (Day t), (Day (LocalTime tza t)). intros d l.
    Z.div_mod_to_equations. lia.
  - intros t'. rewrite !periodKey_weekly. split.
    + apply isoDay_inj.
    + by intros ->.
Qed.

(** X12.  In a process whose local zone is UTC the weekly buckets are the
    weeks from Sunday to Saturday: two orders share a bucket exactly when
    their UTC days lie in the same such week. *)
Theorem weekly_buckets_are_utc_weeks :
  ∀ (t t' : Z),
    periodKey 0 "weekly" t = periodKey 0 "weekly" t'
    ↔ (Day t + 4) `div` 7 = (Day t' + 4) `div` 7.
Proof.
  intros t t'. rewrite !periodKey_weekly.
  unfold getDay, LocalTime, WeekDay. rewrite !Z.add_0_r. split.
  - intros H. apply isoDay_inj in H. revert H.
    generalize (Day t), (Day t'). intros d d'. Z.div_mod_to_equations. lia.
  - intros H. f_equal. revert H.
    generalize (Day t), (Day t'). intros d d'. Z.div_mod_to_equations. lia.
Qed.

End PeriodFacts.

(** ** The order of the period keys *)

Module PeriodOrder.

Import Mcp Shopify JsString EcmaDate DateFacts TrendFacts PeriodFacts.
Local Open Scope Z_scope.

(** The comparison that decides by [c] first and by [c'] on a tie. *)
Definition lex (c c' : comparison) : comparison :=
  match c with
  | Eq => c'
  | _ => c
  end.

Lemma compare_cons c c' s s' :
  String.compare (String c s) (String c' s')
  = lex (Ascii.compare c c') (String.compare s s').
Proof. simpl. by destruct (Ascii.compare c c'). Qed.

Lemma lex_assoc a b c : lex (lex a b) c = lex a (lex b c).
Proof. by destruct a. Qed.

Lemma compare_app (a a' b b' : string) :
  String.length a = String.length a' →
  String.compare (a +:+ b) (a' +:+ b')
  = lex (String.compare a a') (String.compare b b').
Proof.
  revert a'. induction a as [|c a IH]; intros [|c' a'] Hl; try done.
  injection Hl as Hl. rewrite ?cons_app, !compare_cons, IH by done.
  by rewrite lex_assoc.
Qed.

Lemma lex_step q q' r r' m :
  0 ≤ r < m → 0 ≤ r' < m →
  lex (q ?= q') (r ?= r') = (q * m + r ?= q' * m + r').
Proof.
  intros Hr Hr'. destruct (Z.compare_spec q q') as [->|H|H]; simpl; symmetry.
  - apply Z.add_compare_mono_l.
  - apply Z.compare_lt_iff. nia.
  - apply Z.compare_gt_iff. nia.
Qed.

Lemma compare_same_difference a b c d : a - b = c - d → (a ?= b) = (c ?= d).
Proof.
  intros H. destruct (Z.compare_spec a b), (Z.compare_spec c d); try done; lia.
Qed.

(** *** Numerals of a fixed width *)

Definition digit (z : Z) : ascii := pretty_N_char (Z.to_N z).

(** The last [n] digits of [z]. *)
Fixpoint fixed (n : nat) (z : Z) : string :=
  match n with
  | O => ""
  | S n => fixed n (z `div` 10) +:+ String (digit (z `mod` 10)) ""
  end.

Lemma app_assoc (s1 s2 s3 : string) : (s1 +:+ s2) +:+ s3 = s1 +:+ s2 +:+ s3.
Proof. induction s1 as [|c s1 IH]; [done|]. by rewrite !cons_app, IH. Qed.

Lemma app_nil_r (s : string) : s +:+ "" = s.
Proof. induction s as [|c s IH]; [done|]. by rewrite cons_app, IH. Qed.

Lemma fixed_length n z : String.length (fixed n z) = n.
Proof.
  revert z. induction n as [|n IH]; intros z; [done|].
  cbn [fixed]. rewrite length_app, IH. simpl. lia.
Qed.

Lemma digit_compare a b :
  0 ≤ a < 10 → 0 ≤ b < 10 → Ascii.compare (digit a) (digit b) = (a ?= b).
Proof.
  intros Ha Hb.
  assert (a = 0 ∨ a = 1 ∨ a = 2 ∨ a = 3 ∨ a = 4 ∨ a = 5 ∨ a = 6 ∨ a = 7
          ∨ a = 8 ∨ a = 9) as Ha' by lia.
  assert (b = 0 ∨ b = 1 ∨ b = 2 ∨ b = 3 ∨ b = 4 ∨ b = 5 ∨ b = 6 ∨ b = 7
          ∨ b = 8 ∨ b = 9) as Hb' by lia.
  clear Ha Hb. destruct_or!; subst; reflexivity.
Qed.

(** Numerals of the same width compare as their numbers. *)
Lemma compare_fixed n z z' :
  0 ≤ z < 10 ^ Z.of_nat n → 0 ≤ z' < 10 ^ Z.of_nat n →
  String.compare (fixed n z) (fixed n z') = (z ?= z').
Proof.
  revert z z'. induction n as [|n IH]; intros z z' Hz Hz'.
  - change (10 ^ Z.of_nat 0) with 1 in *.
    assert (z = 0) as -> by lia. by assert (z' = 0) as -> by lia.
  - cbn [fixed]. rewrite Nat2Z.inj_succ, Z.pow_succ_r in Hz, Hz' by lia.
    rewrite compare_app by (by rewrite !fixed_length).
    rewrite compare_cons. change (String.compare "" "") with Eq.
    rewrite IH by (split; [apply Z.div_pos; lia
                          |apply Z.div_lt_upper_bound; lia]).
    pose proof (Z.mod_pos_bound z 10) as Hr.
    pose proof (Z.mod_pos_bound z' 10) as Hr'.
    rewrite digit_compare by lia.
    assert (∀ c, lex c Eq = c) as -> by (by intros []).
    rewrite (lex_step _ _ _ _ 10) by lia.
    by rewrite (Z.mul_comm _ 10), (Z.mul_comm _ 10), <- !Z.div_mod by lia.
Qed.

Lemma zeros_snoc k (s : string) : zeros k +:+ String "0" s = zeros (S k) +:+ s.
Proof.
  induction k as [|k IH]; [by rewrite zeros_S|].
  rewrite (zeros_S (S k)), (zeros_S k), !cons_app, IH.
  by rewrite zeros_S, cons_app.
Qed.

Lemma fixed_zero n : fixed n 0 = zeros n.
Proof.
  induction n as [|n IH]; [done|].
  cbn [fixed]. change (0 `div` 10) with 0. change (0 `mod` 10) with 0.
  rewrite IH. change (digit 0) with "0"%char.
  by rewrite zeros_snoc, app_nil_r.
Qed.

(** The digits that [pretty] prints are the last digits of the number,
    after the zeros in front. *)
Lemma fixed_pretty_N_go n (x : N) (s : string) :
  (x < 10 ^ N.of_nat n)%N →
  ∃ k, fixed n (Z.of_N x) +:+ s = zeros k +:+ pretty_N_go x s.
Proof.
  revert x s. induction n as [|n IH]; intros x s Hx.
  - change (10 ^ N.of_nat 0)%N with 1%N in Hx. assert (x = 0%N) as -> by lia.
    by exists 0%nat.
  - cbn [fixed]. rewrite app_assoc, cons_app, nil_app.
    rewrite Nat2N.inj_succ, N.pow_succ_r in Hx by lia.
    assert (x `div` 10 < 10 ^ N.of_nat n)%N as Hq
      by (apply N.Div0.div_lt_upper_bound; lia).
    assert (Z.of_N x `div` 10 = Z.of_N (x `div` 10)) as ->
      by (by rewrite N2Z.inj_div).
    assert (digit (Z.of_N x `mod` 10) = pretty_N_char (x `mod` 10)) as ->.
    { unfold digit. change 10 with (Z.of_N 10).
      by rewrite <- N2Z.inj_mod, N2Z.id. }
    destruct (IH (x `div` 10)%N (String (pretty_N_char (x `mod` 10)) s) Hq)
      as [k Hk].
    rewrite Hk. destruct (decide (x = 0%N)) as [->|Hpos].
    + exists (S k). rewrite pretty_N_go_0.
      change (0 `div` 10)%N with 0%N. change (0 `mod` 10)%N with 0%N.
      rewrite pretty_N_go_0. apply zeros_snoc.
    + exists k. by rewrite (pretty_N_go_step x) by lia.
Qed.

Lemma fixed_pretty n z :
  0 ≤ z < 10 ^ Z.of_nat (S n) → ∃ k, fixed (S n) z = zeros k +:+ pretty z.
Proof.
  intros Hz. destruct z as [|p|p]; [| |lia].
  - exists n. rewrite fixed_zero. change (pretty 0) with "0".
    by rewrite zeros_snoc, app_nil_r.
  - destruct (fixed_pretty_N_go (S n) (N.pos p) "") as [k Hk].
    { apply N2Z.inj_lt. rewrite N2Z.inj_pow, nat_N_Z. apply Hz. }
    exists k. rewrite app_nil_r in Hk.
    change (Z.of_N (N.pos p)) with (Z.pos p) in Hk.
    by rewrite Hk.
Qed.

(** Padding a number to its width gives its last digits. *)
Lemma pad_fixed n z : 0 ≤ z < 10 ^ Z.of_nat (S n) → pad (S n) z = fixed (S n) z.
Proof.
  intros Hz. destruct (fixed_pretty n z Hz) as [k Hk].
  unfold pad. rewrite padStart_zeros, Hk. f_equal. f_equal.
  apply (f_equal String.length) in Hk.
  rewrite fixed_length, length_app, zeros_length in Hk. lia.
Qed.

Lemma digit_zero a : 0 ≤ a < 10 → digit a = "0"%char → a = 0.
Proof.
  intros Ha H. apply Z.compare_eq. rewrite <- digit_compare by lia.
  rewrite H. reflexivity.
Qed.

(** A number of four digits prints as its four digits. *)
Lemma pretty_fixed y : 1000 ≤ y ≤ 9999 → pretty y = fixed 4 y.
Proof.
  intros Hy. destruct (fixed_pretty 3 y) as [k Hk].
  { change (10 ^ Z.of_nat 4) with 10000. lia. }
  destruct k as [|k]; [by rewrite Hk|]. exfalso.
  rewrite zeros_S, cons_app in Hk. cbn [fixed] in Hk.
  rewrite !nil_app, !cons_app, !nil_app in Hk. injection Hk as Hd _.
  apply digit_zero in Hd; [|apply Z.mod_pos_bound; lia].
  revert Hd. Z.div_mod_to_equations. lia.
Qed.

(** *** The calendar *)

Lemma DayFromYear_mono y y' : y ≤ y' → DayFromYear y ≤ DayFromYear y'.
Proof. unfold DayFromYear. intros H. Z.div_mod_to_equations. lia. Qed.

Lemma Day_civil t :
  Day t = DayFromYear (YearFromTime t)
          + monthStart (MonthFromTime t) (InLeapYear t) + DateFromTime t - 1.
Proof. unfold DateFromTime, DayWithinYear. lia. Qed.

(** Within a year the month and the date order the days. *)
Lemma month_date_order t t' :
  YearFromTime t = YearFromTime t' →
  lex (MonthFromTime t ?= MonthFromTime t') (DateFromTime t ?= DateFromTime t')
  = (Day t ?= Day t').
Proof.
  intros E.
  pose proof (DayWithinYear_range t) as Hw.
  pose proof (DayWithinYear_range t') as Hw'.
  assert (InLeapYear t = InLeapYear t') as El by (unfold InLeapYear; by rewrite E).
  assert (0 ≤ InLeapYear t ≤ 1) as Hl by (unfold InLeapYear; case_match; lia).
  assert (Day t - Day t' = DayWithinYear t - DayWithinYear t') as Hd
    by (unfold DayWithinYear; rewrite E; lia).
  rewrite (compare_same_difference _ _ _ _ Hd).
  unfold DateFromTime, MonthFromTime. rewrite <- El.
  set (l := InLeapYear t) in *. set (w := DayWithinYear t) in *.
  set (w' := DayWithinYear t') in *. clearbody l w w'. clear -Hl.
  repeat match goal with
  | |- context [?a <? ?b] => destruct (Z.ltb_spec a b)
  end; cbn [monthStart lex Z.compare Pos.compare Pos.compare_cont];
    first [ apply compare_same_difference; lia
          | symmetry; apply Z.compare_lt_iff; lia
          | symmetry; apply Z.compare_gt_iff; lia ].
Qed.

(** Year, month and date order the days. *)
Lemma civil_order t t' :
  lex (YearFromTime t ?= YearFromTime t')
    (lex (MonthFromTime t ?= MonthFromTime t')
         (DateFromTime t ?= DateFromTime t'))
  = (Day t ?= Day t').
Proof.
  pose proof (YearFromDay_spec (Day t)) as Hy.
  pose proof (YearFromDay_spec (Day t')) as Hy'.
  fold (YearFromTime t) in Hy. fold (YearFromTime t') in Hy'.
  destruct (Z.compare_spec (YearFromTime t) (YearFromTime t')) as [E|L|G];
    cbn [lex].
  - by apply month_date_order.
  - symmetry. apply Z.compare_lt_iff.
    pose proof (DayFromYear_mono (YearFromTime t + 1) (YearFromTime t')). lia.
  - symmetry. apply Z.compare_gt_iff.
    pose proof (DayFromYear_mono (YearFromTime t' + 1) (YearFromTime t)). lia.
Qed.

Lemma compare_isoDate t t' :
  0 ≤ YearFromTime t ≤ 9999 → 0 ≤ YearFromTime t' ≤ 9999 →
  String.compare (isoDate t) (isoDate t') = (Day t ?= Day t').
Proof.
  intros Hy Hy'.
  pose proof (MonthFromTime_range t) as Hm.
  pose proof (MonthFromTime_range t') as Hm'.
  pose proof (DateFromTime_range t) as Hd.
  pose proof (DateFromTime_range t') as Hd'.
  rewrite <- civil_order. unfold isoDate.
  destruct (isoYear_cases (YearFromTime t)) as [[_ ->]|[[? _]|[? _]]]; [|lia..].
  destruct (isoYear_cases (YearFromTime t')) as [[_ ->]|[[? _]|[? _]]]; [|lia..].
  rewrite !(pad_fixed 3), !(pad_fixed 1)
    by (change (10 ^ Z.of_nat 4) with 10000;
        change (10 ^ Z.of_nat 2) with 100; lia).
  rewrite compare_app by (by rewrite !fixed_length).
  rewrite !cons_app, !nil_app, compare_cons.
  rewrite compare_app by (by rewrite !fixed_length).
  rewrite !compare_cons.
  change (Ascii.compare "-" "-") with Eq. cbn [lex].
  rewrite !compare_fixed by (change (10 ^ Z.of_nat 4) with 10000;
                             change (10 ^ Z.of_nat 2) with 100; lia).
  f_equal. f_equal. apply compare_same_difference. lia.
Qed.

(** X13.  For creation times of the years 0 to 9999 the daily keys compare,
    by their code units, as the UTC days of the orders do: the sort of
    [get_sales_trends] puts the daily rows in chronological order. *)
Theorem daily_keys_sort_by_day :
  ∀ (tza t t' : Z),
    0 ≤ YearFromTime t ≤ 9999 → 0 ≤ YearFromTime t' ≤ 9999 →
    String.compare (periodKey tza "daily" t) (periodKey tza "daily" t')
    = (Day t ?= Day t').
Proof.
  intros tza t t' Hy Hy'. rewrite !periodKey_daily. by apply compare_isoDate.
Qed.

Lemma daily_keys_sort_by_day_witness :
  0 ≤ YearFromTime (utc 2024 5 16 10 0 0) ≤ 9999
  ∧ 0 ≤ YearFromTime (utc 2024 12 31 23 0 0) ≤ 9999
  ∧ String.compare (periodKey 0 "daily" (utc 2024 5 16 10 0 0))
      (periodKey 0 "daily" (utc 2024 12 31 23 0 0))
    = (Day (utc 2024 5 16 10 0 0) ?= Day (utc 2024 12 31 23 0 0)).
Proof.
  split; [by vm_compute|]. split; [by vm_compute|].
  apply (daily_keys_sort_by_day 0); by vm_compute.
Defined.

(** X14.  For creation times whose local year has four digits the monthly
    keys compare as the local months of the orders do, counted from year
    0; the year of the key is not padded, so that the property stops at
    the year 1000 on one side and 9999 on the other. *)
Theorem monthly_keys_sort_by_month :
  ∀ (tza t t' : Z),
    1000 ≤ getFullYear tza t ≤ 9999 → 1000 ≤ getFullYear tza t' ≤ 9999 →
    String.compare (periodKey tza "monthly" t) (periodKey tza "monthly" t')
    = (getFullYear tza t * 12 + getMonth tza t
       ?= getFullYear tza t' * 12 + getMonth tza t').
Proof.
  intros tza t t' Hy Hy'. rewrite !periodKey_monthly.
  pose proof (MonthFromTime_range (LocalTime tza t)) as Hm.
  pose proof (MonthFromTime_range (LocalTime tza t')) as Hm'.
  fold (getMonth tza t) in Hm. fold (getMonth tza t') in Hm'.
  rewrite !pretty_fixed by lia.
  rewrite !(pad_fixed 1) by (change (10 ^ Z.of_nat 2) with 100; lia).
  rewrite compare_app by (by rewrite !fixed_length).
  rewrite !cons_app, !nil_app, compare_cons.
  change (Ascii.compare "-" "-") with Eq. cbn [lex].
  rewrite !compare_fixed by (change (10 ^ Z.of_nat 4) with 10000;
                             change (10 ^ Z.of_nat 2) with 100; lia).
  rewrite <- (lex_step _ _ _ _ 12) by lia.
  f_equal. apply compare_same_difference. lia.
Qed.

Lemma monthly_keys_sort_by_month_witness :
  1000 ≤ getFullYear 0 (utc 2024 5 16 10 0 0) ≤ 9999
  ∧ 1000 ≤ getFullYear 0 (utc 2023 12 31 23 0 0) ≤ 9999
  ∧ String.compare (periodKey 0 "monthly" (utc 2024 5 16 10 0 0))
      (periodKey 0 "monthly" (utc 2023 12 31 23 0 0))
    = (getFullYear 0 (utc 2024 5 16 10 0 0) * 12
       + getMonth 0 (utc 2024 5 16 10 0 0)
       ?= getFullYear 0 (utc 2023 12 31 23 0 0) * 12
          + getMonth 0 (utc 2023 12 31 23 0 0)).
Proof.
  split; [by vm_compute|]. split; [by vm_compute|].
  apply (monthly_keys_sort_by_month 0); by vm_compute.
Defined.

End PeriodOrder.

(** ** Event counts, rates and failures of the GA4 tools *)

Module EventCounts.

Import Mcp GA4 GA4Facts FunnelClaims JsObject JsObjectFacts JsNumFacts.
Local Open Scope Qc_scope.

(** [row.dimensionValues?.[0]?.value ?? "unknown"] *)
Definition segment_of (row : Row) : string :=
  default "unknown" (dimensionValue row).

(** [response.rows], no row when the field is missing. *)
Definition rows_of (response : Response) : list Row :=
  default [] (rows response).

(** The sum of the counts of the rows of a report. *)
Definition total (response : Response) : Z :=
  foldr Z.add 0%Z (row_count <$> rows_of response).

(** The report that [getEventCount] asks for. *)
Definition count_request (range : DateRange) (names : list string)
    (dimensionName : option string) : ReportRequest :=
  {| eventNames := names;
     dimensions := if JsString.falsy dimensionName then []
                   else [default "" dimensionName];
     dateRanges := [range] |}.

(** The [results] map of the segmented branch. *)
Definition segmented (l : list Row) : Counts :=
  fold_left (λ results row, <[Some (segment_of row) := row_count row]> results)
    l ∅.

Lemma fold_left_total (l : list Row) (a : Z) :
  fold_left (λ sum row, (sum + row_count row)%Z) l a
  = (a + foldr Z.add 0 (row_count <$> l))%Z.
Proof.
  revert a. induction l as [|r l IH]; intros a; [simpl; lia|].
  rewrite fmap_cons. cbn [fold_left foldr]. rewrite IH. lia.
Qed.

Lemma getEventCount_cases upstream range names dimensionName :
  getEventCount upstream range names dimensionName
  = match upstream (count_request range names dimensionName) with
    | inl msg =>
        inl (mkError InternalError
               ("GA4 API Error fetching event count: " +:+ msg))
    | inr response =>
        inr (if JsString.falsy dimensionName
             then {[ None := total response ]}
             else segmented (rows_of response))
    end.
Proof.
  unfold getEventCount, count_request.
  destruct (JsString.falsy dimensionName); simpl;
    destruct (upstream _) as [msg|response]; try done.
  unfold total, rows_of. by rewrite fold_left_total.
Qed.

(** A later row of a segment value replaces an earlier one. *)
Lemma segmented_lookup (l : list Row) :
  segmented l !! None = None
  ∧ ∀ k, segmented l !! Some k
         = row_count <$> last (filter (λ row, segment_of row = k) l).
Proof.
  unfold segmented. induction l as [|r l [IH0 IH]] using rev_ind.
  - split; [done|]. intros k. cbn [fold_left]. by rewrite lookup_empty.
  - rewrite fold_left_app. simpl. split.
    + by rewrite lookup_insert_ne.
    + intros k. rewrite filter_app, filter_cons, filter_nil.
      case_decide as E.
      * rewrite last_snoc. simpl. rewrite <- E. by rewrite lookup_insert_eq.
      * rewrite app_nil_r, lookup_insert_ne by congruence. apply IH.
Qed.

Lemma getEventCount_segmented upstream range names dimensionName counts :
  JsString.falsy dimensionName = false →
  getEventCount upstream range names dimensionName = inr counts →
  ∃ response,
    upstream (count_request range names dimensionName) = inr response
    ∧ counts = segmented (rows_of response).
Proof.
  intros Hd H. rewrite getEventCount_cases, Hd in H.
  destruct (upstream _) as [msg|response]; [done|]. injection H as <-.
  by exists response.
Qed.

(** X15.  With a dimension, the counts that [getEventCount] returns never
    have the [null] key of the overall count, and hold for a segment value
    the count of the last row of the report with that value (a row without
    a value counts as ["unknown"]): rows of the same value are not added
    up. *)
Theorem segmented_counts_keep_the_last_row :
  ∀ (upstream : GA4.Upstream) (range : DateRange) (names : list string)
    (dimensionName : option string) (counts : Counts),
    JsString.falsy dimensionName = false →
    getEventCount upstream range names dimensionName = inr counts →
    ∃ response,
      upstream (count_request range names dimensionName) = inr response
      ∧ counts !! None = None
      ∧ ∀ k, counts !! Some k
             = row_count
                 <$> last (filter (λ row, segment_of row = k) (rows_of response)).
Proof.
  intros upstream range names dimensionName counts Hd H.
  apply (getEventCount_segmented _ _ _ _ _ Hd) in H as (response & H & ->).
  exists response. split; [done|]. apply segmented_lookup.
Qed.

(** A report in which the segment ["mobile"] comes twice and one row has no
    segment value. *)
Definition mobile_twice : GA4.Upstream :=
  λ _, inr {| rows := Some [{| dimensionValue := Some "mobile";
                               metricValue := Some 10%Z |};
                            {| dimensionValue := None;
                               metricValue := Some 3%Z |};
                            {| dimensionValue := Some "mobile";
                               metricValue := Some 4%Z |}] |}.

Definition may_2024 : DateRange :=
  {| dr_startDate := "2024-05-01"; dr_endDate := "2024-05-31" |}.

Lemma segmented_counts_keep_the_last_row_witness :
  ∃ counts response,
    getEventCount mobile_twice may_2024 ["purchase"] (Some "deviceCategory")
    = inr counts
    ∧ mobile_twice (count_request may_2024 ["purchase"] (Some "deviceCategory"))
      = inr response
    ∧ counts !! None = None
    ∧ ∀ k, counts !! Some k
           = row_count
               <$> last (filter (λ row, segment_of row = k) (rows_of response)).
Proof.
  eexists.
  destruct (segmented_counts_keep_the_last_row mobile_twice may_2024
              ["purchase"] (Some "deviceCategory") _ eq_refl eq_refl)
    as (response & H1 & H2 & H3).
  exists response. split; [reflexivity|]. split; [exact H1|].
  split; [exact H2|exact H3].
Defined.

Example mobile_twice_counts :
  ∃ counts,
    getEventCount mobile_twice may_2024 ["purchase"] (Some "deviceCategory")
    = inr counts
    ∧ counts !! Some "mobile" = Some 4%Z
    ∧ counts !! Some "unknown" = Some 3%Z
    ∧ counts !! Some "desktop" = None
    ∧ counts !! None = None.
Proof.
  eexists. split; [by rewrite getEventCount_cases|].
  cbn [JsString.falsy String.eqb Ascii.eqb Bool.eqb].
  rewrite !(proj2 (segmented_lookup _)), (proj1 (segmented_lookup _)).
  done.
Qed.

(** *** [calculate_cvr] *)

Lemma calculate_cvr_ok upstream args res :
  calculate_cvr upstream args = inr res →
  ∃ conv base range conversionCounts baseCounts,
    conversionEvents args = Some conv
    ∧ baseEvents args = Some base
    ∧ cvr_dateRange args = Some range
    ∧ getEventCount upstream range conv (cvr_segmentBy args) = inr conversionCounts
    ∧ getEventCount upstream range base (cvr_segmentBy args) = inr baseCounts
    ∧ res = cvr_results (cvr_segmentBy args) conversionCounts baseCounts.
Proof.
  unfold calculate_cvr. intros H.
  destruct (conversionEvents args) as [conv|]; [|done].
  destruct (baseEvents args) as [base|]; [|done].
  destruct (cvr_dateRange args) as [range|]; [|done].
  destruct (getEventCount upstream range conv _) as [e|cc] eqn:Hc; [done|].
  destruct (getEventCount upstream range base _) as [e|bc] eqn:Hb; [done|].
  injection H as <-. by exists conv, base, range, cc, bc.
Qed.

(** X16.  Without [segmentBy], [calculate_cvr] asks for two reports without
    dimension, one for the conversion events and one for the base events,
    and answers with the sums of their rows and the rate of the two sums;
    the answer has no [segments]. *)
Theorem unsegmented_cvr_is_the_rate_of_the_totals :
  ∀ (upstream : GA4.Upstream) (args : CvrArgs) (res : CvrResults),
    JsString.falsy (cvr_segmentBy args) = true →
    calculate_cvr upstream args = inr res →
    ∃ conv base range conversions bases,
      conversionEvents args = Some conv
      ∧ baseEvents args = Some base
      ∧ cvr_dateRange args = Some range
      ∧ upstream {| eventNames := conv; dimensions := [];
                    dateRanges := [range] |} = inr conversions
      ∧ upstream {| eventNames := base; dimensions := [];
                    dateRanges := [range] |} = inr bases
      ∧ res = {| overall :=
                   {| cvr_conversionEvents := total conversions;
                      cvr_baseEvents := total bases;
                      cvr := rate (total conversions) (total bases) |};
                 segments := None |}.
Proof.
  intros upstream args res Hs H.
  apply calculate_cvr_ok in H
    as (conv & base & range & cc & bc & Hc & Hb & Hr & Hcc & Hbc & ->).
  rewrite getEventCount_cases in Hcc, Hbc. unfold count_request in *.
  rewrite Hs in *.
  destruct (upstream _) as [?|conversions] eqn:E1; [done|]. injection Hcc as <-.
  destruct (upstream {| eventNames := base |}) as [?|bases] eqn:E2; [done|].
  injection Hbc as <-.
  exists conv, base, range, conversions, bases.
  repeat (split; [done|]).
  unfold cvr_results, cvr_entry. rewrite Hs. by rewrite !lookup_singleton_eq.
Qed.

(** Ten sign-ups out of forty sessions. *)
Definition ten_of_forty : GA4.Upstream :=
  λ r, if bool_decide (eventNames r = ["sign_up"])
       then inr {| rows := Some [{| dimensionValue := None;
                                    metricValue := Some 4%Z |};
                                 {| dimensionValue := None;
                                    metricValue := Some 6%Z |}] |}
       else inr {| rows := Some [{| dimensionValue := None;
                                    metricValue := Some 40%Z |}] |}.

Definition sign_ups : CvrArgs :=
  {| conversionEvents := Some ["sign_up"];
     baseEvents := Some ["session_start"];
     cvr_segmentBy := None;
     cvr_dateRange := Some may_2024 |}.

Lemma unsegmented_cvr_is_the_rate_of_the_totals_witness :
  ∃ res conv base range conversions bases,
    JsString.falsy (cvr_segmentBy sign_ups) = true
    ∧ calculate_cvr ten_of_forty sign_ups = inr res
    ∧ conversionEvents sign_ups = Some conv
    ∧ baseEvents sign_ups = Some base
    ∧ cvr_dateRange sign_ups = Some range
    ∧ ten_of_forty {| eventNames := conv; dimensions := [];
                      dateRanges := [range] |} = inr conversions
    ∧ ten_of_forty {| eventNames := base; dimensions := [];
                      dateRanges := [range] |} = inr bases
    ∧ res = {| overall :=
                 {| cvr_conversionEvents := total conversions;
                    cvr_baseEvents := total bases;
                    cvr := rate (total conversions) (total bases) |};
               segments := None |}.
Proof.
  eexists.
  destruct (unsegmented_cvr_is_the_rate_of_the_totals ten_of_forty sign_ups _
              eq_refl eq_refl)
    as (conv & base & range & conversions & bases & H).
  exists conv, base, range, conversions, bases.
  split; [reflexivity|]. split; [reflexivity|]. exact H.
Defined.

(** X17.  With [segmentBy], the overall entry of [calculate_cvr] is empty:
    the reports are asked by segment and carry no overall count, so that
    the overall conversions, base events and rate are 0 whatever the
    reports hold.  Every segment entry carries the rate of its own two
    counts. *)
Theorem segmented_cvr_has_no_overall :
  ∀ (upstream : GA4.Upstream) (args : CvrArgs) (res : CvrResults),
    JsString.falsy (cvr_segmentBy args) = false →
    calculate_cvr upstream args = inr res →
    overall res
    = {| cvr_conversionEvents := 0; cvr_baseEvents := 0; cvr := 0 |}
    ∧ ∃ segs, segments res = Some segs
        ∧ ∀ seg entry, segs !! seg = Some entry →
            cvr entry = rate (cvr_conversionEvents entry) (cvr_baseEvents entry).
Proof.
  intros upstream args res Hs H.
  apply calculate_cvr_ok in H
    as (conv & base & range & cc & bc & Hc & Hb & Hr & Hcc & Hbc & ->).
  apply (getEventCount_segmented _ _ _ _ _ Hs) in Hcc as (rc & _ & ->).
  apply (getEventCount_segmented _ _ _ _ _ Hs) in Hbc as (rb & _ & ->).
  unfold cvr_results. rewrite Hs. cbn [overall segments]. split.
  - unfold cvr_entry.
    by rewrite (proj1 (segmented_lookup _)), (proj1 (segmented_lookup _)).
  - eexists. split; [done|]. intros seg entry He.
    rewrite cvr_segments_lookup in He. case_decide; [|done].
    by injection He as <-.
Qed.

Definition purchases_by_device : CvrArgs :=
  {| conversionEvents := Some ["purchase"];
     baseEvents := Some ["session_start"];
     cvr_segmentBy := Some "deviceCategory";
     cvr_dateRange := Some may_2024 |}.

Lemma segmented_cvr_has_no_overall_witness :
  ∃ res,
    JsString.falsy (cvr_segmentBy purchases_by_device) = false
    ∧ calculate_cvr mobile_twice purchases_by_device = inr res
    ∧ overall res
      = {| cvr_conversionEvents := 0; cvr_baseEvents := 0; cvr := 0 |}
    ∧ ∃ segs, segments res = Some segs
        ∧ ∀ seg entry, segs !! seg = Some entry →
            cvr entry = rate (cvr_conversionEvents entry) (cvr_baseEvents entry).
Proof.
  eexists. split; [reflexivity|]. split; [reflexivity|].
  apply (segmented_cvr_has_no_overall mobile_twice purchases_by_device _
           eq_refl eq_refl).
Defined.

End EventCounts.

(** ** The overall funnel and the failures of [analyze_user_journey] *)

Module JourneyFacts.

Import Mcp GA4 GA4Facts FunnelClaims JsObject JsObjectFacts JsNumFacts.
Import EventCounts.
Local Open Scope Qc_scope.

Lemma analyze_user_journey_ok upstream args res :
  analyze_user_journey upstream args = inr res →
  ∃ range rs,
    dateRange args = Some range
    ∧ all ((λ step, getEventCount upstream range [step] (segmentBy args))
             <$> funnelSteps) = inr rs
    ∧ res = journey (segmentBy args) funnelSteps rs.
Proof.
  unfold analyze_user_journey. intros H.
  destruct (dateRange args) as [range|]; [|done].
  destruct (all _) as [e|rs] eqn:Hall; [done|]. injection H as <-.
  by exists range, rs.
Qed.

(** The overall funnel in terms of the counts of the steps. *)
Lemma overall_funnel_counts (m : gmap string Counts) :
  ov_funnel (overall_funnel funnelSteps m)
  = (λ step, (step, step_count m step None)) <$> funnelSteps.
Proof. by rewrite overall_funnel_steps. Qed.

Lemma overall_conversion_rates (m : gmap string Counts) :
  Forall (λ p, ∃ prev step,
            p.2 = rate (step_count m step None) (step_count m prev None))
    (ov_conversion (overall_funnel funnelSteps m)).
Proof.
  rewrite overall_funnel_steps. cbn [ov_conversion].
  repeat (constructor; [by eexists _, _|]). constructor.
Qed.

(** X18.  Without [segmentBy], [analyze_user_journey] reports no segment
    funnels, and its overall funnel lists the six steps in their order,
    each with the sum of the counts of the rows of the report asked for
    that step alone. *)
Theorem unsegmented_funnel_counts_the_rows_of_each_step :
  ∀ (upstream : GA4.Upstream) (args : JourneyArgs) (res : JourneyResults),
    JsString.falsy (segmentBy args) = true →
    analyze_user_journey upstream args = inr res →
    ∃ range,
      dateRange args = Some range
      ∧ segmentFunnels res = None
      ∧ (overallFunnel res).*1 = funnelSteps
      ∧ ∀ step, step ∈ funnelSteps →
          ∃ response,
            upstream {| eventNames := [step]; dimensions := [];
                        dateRanges := [range] |} = inr response
            ∧ get step (overallFunnel res) = Some (total response).
Proof.
  intros upstream args res Hs H.
  apply analyze_user_journey_ok in H as (range & rs & Hr & Hall & ->).
  destruct (journey_results _ _ _ _ Hall) as [_ Hsteps].
  destruct (journey_overall (segmentBy args) rs) as [-> _].
  exists range. split; [done|]. split.
  { unfold journey. destruct (collect _ _ _). simpl. by rewrite Hs. }
  rewrite overall_funnel_counts. split; [done|].
  intros step Hin. destruct (Hsteps step Hin) as (counts & Hc & Hm).
  rewrite getEventCount_cases in Hc. unfold count_request in Hc.
  rewrite Hs in Hc.
  destruct (upstream _) as [?|response]; [done|]. injection Hc as <-.
  exists response. split; [done|].
  assert (step_count (collect (segmentBy args) funnelSteps rs).1 step None
          = total response) as <-.
  { unfold step_count. rewrite Hm. simpl. by rewrite lookup_singleton_eq. }
  generalize (collect (segmentBy args) funnelSteps rs).1. intros m.
  revert Hin. unfold funnelSteps. rewrite !elem_of_cons, elem_of_nil.
  intros [->|[->|[->|[->|[->|[->|[]]]]]]]; reflexivity.
Qed.

Lemma unsegmented_funnel_counts_the_rows_of_each_step_witness :
  ∃ res range,
    JsString.falsy (segmentBy unsegmented) = true
    ∧ analyze_user_journey hundred_then_quarter unsegmented = inr res
    ∧ dateRange unsegmented = Some range
    ∧ segmentFunnels res = None
    ∧ (overallFunnel res).*1 = funnelSteps
    ∧ ∀ step, step ∈ funnelSteps →
        ∃ response,
          hundred_then_quarter {| eventNames := [step]; dimensions := [];
                                  dateRanges := [range] |} = inr response
          ∧ get step (overallFunnel res) = Some (total response).
Proof.
  eexists.
  destruct (unsegmented_funnel_counts_the_rows_of_each_step
              hundred_then_quarter unsegmented _ eq_refl eq_refl)
    as (range & H).
  exists range. split; [reflexivity|]. split; [reflexivity|]. exact H.
Defined.

(** X19.  With [segmentBy], the overall funnel of [analyze_user_journey] is
    empty of events: the reports are asked by segment and carry no overall
    count, so that every step counts 0 and every conversion between two
    steps is 0, whatever the reports hold. *)
Theorem segmented_journey_has_no_overall_counts :
  ∀ (upstream : GA4.Upstream) (args : JourneyArgs) (res : JourneyResults),
    JsString.falsy (segmentBy args) = false →
    analyze_user_journey upstream args = inr res →
    overallFunnel res = (λ step, (step, 0%Z)) <$> funnelSteps
    ∧ Forall (λ p, p.2 = 0) (overallStepConversion res).
Proof.
  intros upstream args res Hs H.
  apply analyze_user_journey_ok in H as (range & rs & Hr & Hall & ->).
  destruct (journey_results _ _ _ _ Hall) as [_ Hsteps].
  destruct (journey_overall (segmentBy args) rs) as [-> ->].
  assert (∀ step, step ∈ funnelSteps →
            step_count (collect (segmentBy args) funnelSteps rs).1 step None
            = 0%Z) as Hz.
  { intros step Hin. destruct (Hsteps step Hin) as (counts & Hc & Hm).
    apply (getEventCount_segmented _ _ _ _ _ Hs) in Hc as (response & _ & ->).
    unfold step_count. rewrite Hm. simpl.
    by rewrite (proj1 (segmented_lookup _)). }
  revert Hz. generalize (collect (segmentBy args) funnelSteps rs).1.
  intros m Hz. rewrite overall_funnel_steps. cbn [ov_funnel ov_conversion].
  rewrite !Hz by (unfold funnelSteps; set_solver).
  split; [done|]. repeat (constructor; [done|]). constructor.
Qed.

Lemma segmented_journey_has_no_overall_counts_witness :
  ∃ res,
    JsString.falsy (segmentBy by_device) = false
    ∧ analyze_user_journey mobile_at_first_step by_device = inr res
    ∧ overallFunnel res = (λ step, (step, 0%Z)) <$> funnelSteps
    ∧ Forall (λ p, p.2 = 0) (overallStepConversion res).
Proof.
  eexists. split; [reflexivity|]. split; [reflexivity|].
  apply (segmented_journey_has_no_overall_counts mobile_at_first_step
           by_device _ eq_refl eq_refl).
Defined.

(** *** Failures *)

(** [Promise.all] fails with the failure of the first call that fails. *)
Lemma all_fmap_inl {A B} (f : A → McpError + B) (l : list A) (e : McpError) :
  all (f <$> l) = inl e
  ↔ ∃ i x, l !! i = Some x ∧ f x = inl e
           ∧ ∀ j y, (j < i)%nat → l !! j = Some y → ∃ r, f y = inr r.
Proof.
  induction l as [|x l IH].
  - split; [done|]. by intros (i & y & Hi & _).
  - rewrite fmap_cons. cbn [all]. destruct (f x) as [e'|r] eqn:E.
    + split.
      * intros [= ->]. exists 0%nat, x. split; [done|]. split; [done|]. lia.
      * intros (i & y & Hi & Hy & Hbefore). destruct i as [|i].
        -- injection Hi as <-. congruence.
        -- destruct (Hbefore 0%nat x) as [r Hr]; [lia|done|congruence].
    + destruct (all (f <$> l)) as [e'|rs] eqn:E'.
      * split.
        -- intros [= ->]. destruct (proj1 IH eq_refl) as (i & y & Hi & Hy & Hb).
           exists (S i), y. split; [done|]. split; [done|].
           intros [|j] z Hj Hz; [injection Hz as <-; by exists r|].
           apply (Hb j); [lia|done].
        -- intros (i & y & Hi & Hy & Hb). destruct i as [|i].
           ++ injection Hi as <-. congruence.
           ++ f_equal. assert (inl e' = (inl e : McpError + list B)) as [= ->];
                [|done].
              apply IH. exists i, y. split; [done|]. split; [done|].
              intros j z Hj Hz. apply (Hb (S j)); [lia|done].
      * split; [done|]. intros (i & y & Hi & Hy & Hb). destruct i as [|i].
        -- injection Hi as <-. congruence.
        -- exfalso. assert (inr rs = (inl e : McpError + list B)) as [=].
           apply IH. exists i, y. split; [done|]. split; [done|].
           intros j z Hj Hz. apply (Hb (S j)); [lia|done].
Qed.

(** With a date range, the tool answers when the reports of the six steps
    all succeed, and fails with the error of a step whose report failed
    when one does. *)
Lemma analyze_user_journey_cases upstream args range :
  dateRange args = Some range →
  ((∀ step, step ∈ funnelSteps →
      ∃ response,
        upstream (count_request range [step] (segmentBy args)) = inr response) →
   ∃ res, analyze_user_journey upstream args = inr res)
  ∧ ((∃ step msg,
        step ∈ funnelSteps
        ∧ upstream (count_request range [step] (segmentBy args)) = inl msg) →
     ∃ step msg,
       step ∈ funnelSteps
       ∧ upstream (count_request range [step] (segmentBy args)) = inl msg
       ∧ analyze_user_journey upstream args
         = inl (mkError InternalError
                  ("GA4 API Error fetching event count: " +:+ msg))).
Proof.
  intros Hrange. unfold analyze_user_journey. rewrite Hrange.
  destruct (all _) as [e|rs] eqn:Hall.
  - apply all_fmap_inl in Hall as (i & step & Hi & He & _).
    rewrite getEventCount_cases in He.
    destruct (upstream (count_request range [step] _)) as [msg|?] eqn:Hu;
      [|done].
    injection He as <-.
    assert (step ∈ funnelSteps) as Hin by (by eapply list_elem_of_lookup_2).
    split.
    + intros Hok. destruct (Hok step Hin) as [response Hr]. congruence.
    + intros _. by exists step, msg.
  - split; [by eexists|].
    intros (step & msg & Hin & Hu). exfalso.
    apply GA4Facts.all_fmap in Hall.
    apply list_elem_of_lookup in Hin as [i Hi].
    destruct (Forall2_lookup_l _ _ _ _ _ Hall Hi) as (counts & _ & Hc).
    rewrite getEventCount_cases, Hu in Hc. done.
Qed.

(** *** Rates *)

(** The quotient of two counts as a double, times 100, as a double. *)
Definition percent (c b : Z) : Qc :=
  JsNum.mul (JsNum.quot (JsNum.of_Z c) (JsNum.of_Z b)) (Q2Qc 100).

Lemma of_Z_pos (b : Z) : (0 < b)%Z → 0 < JsNum.of_Z b.
Proof.
  intros Hb. unfold Qclt. rewrite this_of_Z.
  change (this (Q2Qc 0)) with (inject_Z 0). by rewrite <- Zlt_Qlt.
Qed.

Lemma percent_mono (c c' b : Z) :
  (0 < b)%Z → (c ≤ c')%Z → percent c b <= percent c' b.
Proof.
  intros Hb Hc. unfold percent, JsNum.mul, JsNum.quot.
  apply fl_mono, Qcmult_le_compat_r; [|done].
  apply fl_mono. unfold Qcle. rewrite !this_div, !this_of_Z.
  apply Qmult_le_compat_r; [by rewrite <- Zle_Qle|].
  apply Qlt_le_weak, Qinv_lt_0_compat.
  change 0%Q with (inject_Z 0). by rewrite <- Zlt_Qlt.
Qed.

Lemma percent_whole (b : Z) : (0 < b)%Z → percent b b = Q2Qc 100.
Proof.
  intros Hb. unfold percent, JsNum.mul, JsNum.quot.
  assert (JsNum.of_Z b / JsNum.of_Z b = 1) as ->; [|compute_done].
  unfold Qcdiv. apply Qcmult_inv_r. intros H.
  pose proof (of_Z_pos b Hb) as Hp. rewrite H in Hp. by compute in Hp.
Qed.

Lemma percent_none (b : Z) : percent 0 b = 0.
Proof.
  unfold percent, JsNum.mul, JsNum.quot.
  assert (JsNum.of_Z 0 / JsNum.of_Z b = 0) as ->; [|compute_done].
  unfold Qcdiv. change (JsNum.of_Z 0) with (Q2Qc 0). ring.
Qed.

Lemma rate_percent (c b : Z) :
  (0 < b)%Z → rate c b = JsNum.toFixed2 (percent c b).
Proof. intros Hb. unfold rate. by rewrite decide_True. Qed.

Lemma rate_nothing (c b : Z) : ¬ (0 < b)%Z → rate c b = 0.
Proof. intros Hb. unfold rate. by rewrite decide_False. Qed.

(** X21.  The rate that the tools report grows with the conversions, is at
    least 0 for conversions from 0 on and at most 100 for conversions that
    do not exceed the base; it is not capped, so that more conversions than
    base events give a rate above 100. *)
Theorem rate_grows_with_conversions :
  ∀ (c c' b : Z),
    (c ≤ c')%Z →
    rate c b <= rate c' b
    ∧ ((0 ≤ c)%Z → 0 <= rate c b)
    ∧ ((c' ≤ b)%Z → rate c' b <= Q2Qc 100)
    ∧ ((0 < b)%Z → (b < c)%Z → Q2Qc 100 <= rate c b).
Proof.
  intros c c' b Hc.
  destruct (decide (0 < b)%Z) as [Hb|Hb];
    [|by rewrite !rate_nothing by done].
  rewrite !rate_percent by done.
  assert (JsNum.toFixed2 (percent b b) = Q2Qc 100) as Hwhole
    by (rewrite percent_whole by done; compute_done).
  assert (JsNum.toFixed2 (percent 0 b) = 0) as Hnone
    by (rewrite percent_none; compute_done).
  split; [by apply toFixed2_mono, percent_mono|]. split; [|split].
  - intros H0. rewrite <- Hnone. by apply toFixed2_mono, percent_mono.
  - intros Hle. rewrite <- Hwhole. by apply toFixed2_mono, percent_mono.
  - intros _ Hlt. rewrite <- Hwhole. apply toFixed2_mono, percent_mono; lia.
Qed.

Lemma rate_grows_with_conversions_witness :
  (25 ≤ 50)%Z
  ∧ rate 25 100 <= rate 50 100
  ∧ ((0 ≤ 25)%Z → 0 <= rate 25 100)
  ∧ ((50 ≤ 100)%Z → rate 50 100 <= Q2Qc 100)
  ∧ ((0 < 100)%Z → (100 < 25)%Z → Q2Qc 100 <= rate 25 100).
Proof.
  split; [lia|]. apply (rate_grows_with_conversions 25 50 100). lia.
Defined.

End JourneyFacts.

(** ** The failures of [calculate_cvr] *)

Module CvrFailures.

Import Mcp GA4 GA4Facts EventCounts.

(** Past the reading of its arguments, [calculate_cvr] fails in two ways
    only: with [InvalidParams] when the conversion events, the base events
    or the date range are missing, and with [InternalError] when one of
    its two reports, which it awaits one after the other, fails. *)
Lemma calculate_cvr_fails :
  ∀ (upstream : GA4.Upstream) (args : CvrArgs) (e : McpError),
    calculate_cvr upstream args = inl e
    ↔ ((conversionEvents args = None ∨ baseEvents args = None
        ∨ cvr_dateRange args = None)
       ∧ e = mkError InvalidParams
               "conversionEvents, baseEvents, and dateRange are required for calculate_cvr.")
      ∨ (∃ conv base range msg,
           conversionEvents args = Some conv
           ∧ baseEvents args = Some base
           ∧ cvr_dateRange args = Some range
           ∧ e = mkError InternalError
                   ("GA4 API Error fetching event count: " +:+ msg)
           ∧ (upstream (count_request range conv (cvr_segmentBy args)) = inl msg
              ∨ ((∃ conversions,
                    upstream (count_request range conv (cvr_segmentBy args))
                    = inr conversions)
                 ∧ upstream (count_request range base (cvr_segmentBy args))
                   = inl msg))).
Proof.
  intros upstream args e. unfold calculate_cvr.
  destruct (conversionEvents args) as [conv|].
  2: { split; [intros [= <-]; left; split; [by left|done]|].
       intros [[_ ->]|(? & ? & ? & ? & [=] & _)]. done. }
  destruct (baseEvents args) as [base|].
  2: { split; [intros [= <-]; left; split; [by right; left|done]|].
       intros [[_ ->]|(? & ? & ? & ? & _ & [=] & _)]. done. }
  destruct (cvr_dateRange args) as [range|].
  2: { split; [intros [= <-]; left; split; [by right; right|done]|].
       intros [[_ ->]|(? & ? & ? & ? & _ & _ & [=] & _)]. done. }
  rewrite !getEventCount_cases.
  destruct (upstream (count_request range conv _)) as [m1|r1] eqn:E1.
  - split.
    + intros [= <-]. right. exists conv, base, range, m1.
      repeat (split; [done|]). by left.
    + intros [[[?|[?|?]] _]|(? & ? & ? & msg & [= <-] & [= <-] & [= <-] & -> & H)];
        [done..|].
      rewrite E1 in H. destruct H as [[= ->]|[[? [=]] _]]. done.
  - destruct (upstream (count_request range base _)) as [m2|r2] eqn:E2.
    + split.
      * intros [= <-]. right. exists conv, base, range, m2.
        repeat (split; [done|]). right. split; [by eexists|done].
      * intros [[[?|[?|?]] _]|(? & ? & ? & msg & [= <-] & [= <-] & [= <-] & -> & H)];
          [done..|].
        rewrite E1, E2 in H. destruct H as [[=]|[_ [= ->]]]. done.
    + split; [done|].
      intros [[[?|[?|?]] _]|(? & ? & ? & msg & [= <-] & [= <-] & [= <-] & -> & H)];
        [done..|].
      rewrite E1, E2 in H. by destruct H as [[=]|[_ [=]]].
Qed.

End CvrFailures.


(** ** The configuration that [src/shopify.ts] reads when it is loaded *)

Module ShopifyStartup.

Import Mcp Shopify.

(** [process.env], after [dotenv.config()]. *)
Definition Env : Type := string → option string.

Section Load.

Variable env : Env.

Definition ENV_ACCESS_TOKEN : option string := env "SHOPIFY_ACCESS_TOKEN".

Definition ENV_SHOP_DOMAIN : option string := env "SHOPIFY_SHOP_DOMAIN".

(** [process.env.SHOPIFY_API_VERSION || "2024-07"] *)
Definition ENV_API_VERSION : string :=
  if JsString.falsy (env "SHOPIFY_API_VERSION") then "2024-07"
  else default "" (env "SHOPIFY_API_VERSION").

(** The value of [shopifyConfig] once the module is loaded. *)
Definition shopifyConfig : option ShopifyConfig :=
  if negb (JsString.falsy ENV_SHOP_DOMAIN) && negb (JsString.falsy ENV_ACCESS_TOKEN)
  then Some {| shopDomain := default "" ENV_SHOP_DOMAIN;
               accessToken := default "" ENV_ACCESS_TOKEN;
               apiVersion := ENV_API_VERSION |}
  else None.

End Load.

(** X23.  The server is configured exactly when the environment gives a
    non-empty shop domain and a non-empty access token; the API version is
    never missing, it is ["2024-07"] when the environment gives none.
    Without configuration every call, whatever the tool and the arguments,
    fails with [InvalidRequest] before any request is sent. *)
Theorem server_needs_domain_and_token_only :
  ∀ (env : Env) (upstream : Upstream) (tza : Z) (fuel : nat)
    (toolName : string) (args : Args),
    (match shopifyConfig env with
     | Some c =>
         env "SHOPIFY_SHOP_DOMAIN" = Some (shopDomain c)
         ∧ shopDomain c ≠ ""
         ∧ env "SHOPIFY_ACCESS_TOKEN" = Some (accessToken c)
         ∧ accessToken c ≠ ""
         ∧ apiVersion c ≠ ""
         ∧ (JsString.falsy (env "SHOPIFY_API_VERSION") = true →
            apiVersion c = "2024-07")
         ∧ (JsString.falsy (env "SHOPIFY_API_VERSION") = false →
            env "SHOPIFY_API_VERSION" = Some (apiVersion c))
     | None =>
         (JsString.falsy (env "SHOPIFY_SHOP_DOMAIN") = true
          ∨ JsString.falsy (env "SHOPIFY_ACCESS_TOKEN") = true)
         ∧ run (callTool (shopifyConfig env) upstream tza fuel toolName args)
           = (inl (mkError InvalidRequest
                "Shopify client not configured. Please set SHOPIFY_SHOP_DOMAIN, SHOPIFY_ACCESS_TOKEN, and SHOPIFY_API_VERSION environment variables."),
              [])
     end).
Proof.
  intros env upstream tza fuel toolName args.
  unfold shopifyConfig, ENV_SHOP_DOMAIN, ENV_ACCESS_TOKEN, ENV_API_VERSION,
    JsString.falsy.
  destruct (env "SHOPIFY_SHOP_DOMAIN") as [d|]; cbn [negb andb].
  2: { split; [by left|done]. }
  destruct (String.eqb d "") eqn:Ed; cbn [negb andb].
  { split; [by left|done]. }
  destruct (env "SHOPIFY_ACCESS_TOKEN") as [t|]; cbn [negb andb].
  2: { split; [by right|done]. }
  destruct (String.eqb t "") eqn:Et; cbn [negb andb].
  { split; [by right|done]. }
  apply String.eqb_neq in Ed, Et. cbn [shopDomain accessToken apiVersion].
  repeat (split; [done|]).
  destruct (env "SHOPIFY_API_VERSION") as [v|]; [|by repeat split].
  destruct (String.eqb v "") eqn:Ev; [by repeat split|].
  apply String.eqb_neq in Ev. by repeat split.
Qed.

End ShopifyStartup.

(* ===================================================================== *)
(** * Part V: the request handler of [src/ga4.ts]                         *)
(* ===================================================================== *)

(** ** The embedding of the handler

    The handler of [CallToolRequestSchema] keeps two module variables, the
    client and the property id, and answers every call with a text: a
    failure inside it is caught and reported as text as well.  The texts
    that print a result are kept as the values they print. *)

Module GA4Server.

Import Mcp.

(** An argument the type of which the handler inspects. *)
Inductive JsValue : Set :=
| js_undefined
| js_string (s : string)
| js_other.

(** [request.params.arguments], an object; a field that is not given is
    [None] ([js_undefined] for [propertyId]). *)
Record Args : Set :=
  { arg_propertyId : JsValue;
    arg_dateRange : option GA4.DateRange;
    arg_metrics : option (list string);
    arg_dimensions : option (list string);
    arg_conversionEvents : option (list string);
    arg_baseEvents : option (list string);
    arg_segmentBy : option string }.

Inductive Client : Set := BetaAnalyticsDataClient.

(** [analyticsDataClient] and [propertyId], both [null] at the start. *)
Record State : Set :=
  { analyticsDataClient : option Client;
    propertyId : option string }.

Definition initial : State :=
  {| analyticsDataClient := None; propertyId := None |}.

(** The [runReport] call of [get_ga4_data]. *)
Record DataRequest : Set :=
  { property : string;
    rq_dateRanges : list GA4.DateRange;
    rq_dimensions : list string;
    rq_metrics : list string }.

Record Header : Set := { name : string }.

Record Value : Set := { value : string }.

Record DataRow : Set :=
  { dimensionValues : option (list Value);
    metricValues : option (list Value) }.

(** The report, as far as [get_ga4_data] reads it; [metadata] and
    [propertyQuota] are passed on as they are. *)
Record DataResponse : Set :=
  { dimensionHeaders : option (list Header);
    metricHeaders : option (list Header);
    rs_rows : option (list DataRow);
    rowCount : option Z;
    metadata : option string;
    propertyQuota : option string;
    kind : option string }.

Record FormattedResponse : Type :=
  { f_dimensionHeaders : option (list string);
    f_metricHeaders : option (list string);
    f_rows : option (list (JsObject.t string));
    f_rowCount : option Z;
    f_metadata : option string;
    f_propertyQuota : option string;
    f_kind : option string }.

(** What lies outside the handler at the time of a call:
    - [construct]: [new BetaAnalyticsDataClient()], the client or the
      message of the error it throws;
    - [runReport]: the Data API as [get_ga4_data] calls it, a report or the
      message of the error;
    - [runEventReport]: the Data API as [getEventCount] calls it, for the
      property named first;
    - [typeError]: the message of the [TypeError] of reading the named
      property of [undefined]. *)
Record World : Type :=
  { construct : string + Client;
    runReport : DataRequest → string + DataResponse;
    runEventReport : string → GA4.Upstream;
    typeError : string → string }.

(** The text that a call is answered with: the result it prints, or the
    error that the handler caught, printed as
    ["エラーが発生しました: " + error.message]. *)
Inductive ToolResult : Type :=
| Initialized (id : string)
| Data (formattedResponse : FormattedResponse)
| CvrResult (cvrResults : GA4.CvrResults)
| Journey (journeyResults : GA4.JourneyResults)
| UnknownTool (toolName : string)
| ErrorText (error : McpError).

Section Call.

Variable w : World.

Variable st : State.

(** [`properties/${propertyId}`] *)
Definition property_of : string :=
  "properties/" +:+ default "null" (propertyId st).

Definition setup_ga4_client (args : Args) : McpError + State * ToolResult :=
  let invalid :=
    inl (mkError InvalidParams "propertyId is required and must be a string.") in
  match arg_propertyId args with
  | js_string id =>
      if String.eqb id "" then invalid
      else
        match construct w with
        | inr client =>
            inr ({| analyticsDataClient := Some client; propertyId := Some id |},
                 Initialized id)
        | inl msg =>
            inl (mkError InternalError
                   ("GA4クライアントの初期化に失敗しました: " +:+ msg
                    +:+ ". GOOGLE_APPLICATION_CREDENTIALS環境変数が正しく設定されているか確認してください。"))
        end
  | _ => invalid
  end.

(** One of the two [forEach] that fill [rowData]: the value at index [i]
    goes under the name of the header at index [i]; reading a header that
    is not there throws. *)
Fixpoint fill (headers : option (list Header)) (i : nat) (values : list Value)
    (rowData : JsObject.t string) : string + JsObject.t string :=
  match values with
  | [] => inr rowData
  | v :: values' =>
      match headers with
      | None => inl (typeError w (pretty i))
      | Some hs =>
          match hs !! i with
          | None => inl (typeError w "name")
          | Some h =>
              fill headers (S i) values' (JsObject.set (name h) (value v) rowData)
          end
      end
  end.

(** The callback of [response.rows?.map]. *)
Definition rowData (response : DataResponse) (row : DataRow)
    : string + JsObject.t string :=
  match fill (dimensionHeaders response) 0 (default [] (dimensionValues row))
          JsObject.empty with
  | inl msg => inl msg
  | inr o => fill (metricHeaders response) 0 (default [] (metricValues row)) o
  end.

(** [Array.prototype.map] with a callback that may throw. *)
Fixpoint map_throwing {A B} (f : A → string + B) (l : list A) : string + list B :=
  match l with
  | [] => inr []
  | a :: l' =>
      match f a with
      | inl msg => inl msg
      | inr b =>
          match map_throwing f l' with
          | inl msg => inl msg
          | inr bs => inr (b :: bs)
          end
      end
  end.

Definition formattedResponse (response : DataResponse)
    : string + FormattedResponse :=
  let formatted rows :=
    {| f_dimensionHeaders :=
         (λ headers : list Header, name <$> headers) <$> dimensionHeaders response;
       f_metricHeaders :=
         (λ headers : list Header, name <$> headers) <$> metricHeaders response;
       f_rows := rows;
       f_rowCount := rowCount response;
       f_metadata := metadata response;
       f_propertyQuota := propertyQuota response;
       f_kind := kind response |} in
  match rs_rows response with
  | None => inr (formatted None)
  | Some rows =>
      match map_throwing (rowData response) rows with
      | inl msg => inl msg
      | inr l => inr (formatted (Some l))
      end
  end.

Definition data_request (dateRange : GA4.DateRange)
    (metrics dimensions : list string) : DataRequest :=
  {| property := property_of;
     rq_dateRanges := [{| GA4.dr_startDate := GA4.dr_startDate dateRange;
                          GA4.dr_endDate := GA4.dr_endDate dateRange |}];
     rq_dimensions := dimensions;
     rq_metrics := metrics |}.

Definition get_ga4_data (args : Args) : McpError + ToolResult :=
  match arg_dateRange args, arg_metrics args, arg_dimensions args with
  | Some dateRange, Some metrics, Some dimensions =>
      let failed msg :=
        inl (mkError InternalError
               ("GA4 APIからのデータ取得中にエラーが発生しました: " +:+ msg)) in
      match runReport w (data_request dateRange metrics dimensions) with
      | inl msg => failed msg
      | inr response =>
          match formattedResponse response with
          | inl msg => failed msg
          | inr formatted => inr (Data formatted)
          end
      end
  | _, _, _ =>
      inl (mkError InvalidParams
             "dateRange, metrics, and dimensions are required for get_ga4_data.")
  end.

Definition cvr_args (args : Args) : GA4.CvrArgs :=
  {| GA4.conversionEvents := arg_conversionEvents args;
     GA4.baseEvents := arg_baseEvents args;
     GA4.cvr_segmentBy := arg_segmentBy args;
     GA4.cvr_dateRange := arg_dateRange args |}.

Definition journey_args (args : Args) : GA4.JourneyArgs :=
  {| GA4.segmentBy := arg_segmentBy args;
     GA4.dateRange := arg_dateRange args |}.

(** The body of the [try] of the handler: the new state and the answer, or
    the error thrown. *)
Definition body (toolName : string) (args : Args)
    : McpError + State * ToolResult :=
  if String.eqb toolName "setup_ga4_client" then setup_ga4_client args
  else if negb (bool_decide (is_Some (analyticsDataClient st)))
          && negb (String.eqb toolName "setup_ga4_client")
  then
    inl (mkError InvalidRequest
           "エラー: GA4クライアントが設定されていません。先にsetup_ga4_clientを呼び出してください。")
  else if String.eqb toolName "get_ga4_data" then
    match get_ga4_data args with
    | inl e => inl e
    | inr res => inr (st, res)
    end
  else if String.eqb toolName "calculate_cvr" then
    match GA4.calculate_cvr (runEventReport w property_of) (cvr_args args) with
    | inl e => inl e
    | inr res => inr (st, CvrResult res)
    end
  else if String.eqb toolName "analyze_user_journey" then
    match GA4.analyze_user_journey (runEventReport w property_of)
            (journey_args args) with
    | inl e => inl e
    | inr res => inr (st, Journey res)
    end
  else inr (st, UnknownTool toolName).

(** The handler: the outer [catch] turns every error into a text. *)
Definition callTool (toolName : string) (args : Args) : State * ToolResult :=
  match body toolName args with
  | inl e => (st, ErrorText e)
  | inr r => r
  end.

End Call.

(** The answer to a call of the protocol: the answer of [callTool], or, for
    an error that is not an [McpError], the text
    ["エラーが発生しました: " + error.message] of the outer [catch]. *)
Inductive Answer : Type :=
| Answered (r : ToolResult)
| Thrown (message : string).

(** The handler as the protocol calls it: [request.params.arguments] is
    optional.  Without it, [setup_ga4_client] reads [propertyId] of
    [undefined]; the other tools, past the check of the client, begin by
    destructuring [undefined]: [destructureError] is the message of that
    [TypeError], for the property that the tool names first.  An unknown
    tool reads no argument. *)
Definition handler (w : World) (st : State) (destructureError : string → string)
    (toolName : string) (arguments : option Args) : State * Answer :=
  match arguments with
  | Some args =>
      let '(st', r) := callTool w st toolName args in (st', Answered r)
  | None =>
      if String.eqb toolName "setup_ga4_client" then
        (st, Thrown (typeError w "propertyId"))
      else if negb (bool_decide (is_Some (analyticsDataClient st))) then
        (st, Answered (ErrorText (mkError InvalidRequest
           "エラー: GA4クライアントが設定されていません。先にsetup_ga4_clientを呼び出してください。")))
      else if String.eqb toolName "get_ga4_data" then
        (st, Thrown (destructureError "dateRange"))
      else if String.eqb toolName "calculate_cvr" then
        (st, Thrown (destructureError "conversionEvents"))
      else if String.eqb toolName "analyze_user_journey" then
        (st, Thrown (destructureError "segmentBy"))
      else (st, Answered (UnknownTool toolName))
  end.

(** A call and what lies outside the handler when it is served. *)
Record Call : Type :=
  { world : World;
    toolName : string;
    arguments : Args }.

(** The calls served one after the other, from state [st]. *)
Fixpoint serve (st : State) (calls : list Call) : State * list ToolResult :=
  match calls with
  | [] => (st, [])
  | c :: calls' =>
      let '(st', r) := callTool (world c) st (toolName c) (arguments c) in
      let '(st'', rs) := serve st' calls' in
      (st'', r :: rs)
  end.

End GA4Server.

(** ** Properties of the handler *)

Module GA4ServerFacts.

Import Mcp JsObject JsObjectFacts GA4Server.
Local Open Scope nat_scope.

(** The error of a call made before the client is set up. *)
Definition not_configured : McpError :=
  mkError InvalidRequest
    "エラー: GA4クライアントが設定されていません。先にsetup_ga4_clientを呼び出してください。".

(** X24.  Before the client is set up, every call of another tool than
    [setup_ga4_client], an unknown tool included, is answered with the text
    of the not-configured error; the state stays as it is, and neither the
    arguments nor the Data API are looked at. *)
Theorem tools_wait_for_the_client :
  ∀ (w : World) (st : State) (toolName : string) (args : Args),
    analyticsDataClient st = None →
    toolName ≠ "setup_ga4_client" →
    callTool w st toolName args = (st, ErrorText not_configured).
Proof.
  intros w st toolName args Hc Hn. unfold callTool, body.
  apply String.eqb_neq in Hn. rewrite Hn, Hc. reflexivity.
Qed.

(** A world without credentials and without network. *)
Definition offline : World :=
  {| construct := inl "Could not load the default credentials";
     runReport := λ _, inl "UNAVAILABLE";
     runEventReport := λ _ _, inl "UNAVAILABLE";
     typeError := λ key,
       "Cannot read properties of undefined (reading '" +:+ key +:+ "')" |}.

Definition no_args : Args :=
  {| arg_propertyId := js_undefined;
     arg_dateRange := None;
     arg_metrics := None;
     arg_dimensions := None;
     arg_conversionEvents := None;
     arg_baseEvents := None;
     arg_segmentBy := None |}.

Lemma tools_wait_for_the_client_witness :
  analyticsDataClient initial = None
  ∧ "no_such_tool" ≠ "setup_ga4_client"
  ∧ callTool offline initial "no_such_tool" no_args
    = (initial, ErrorText not_configured).
Proof.
  split; [reflexivity|]. split; [discriminate|].
  apply (tools_wait_for_the_client offline initial "no_such_tool" no_args);
    [reflexivity|discriminate].
Defined.

(** The state that a call sets up, if it does: the call of
    [setup_ga4_client] with a non-empty string as [propertyId], served
    while the client can be constructed. *)
Definition accepted (c : Call) : option State :=
  if String.eqb (toolName c) "setup_ga4_client" then
    match arg_propertyId (arguments c), construct (world c) with
    | js_string id, inr client =>
        if String.eqb id "" then None
        else Some {| analyticsDataClient := Some client; propertyId := Some id |}
    | _, _ => None
    end
  else None.

Lemma callTool_state w st toolName args :
  (callTool w st toolName args).1
  = default st (accepted {| world := w; toolName := toolName;
                            arguments := args |}).
Proof.
  unfold callTool, body, accepted. cbn [GA4Server.toolName world arguments].
  destruct (String.eqb toolName "setup_ga4_client").
  - unfold setup_ga4_client.
    destruct (arg_propertyId args) as [|id|], (construct w); try done;
      by destruct (String.eqb id "").
  - destruct (negb _ && negb _); [done|].
    destruct (String.eqb toolName "get_ga4_data");
      [by destruct (get_ga4_data w st args)|].
    destruct (String.eqb toolName "calculate_cvr");
      [by destruct (GA4.calculate_cvr _ _)|].
    destruct (String.eqb toolName "analyze_user_journey");
      [by destruct (GA4.analyze_user_journey _ _)|done].
Qed.

Lemma serve_state st calls :
  (serve st calls).1 = default st (last (omap accepted calls)).
Proof.
  revert st. induction calls as [|c calls IH]; intros st; [done|].
  cbn [serve]. pose proof (callTool_state (world c) st (toolName c) (arguments c)) as H.
  destruct (callTool (world c) st (toolName c) (arguments c)) as [st' r].
  pose proof (IH st') as IH'. destruct (serve st' calls) as [st'' rs].
  cbn [fst] in *. rewrite IH', H. clear.
  assert ({| world := world c; toolName := toolName c; arguments := arguments c |}
          = c) as -> by (by destruct c).
  cbn [omap list_omap]. destruct (accepted c) as [s|]; [|done].
  rewrite last_cons. by destruct (last (omap accepted calls)).
Qed.

(** X25.  Whatever calls are served, in whatever worlds, the state of the
    server is the one set up by the last accepted call of
    [setup_ga4_client], and the initial state when there was none: no other
    tool and no failed call changes the client or the property id.  A
    server started from the initial state therefore has a property id
    exactly when it has a client. *)
Theorem state_follows_the_last_accepted_setup :
  ∀ (st : State) (calls : list Call),
    (serve st calls).1 = default st (last (omap accepted calls))
    ∧ (is_Some (analyticsDataClient (serve initial calls).1)
       ↔ is_Some (propertyId (serve initial calls).1)).
Proof.
  intros st calls. split; [apply serve_state|].
  rewrite serve_state.
  destruct (last (omap accepted calls)) as [s|] eqn:E; simpl.
  - apply last_Some_elem_of, list_elem_of_omap in E as (c & _ & Hc).
    unfold accepted in Hc.
    repeat (case_match; try done). injection Hc as <-. simpl.
    split; intros _; by eexists.
  - split; intros [? [=]].
Qed.

(** *** [get_ga4_data] *)

(** The assignments that a row makes for its values under the headers. *)
Definition assignments (headers : option (list Header))
    (values : option (list Value)) : list (string * string) :=
  zip (name <$> default [] headers) (value <$> default [] values).

(** Every value has its header. *)
Definition covered (headers : option (list Header))
    (values : option (list Value)) : Prop :=
  length (default [] values) ≤ length (default [] headers).

#[global] Instance covered_dec headers values : Decision (covered headers values).
Proof. unfold covered. apply _. Defined.

Definition assign (o : JsObject.t string) (p : string * string)
    : JsObject.t string :=
  JsObject.set p.1 p.2 o.

Lemma fill_covered w (hs : list Header) (i : nat) (vs : list Value)
    (o : JsObject.t string) :
  length vs + i ≤ length hs →
  fill w (Some hs) i vs o
  = inr (fold_left assign (zip (name <$> drop i hs) (value <$> vs)) o).
Proof.
  revert i o. induction vs as [|v vs IH]; intros i o Hl.
  - simpl. by rewrite zip_with_nil_r.
  - simpl in Hl. cbn [fill].
    destruct (hs !! i) as [h|] eqn:Hi.
    2: { apply lookup_ge_None in Hi. lia. }
    rewrite IH by lia. rewrite (drop_S _ _ _ Hi). done.
Qed.

Lemma fill_uncovered w (headers : option (list Header)) (i : nat)
    (vs : list Value) (o : JsObject.t string) :
  i ≤ length (default [] headers) →
  length (default [] headers) < length vs + i →
  ∃ msg, fill w headers i vs o = inl msg.
Proof.
  revert i o. induction vs as [|v vs IH]; intros i o Hi Hl.
  - simpl in Hl. lia.
  - cbn [fill]. destruct headers as [hs|]; [|by eexists].
    destruct (hs !! i) as [h|] eqn:E; [|by eexists].
    apply lookup_lt_Some in E. simpl in *. apply IH; simpl; lia.
Qed.

Lemma get_assigned k (pairs : list (string * string)) (o : JsObject.t string) :
  get k (fold_left assign pairs o)
  = match last (filter (λ p, p.1 = k) pairs) with
    | Some p => Some p.2
    | None => get k o
    end.
Proof.
  induction pairs as [|p pairs IH] using rev_ind; [done|].
  rewrite fold_left_app, filter_app, filter_cons, filter_nil. cbn [fold_left].
  unfold assign at 1. rewrite get_set. case_decide as E.
  - by rewrite last_snoc.
  - by rewrite app_nil_r.
Qed.

Lemma fill_assignments w headers values (o : JsObject.t string) :
  covered headers values →
  fill w headers 0 (default [] values) o
  = inr (fold_left assign (assignments headers values) o).
Proof.
  unfold covered, assignments. intros Hc. destruct headers as [hs|].
  - rewrite fill_covered by (simpl in Hc; lia). by rewrite drop_0.
  - simpl in Hc. destruct (default [] values); [done|simpl in Hc; lia].
Qed.

Lemma rowData_covered w response row :
  covered (dimensionHeaders response) (dimensionValues row) →
  covered (metricHeaders response) (metricValues row) →
  rowData w response row
  = inr (fold_left assign
           (assignments (dimensionHeaders response) (dimensionValues row)
            ++ assignments (metricHeaders response) (metricValues row))
           JsObject.empty).
Proof.
  intros Hd Hm. unfold rowData.
  by rewrite (fill_assignments _ _ _ _ Hd), (fill_assignments _ _ _ _ Hm),
    fold_left_app.
Qed.

Lemma rowData_uncovered w response row :
  ¬ (covered (dimensionHeaders response) (dimensionValues row)
     ∧ covered (metricHeaders response) (metricValues row)) →
  ∃ msg, rowData w response row = inl msg.
Proof.
  intros Hn. unfold rowData.
  destruct (decide (covered (dimensionHeaders response) (dimensionValues row)))
    as [Hd|Hd].
  - rewrite (fill_assignments _ _ _ _ Hd).
    apply fill_uncovered; [lia|].
    destruct (decide (covered (metricHeaders response) (metricValues row)));
      [tauto|]. unfold covered in *. lia.
  - destruct (fill_uncovered w (dimensionHeaders response) 0
                (default [] (dimensionValues row)) JsObject.empty) as [msg ->];
      [lia|unfold covered in Hd; lia|]. by eexists.
Qed.

(** X26.  A row whose values all have their header becomes an object that
    holds, under every header name, the value at the index of that header;
    where two headers have the same name the later one wins, and a metric
    wins over a dimension. *)
Theorem row_data_maps_header_names_to_values :
  ∀ (w : World) (response : DataResponse) (row : DataRow),
    covered (dimensionHeaders response) (dimensionValues row) →
    covered (metricHeaders response) (metricValues row) →
    ∃ o, rowData w response row = inr o
         ∧ ∀ k, get k o
                = snd <$> last (filter (λ p, p.1 = k)
                    (assignments (dimensionHeaders response) (dimensionValues row)
                     ++ assignments (metricHeaders response) (metricValues row))).
Proof.
  intros w response row Hd Hm. eexists. split; [by apply rowData_covered|].
  intros k. rewrite get_assigned. by destruct (last _).
Qed.

(** A report by country and by a dimension that is named like the metric,
    with one row. *)
Definition sessions_by_country : DataResponse :=
  {| dimensionHeaders := Some [{| name := "country" |}; {| name := "sessions" |}];
     metricHeaders := Some [{| name := "sessions" |}];
     rs_rows := Some [{| dimensionValues :=
                           Some [{| value := "Japan" |}; {| value := "(other)" |}];
                         metricValues := Some [{| value := "42" |}] |}];
     rowCount := Some 1%Z;
     metadata := None;
     propertyQuota := None;
     kind := Some "analyticsData#runReport" |}.

Definition japan : DataRow :=
  {| dimensionValues := Some [{| value := "Japan" |}; {| value := "(other)" |}];
     metricValues := Some [{| value := "42" |}] |}.

Lemma row_data_maps_header_names_to_values_witness :
  covered (dimensionHeaders sessions_by_country) (dimensionValues japan)
  ∧ covered (metricHeaders sessions_by_country) (metricValues japan)
  ∧ ∃ o, rowData offline sessions_by_country japan = inr o
         ∧ ∀ k, get k o
                = snd <$> last (filter (λ p, p.1 = k)
                    (assignments (dimensionHeaders sessions_by_country)
                       (dimensionValues japan)
                     ++ assignments (metricHeaders sessions_by_country)
                          (metricValues japan))).
Proof.
  split; [by vm_compute|]. split; [by vm_compute|].
  apply (row_data_maps_header_names_to_values offline sessions_by_country japan);
    by vm_compute.
Defined.

Example japan_row :
  rowData offline sessions_by_country japan
  = inr [("country", "Japan"); ("sessions", "42")].
Proof. reflexivity. Qed.

Lemma map_throwing_inr {A B} (f : A → string + B) (l : list A) (bs : list B) :
  map_throwing f l = inr bs ↔ Forall2 (λ a b, f a = inr b) l bs.
Proof.
  revert bs. induction l as [|a l IH]; intros bs.
  - split; [intros [= <-]; constructor|]. intros H. by inversion H.
  - cbn [map_throwing]. destruct (f a) as [msg|b] eqn:E.
    + split; [done|]. intros H. inversion H. congruence.
    + destruct (map_throwing f l) as [msg|bs'] eqn:E'.
      * split; [done|]. intros H. inversion H as [|? ? ? bs' _ Htl]; subst.
        apply IH in Htl. done.
      * split.
        -- intros [= <-]. constructor; [done|by apply IH].
        -- intros H. inversion H as [|? b' ? bs'' Hb Htl]; subst.
           apply IH in Htl. congruence.
Qed.

Lemma map_throwing_ok {A B} (f : A → string + B) (l : list A) :
  (∃ bs, map_throwing f l = inr bs) ↔ Forall (λ a, ∃ b, f a = inr b) l.
Proof.
  induction l as [|a l IH].
  - split; [constructor|by eexists].
  - cbn [map_throwing]. rewrite Forall_cons, <- IH.
    destruct (f a) as [msg|b].
    + split; [by intros [? [=]]|]. by intros [[? [=]] _].
    + destruct (map_throwing f l) as [msg|bs].
      * split; [by intros [? [=]]|]. by intros [_ [? [=]]].
      * split; [intros _|by eexists]. split; by eexists.
Qed.

(** X27.  [get_ga4_data] answers with data exactly when it has its three
    arguments, the report arrives, and every value of every row has its
    header; one row with a value too many makes the whole call fail, and
    no row is dropped or added: the answer has one object for every row of
    the report, made by [rowData]. *)
Theorem data_needs_a_header_for_every_value :
  ∀ (w : World) (st : State) (args : Args),
    ((∃ formatted, get_ga4_data w st args = inr (Data formatted))
     ↔ ∃ dateRange metrics dimensions response,
         arg_dateRange args = Some dateRange
         ∧ arg_metrics args = Some metrics
         ∧ arg_dimensions args = Some dimensions
         ∧ runReport w (data_request st dateRange metrics dimensions)
           = inr response
         ∧ Forall (λ row,
                     covered (dimensionHeaders response) (dimensionValues row)
                     ∧ covered (metricHeaders response) (metricValues row))
             (default [] (rs_rows response)))
    ∧ ∀ formatted,
        get_ga4_data w st args = inr (Data formatted) →
        ∃ dateRange metrics dimensions response,
          arg_dateRange args = Some dateRange
          ∧ arg_metrics args = Some metrics
          ∧ arg_dimensions args = Some dimensions
          ∧ runReport w (data_request st dateRange metrics dimensions)
            = inr response
          ∧ option_Forall2
              (Forall2 (λ row o, rowData w response row = inr o))
              (rs_rows response) (f_rows formatted).
Proof.
  intros w st args. unfold get_ga4_data.
  destruct (arg_dateRange args) as [dateRange|].
  2: { split; [split|]; [by intros [? [=]]|by intros (? & ? & ? & ? & [=] & _)
                        |by intros ? [=]]. }
  destruct (arg_metrics args) as [metrics|].
  2: { split; [split|]; [by intros [? [=]]|by intros (? & ? & ? & ? & _ & [=] & _)
                        |by intros ? [=]]. }
  destruct (arg_dimensions args) as [dimensions|].
  2: { split; [split|];
         [by intros [? [=]]|by intros (? & ? & ? & ? & _ & _ & [=] & _)
         |by intros ? [=]]. }
  destruct (runReport w _) as [msg|response] eqn:Hr.
  { split; [split|]; [by intros [? [=]]| |by intros ? [=]].
    intros (? & ? & ? & ? & [= <-] & [= <-] & [= <-] & H & _). congruence. }
  unfold formattedResponse.
  destruct (rs_rows response) as [rows|] eqn:Hrows.
  - destruct (map_throwing (rowData w response) rows) as [msg|l] eqn:Hmap.
    + split; [split|]; [by intros [? [=]]| |by intros ? [=]].
      intros (? & ? & ? & response' & [= <-] & [= <-] & [= <-] & H & Hall).
      rewrite Hr in H. injection H as <-. rewrite Hrows in Hall. simpl in Hall.
      assert (∃ bs, map_throwing (rowData w response) rows = inr bs) as [? ?];
        [|congruence].
      apply map_throwing_ok. eapply Forall_impl; [exact Hall|].
      intros row [Hd Hm]. rewrite rowData_covered by done. by eexists.
    + split; [split|].
      * intros _. exists dateRange, metrics, dimensions, response.
        repeat (split; [done|]). rewrite Hrows. simpl.
        assert (Forall (λ a, ∃ b, rowData w response a = inr b) rows) as Hall
          by (apply map_throwing_ok; by eexists).
        eapply Forall_impl; [exact Hall|]. intros row [o Ho].
        destruct (decide (covered (dimensionHeaders response) (dimensionValues row)
                          ∧ covered (metricHeaders response) (metricValues row)))
          as [?|Hn]; [done|].
        destruct (rowData_uncovered w response row Hn) as [msg Hmsg]. congruence.
      * intros _. by eexists.
      * intros formatted [= <-].
        exists dateRange, metrics, dimensions, response.
        repeat (split; [done|]).
        rewrite Hrows. cbn [f_rows]. constructor. by apply map_throwing_inr.
  - split; [split|].
    + intros _. exists dateRange, metrics, dimensions, response.
      repeat (split; [done|]). rewrite Hrows. constructor.
    + intros _. by eexists.
    + intros formatted [= <-].
      exists dateRange, metrics, dimensions, response.
      repeat (split; [done|]).
      rewrite Hrows. cbn [f_rows]. constructor.
Qed.

End GA4ServerFacts.

(** ** Calls with and without arguments *)

Module HandlerFacts.

Import Mcp GA4 GA4Server GA4ServerFacts EventCounts JourneyFacts CvrFailures.

(** The message of the [TypeError] of V8 for the destructuring of an absent
    [arguments]. *)
Definition cannot_destructure (key : string) : string :=
  "Cannot destructure property '" +:+ key +:+ "' of 'args' as it is undefined.".

(** A server whose client was set up for the property 1234. *)
Definition configured : State :=
  {| analyticsDataClient := Some BetaAnalyticsDataClient;
     propertyId := Some "1234" |}.

Lemma handler_cvr w st destructureError args :
  is_Some (analyticsDataClient st) →
  handler w st destructureError "calculate_cvr" (Some args)
  = (st, Answered
           match calculate_cvr (runEventReport w (property_of st)) (cvr_args args) with
           | inl e => ErrorText e
           | inr res => CvrResult res
           end).
Proof.
  intros Hc. unfold handler, callTool, body.
  change (String.eqb "calculate_cvr" "setup_ga4_client") with false.
  change (String.eqb "calculate_cvr" "get_ga4_data") with false.
  change (String.eqb "calculate_cvr" "calculate_cvr") with true.
  rewrite bool_decide_eq_true_2 by done. cbn [negb andb].
  by destruct (calculate_cvr _ _).
Qed.

Lemma handler_journey w st destructureError args :
  is_Some (analyticsDataClient st) →
  handler w st destructureError "analyze_user_journey" (Some args)
  = (st, Answered
           match analyze_user_journey (runEventReport w (property_of st))
                   (journey_args args) with
           | inl e => ErrorText e
           | inr res => Journey res
           end).
Proof.
  intros Hc. unfold handler, callTool, body.
  change (String.eqb "analyze_user_journey" "setup_ga4_client") with false.
  change (String.eqb "analyze_user_journey" "get_ga4_data") with false.
  change (String.eqb "analyze_user_journey" "calculate_cvr") with false.
  change (String.eqb "analyze_user_journey" "analyze_user_journey") with true.
  rewrite bool_decide_eq_true_2 by done. cbn [negb andb].
  by destruct (analyze_user_journey _ _).
Qed.

Lemma handler_no_arguments w st destructureError toolName :
  is_Some (analyticsDataClient st) →
  handler w st destructureError toolName None
  = (st,
     if String.eqb toolName "setup_ga4_client" then
       Thrown (typeError w "propertyId")
     else if String.eqb toolName "get_ga4_data" then
       Thrown (destructureError "dateRange")
     else if String.eqb toolName "calculate_cvr" then
       Thrown (destructureError "conversionEvents")
     else if String.eqb toolName "analyze_user_journey" then
       Thrown (destructureError "segmentBy")
     else Answered (UnknownTool toolName)).
Proof.
  intros Hc. unfold handler. rewrite bool_decide_eq_true_2 by done.
  cbn [negb]. by repeat case_match.
Qed.

(** X20.  On a server whose client is set up, a call of
    [analyze_user_journey] leaves the state as it is.  Without arguments it
    is answered with the text of the [TypeError] of the destructuring, and
    without a date range with the text of [InvalidParams].  With a date
    range it is answered with the funnel when the reports of the six steps
    all succeed; when the report of some step fails it is answered with
    the text of an [InternalError] that carries the message of a step
    whose report failed, and with no partial funnel. *)
Theorem journey_fails_with_a_failing_step :
  ∀ (w : World) (st : State) (destructureError : string → string)
    (arguments : option Args),
    is_Some (analyticsDataClient st) →
    let upstream := runEventReport w (property_of st) in
    let answer := handler w st destructureError "analyze_user_journey" arguments in
    answer.1 = st
    ∧ match arguments with
      | None => answer.2 = Thrown (destructureError "segmentBy")
      | Some args =>
          match arg_dateRange args with
          | None =>
              answer.2
              = Answered (ErrorText (mkError InvalidParams
                            "dateRange is required for analyze_user_journey."))
          | Some range =>
              ((∀ step, step ∈ funnelSteps →
                  ∃ response,
                    upstream (count_request range [step] (arg_segmentBy args))
                    = inr response) →
               ∃ res, answer.2 = Answered (Journey res))
              ∧ ((∃ step msg,
                    step ∈ funnelSteps
                    ∧ upstream (count_request range [step] (arg_segmentBy args))
                      = inl msg) →
                 ∃ step msg,
                   step ∈ funnelSteps
                   ∧ upstream (count_request range [step] (arg_segmentBy args))
                     = inl msg
                   ∧ answer.2
                     = Answered (ErrorText (mkError InternalError
                                   ("GA4 API Error fetching event count: "
                                    +:+ msg))))
          end
      end.
Proof.
  intros w st destructureError [args|] Hc; cbv zeta.
  - rewrite (handler_journey w st destructureError args Hc). cbn [fst snd].
    split; [done|].
    destruct (arg_dateRange args) as [range|] eqn:Hrange.
    + destruct (analyze_user_journey_cases (runEventReport w (property_of st))
                  (journey_args args) range Hrange) as [Hok Hfail].
      cbn [journey_args segmentBy] in Hok, Hfail. split.
      * intros H. destruct (Hok H) as [res ->]. by exists res.
      * intros H. destruct (Hfail H) as (step & msg & Hin & Hu & ->).
        by exists step, msg.
    + unfold analyze_user_journey. cbn [journey_args dateRange].
      by rewrite Hrange.
  - by rewrite (handler_no_arguments w st destructureError _ Hc).
Qed.

Lemma journey_fails_with_a_failing_step_witness :
  is_Some (analyticsDataClient configured)
  ∧ handler offline configured cannot_destructure "analyze_user_journey" None
    = (configured,
       Thrown "Cannot destructure property 'segmentBy' of 'args' as it is undefined.").
Proof.
  assert (is_Some (analyticsDataClient configured)) as Hc by (by eexists).
  split; [exact Hc|].
  destruct (journey_fails_with_a_failing_step offline configured
              cannot_destructure None Hc) as [H1 H2].
  apply injective_projections; [exact H1|exact H2].
Defined.

(** X22.  On a server whose client is set up, a call of [calculate_cvr]
    leaves the state as it is.  Without arguments it is answered with the
    text of the [TypeError] of the destructuring.  With arguments it is
    answered with the text of an error in two ways only: of
    [InvalidParams] when the conversion events, the base events or the
    date range are missing, and of [InternalError] when one of its two
    reports fails; it then carries the message of the report of the
    conversion events when that one failed, and of the report of the base
    events otherwise. *)
Theorem cvr_fails_with_the_first_failing_report :
  ∀ (w : World) (st : State) (destructureError : string → string)
    (arguments : option Args),
    is_Some (analyticsDataClient st) →
    let upstream := runEventReport w (property_of st) in
    let answer := handler w st destructureError "calculate_cvr" arguments in
    answer.1 = st
    ∧ match arguments with
      | None => answer.2 = Thrown (destructureError "conversionEvents")
      | Some args =>
          ∀ e : McpError,
            answer.2 = Answered (ErrorText e)
            ↔ ((arg_conversionEvents args = None ∨ arg_baseEvents args = None
                ∨ arg_dateRange args = None)
               ∧ e = mkError InvalidParams
                       "conversionEvents, baseEvents, and dateRange are required for calculate_cvr.")
              ∨ (∃ conv base range msg,
                   arg_conversionEvents args = Some conv
                   ∧ arg_baseEvents args = Some base
                   ∧ arg_dateRange args = Some range
                   ∧ e = mkError InternalError
                           ("GA4 API Error fetching event count: " +:+ msg)
                   ∧ (upstream (count_request range conv (arg_segmentBy args))
                      = inl msg
                      ∨ ((∃ conversions,
                            upstream
                              (count_request range conv (arg_segmentBy args))
                            = inr conversions)
                         ∧ upstream
                             (count_request range base (arg_segmentBy args))
                           = inl msg)))
      end.
Proof.
  intros w st destructureError [args|] Hc; cbv zeta.
  - rewrite (handler_cvr w st destructureError args Hc). cbn [fst snd].
    split; [done|]. intros e.
    rewrite <- (calculate_cvr_fails (runEventReport w (property_of st))
                  (cvr_args args) e).
    destruct (calculate_cvr _ _) as [e'|res]; split; congruence.
  - by rewrite (handler_no_arguments w st destructureError _ Hc).
Qed.

Lemma cvr_fails_with_the_first_failing_report_witness :
  is_Some (analyticsDataClient configured)
  ∧ handler offline configured cannot_destructure "calculate_cvr" None
    = (configured,
       Thrown "Cannot destructure property 'conversionEvents' of 'args' as it is undefined.").
Proof.
  assert (is_Some (analyticsDataClient configured)) as Hc by (by eexists).
  split; [exact Hc|].
  destruct (cvr_fails_with_the_first_failing_report offline configured
              cannot_destructure None Hc) as [H1 H2].
  apply injective_projections; [exact H1|exact H2].
Defined.

End HandlerFacts.
